(** * RunAnywhere commons: LoRA adapter registry and JNI bridge

    Shallow embedding of
    - [src/infrastructure/model_management/lora_registry.cpp]
      (module [LoraRegistry]), over an explicit heap with a fallible
      allocator, and
    - the parts of [src/jni/runanywhere_commons_jni.cpp] that decide the
      bridge contract (module [Jni]),
    followed by the proofs about them (modules [LoraRegistryProofs] and
    [JniProofs]).

    Conventions.  A C pointer is an [option loc]; [None] is [nullptr].
    Dereferencing or freeing a pointer that is not allocated is undefined
    behaviour and makes a computation return [None].  [size_t] is [nat],
    [int64_t] is [Z], a [float] is carried as its binary32 bit pattern.
    The allocator follows a schedule that says which of the coming
    requests fail, so that every out-of-memory path can be taken. *)

From stdpp Require Import gmap strings list fin_maps sorting pretty.
From Stdlib Require Import ZArith Ascii.

#[local] Set Warnings "-clear-no-such-hyp".
#[local] Set Warnings "-register-all".

(** ** Result codes *)

(** Modelled from the spec: the result codes of rac_error.h (the header is
    not among these sources), as far as the code under study returns
    them. *)
Inductive rac_result_t :=
| RAC_SUCCESS
| RAC_ERROR_INVALID_ARGUMENT
| RAC_ERROR_OUT_OF_MEMORY
| RAC_ERROR_NOT_FOUND
| RAC_ERROR_ADAPTER_NOT_SET
| RAC_ERROR_FILE_NOT_FOUND
| RAC_ERROR_FILE_WRITE_FAILED
| RAC_ERROR_STORAGE_ERROR.

#[global] Instance rac_result_eq_dec : EqDecision rac_result_t.
Proof. solve_decision. Defined.

(** ** C++ exceptions *)

(** The exceptions of the C++ library that the code under study lets
    through: [std::bad_alloc] of the allocating containers and
    [nlohmann::json::type_error] of [dump()]. *)
Inductive cxx_exception := bad_alloc | type_error.

(** What a call does that can end in an exception: it returns, or the
    exception leaves the function. *)
Inductive cxx_outcome (A : Type) :=
| Return (a : A)
| Throw (e : cxx_exception).
Arguments Return {A} a.
Arguments Throw {A} e.

Module LoraRegistry.

(** ** Memory *)

Abbreviation loc := positive.
Abbreviation ptr := (option loc).

(** [rac_lora_entry_t] (rac_lora_registry.h): five owned C strings, an
    owned array of owned C strings with its length, and two scalars. *)
Record rac_lora_entry_t := mk_entry {
  id : ptr;
  name : ptr;
  description : ptr;
  download_url : ptr;
  filename : ptr;
  compatible_model_ids : ptr;
  compatible_model_count : nat;
  file_size : Z;
  default_scale : Z;
}.

(** What [calloc(1, sizeof(rac_lora_entry_t))] yields. *)
Definition zero_entry : rac_lora_entry_t :=
  mk_entry None None None None None None 0 0 0.

(** The five string members, to address them uniformly. *)
Inductive sfield := Fid | Fname | Fdescription | Fdownload_url | Ffilename.

Definition sfields : list sfield :=
  [Fid; Fname; Fdescription; Fdownload_url; Ffilename].

Definition get_s (f : sfield) (e : rac_lora_entry_t) : ptr :=
  match f with
  | Fid => id e
  | Fname => name e
  | Fdescription => description e
  | Fdownload_url => download_url e
  | Ffilename => filename e
  end.

Definition set_s (f : sfield) (p : ptr) (e : rac_lora_entry_t) : rac_lora_entry_t :=
  match f with
  | Fid => mk_entry p (name e) (description e) (download_url e) (filename e)
             (compatible_model_ids e) (compatible_model_count e) (file_size e) (default_scale e)
  | Fname => mk_entry (id e) p (description e) (download_url e) (filename e)
             (compatible_model_ids e) (compatible_model_count e) (file_size e) (default_scale e)
  | Fdescription => mk_entry (id e) (name e) p (download_url e) (filename e)
             (compatible_model_ids e) (compatible_model_count e) (file_size e) (default_scale e)
  | Fdownload_url => mk_entry (id e) (name e) (description e) p (filename e)
             (compatible_model_ids e) (compatible_model_count e) (file_size e) (default_scale e)
  | Ffilename => mk_entry (id e) (name e) (description e) (download_url e) p
             (compatible_model_ids e) (compatible_model_count e) (file_size e) (default_scale e)
  end.

Definition set_ids (p : ptr) (e : rac_lora_entry_t) : rac_lora_entry_t :=
  mk_entry (id e) (name e) (description e) (download_url e) (filename e)
           p (compatible_model_count e) (file_size e) (default_scale e).

Definition set_count (n : nat) (e : rac_lora_entry_t) : rac_lora_entry_t :=
  mk_entry (id e) (name e) (description e) (download_url e) (filename e)
           (compatible_model_ids e) n (file_size e) (default_scale e).

Definition set_file_size (z : Z) (e : rac_lora_entry_t) : rac_lora_entry_t :=
  mk_entry (id e) (name e) (description e) (download_url e) (filename e)
           (compatible_model_ids e) (compatible_model_count e) z (default_scale e).

Definition set_default_scale (z : Z) (e : rac_lora_entry_t) : rac_lora_entry_t :=
  mk_entry (id e) (name e) (description e) (download_url e) (filename e)
           (compatible_model_ids e) (compatible_model_count e) (file_size e) z.

(** Heap blocks.  [BRegistry] is [struct rac_lora_registry]: the
    [std::map<std::string, rac_lora_entry_t*>] (the mutex has no content in
    a sequential model). *)
Inductive block :=
| BStr (s : string)
| BStrArr (a : list ptr)
| BEntry (e : rac_lora_entry_t)
| BEntryArr (a : list ptr)
| BRegistry (entries : gmap string loc).

(** The heap and the allocator's schedule: the outcomes of the coming
    allocation requests, [false] for a request that fails; once the
    schedule is used up every request succeeds. *)
Record mem := Mem {
  heap : gmap loc block;
  sched : list bool;
}.

(** ** Computations: state plus undefined behaviour *)

Definition M (A : Type) : Type := mem → option (A * mem).

Definition ret {A} (a : A) : M A := λ m, Some (a, m).

Definition bind {A B} (c : M A) (k : A → M B) : M B :=
  λ m, match c m with
       | Some (a, m') => k a m'
       | None => None
       end.

Definition ub {A} : M A := λ _, None.

Notation "'let*' x := c 'in' k" := (bind c (λ x, k))
  (at level 10, x name, c at level 100, k at level 200).
Notation "'do' c 'then' k" := (bind c (λ _, k))
  (at level 10, c at level 100, k at level 200).

Definition malloc (b : block) : M ptr := λ m,
  match sched m with
  | false :: s => Some (None, Mem (heap m) s)
  | _ :: s => let l := fresh (dom (heap m)) in
              Some (Some l, Mem (<[l:=b]> (heap m)) s)
  | [] => let l := fresh (dom (heap m)) in
          Some (Some l, Mem (<[l:=b]> (heap m)) [])
  end.

Definition free (l : loc) : M unit := λ m,
  match heap m !! l with
  | Some _ => Some (tt, Mem (delete l (heap m)) (sched m))
  | None => None
  end.

Definition load (l : loc) : M block := λ m,
  match heap m !! l with
  | Some b => Some (b, m)
  | None => None
  end.

Definition store (l : loc) (b : block) : M unit := λ m,
  match heap m !! l with
  | Some _ => Some (tt, Mem (<[l:=b]> (heap m)) (sched m))
  | None => None
  end.

Definition load_str (l : loc) : M string :=
  let* b := load l in match b with BStr s => ret s | _ => ub end.

Definition load_strarr (l : loc) : M (list ptr) :=
  let* b := load l in match b with BStrArr a => ret a | _ => ub end.

Definition load_entry (l : loc) : M rac_lora_entry_t :=
  let* b := load l in match b with BEntry e => ret e | _ => ub end.

Definition load_entryarr (l : loc) : M (list ptr) :=
  let* b := load l in match b with BEntryArr a => ret a | _ => ub end.

Definition load_registry (l : loc) : M (gmap string loc) :=
  let* b := load l in match b with BRegistry r => ret r | _ => ub end.

(** [arr[i]] and [arr[i] = p] on a [char*] array; an index outside the
    block is undefined behaviour. *)
Definition arr_get (arr : loc) (i : nat) : M ptr :=
  let* a := load_strarr arr in
  match a !! i with Some x => ret x | None => ub end.

Definition arr_set (arr : loc) (i : nat) (p : ptr) : M unit :=
  let* a := load_strarr arr in
  if decide (i < length a) then store arr (BStrArr (<[i:=p]> a)) else ub.

(** The same on a [rac_lora_entry_t*] array. *)
Definition earr_get (arr : loc) (i : nat) : M ptr :=
  let* a := load_entryarr arr in
  match a !! i with Some x => ret x | None => ub end.

Definition earr_set (arr : loc) (i : nat) (p : ptr) : M unit :=
  let* a := load_entryarr arr in
  if decide (i < length a) then store arr (BEntryArr (<[i:=p]> a)) else ub.

(** [e->member = v] *)
Definition set_entry (e : loc) (upd : rac_lora_entry_t → rac_lora_entry_t) : M unit :=
  let* x := load_entry e in store e (BEntry (upd x)).

(** [if (p) free(p);] *)
Definition free_if (p : ptr) : M unit :=
  match p with Some l => free l | None => ret tt end.

(** [for (size_t i = i0; i < i0 + n; ++i) body], where the body may leave
    the loop (and the function) with a value. *)
Fixpoint for_loop {A} (n i : nat) (body : nat → M (option A)) : M (option A) :=
  match n with
  | 0 => ret None
  | S n' => let* r := body i in
            match r with
            | Some a => ret (Some a)
            | None => for_loop n' (S i) body
            end
  end.

(** Short-circuit [||]. *)
Definition orM (c1 c2 : M bool) : M bool :=
  let* b := c1 in if b then ret true else c2.

(** Modelled from the spec: [rac_strdup] (declared in rac_types.h; its
    body is not among these sources).  A deep copy has an independent
    backing allocation for every string and list element, so the duplicate
    is a fresh block with the same bytes; the null checks around its calls
    in [deep_copy_lora_entry] fix the rest: a null argument gives null
    without allocating, and a failed allocation gives null. *)
Definition rac_strdup (p : ptr) : M ptr :=
  match p with
  | None => ret None
  | Some l => let* s := load_str l in malloc (BStr s)
  end.

(** ** lora_registry.cpp *)

Definition free_lora_entry (entry : ptr) : M unit :=
  match entry with
  | None => ret tt
  | Some c =>
    let* e := load_entry c in
    do free_if (id e) then
    do free_if (name e) then
    do free_if (description e) then
    do free_if (download_url e) then
    do free_if (filename e) then
    do (match compatible_model_ids e with
        | Some la =>
          do for_loop (compatible_model_count e) 0 (λ i,
               let* p := arr_get la i in
               do free_if p then
               ret (@None unit)) then
          free la
        | None => ret tt
        end) then
    free c
  end.

(** [copy->f = rac_strdup(src->f)] *)
Definition copy_sfield (f : sfield) (src copy : loc) : M unit :=
  let* se := load_entry src in
  let* p := rac_strdup (get_s f se) in
  set_entry copy (set_s f p).

(** [(src->f && !copy->f)] *)
Definition sfield_lost (f : sfield) (src copy : loc) : M bool :=
  let* se := load_entry src in
  match get_s f se with
  | Some _ => let* ce := load_entry copy in
              ret (if get_s f ce is Some _ then false else true)
  | None => ret false
  end.

(** The body of the element loop of [deep_copy_lora_entry]; [Some tt] is
    the [return nullptr] after the clean-up. *)
Definition copy_element (sa ca copy : loc) (i : nat) : M (option unit) :=
  let* x := arr_get sa i in
  let* p := rac_strdup x in
  do arr_set ca i p then
  let* x' := arr_get sa i in
  let* y := arr_get ca i in
  match x', y with
  | Some _, None => do free_lora_entry (Some copy) then ret (Some tt)
  | _, _ => ret None
  end.

(** The block guarded by
    [src->compatible_model_ids && src->compatible_model_count > 0]. *)
Definition copy_model_ids (src copy : loc) : M (option unit) :=
  let* se := load_entry src in
  match compatible_model_ids se, compatible_model_count se with
  | Some sa, S n' =>
    let n := S n' in
    let* arr := malloc (BStrArr (replicate n None)) in
    match arr with
    | None => do free_lora_entry (Some copy) then ret (Some tt)
    | Some ca =>
      do set_entry copy (set_ids (Some ca)) then
      do set_entry copy (set_count n) then
      for_loop n 0 (copy_element sa ca copy)
    end
  | _, _ => ret None
  end.

Definition deep_copy_lora_entry (src : ptr) : M ptr :=
  match src with
  | None => ret None
  | Some s =>
    let* copy := malloc (BEntry zero_entry) in
    match copy with
    | None => ret None
    | Some c =>
      do copy_sfield Fid s c then
      do copy_sfield Fname s c then
      do copy_sfield Fdescription s c then
      do copy_sfield Fdownload_url s c then
      do copy_sfield Ffilename s c then
      let* lost := orM (sfield_lost Fid s c)
                  (orM (sfield_lost Fname s c)
                  (orM (sfield_lost Fdescription s c)
                  (orM (sfield_lost Fdownload_url s c)
                       (sfield_lost Ffilename s c)))) in
      if lost then do free_lora_entry (Some c) then ret None
      else
        let* r := copy_model_ids s c in
        match r with
        | Some _ => ret None
        | None =>
          let* se := load_entry s in
          do set_entry c (set_file_size (file_size se)) then
          do set_entry c (set_default_scale (default_scale se)) then
          ret (Some c)
        end
    end
  end.

(** [new (std::nothrow) rac_lora_registry()]; the out-parameter is
    returned next to the result code when it is written. *)
Definition rac_lora_registry_create (out_handle : bool) : M (rac_result_t * option ptr) :=
  if out_handle then
    let* registry := malloc (BRegistry ∅) in
    match registry with
    | None => ret (RAC_ERROR_OUT_OF_MEMORY, None)
    | Some r => ret (RAC_SUCCESS, Some (Some r))
    end
  else ret (RAC_ERROR_INVALID_ARGUMENT, None).

(** [rac_lora_registry_register] and [rac_lora_registry_remove], with
    the memory that [std::string] and [std::map] ask for granted; the
    section on the allocations of the C++ library has them with these
    requests. *)
Definition rac_lora_registry_register (handle entry : ptr) : M rac_result_t :=
  match handle, entry with
  | Some hd, Some en =>
    let* e := load_entry en in
    match id e with
    | None => ret RAC_ERROR_INVALID_ARGUMENT
    | Some idl =>
      let* adapter_id := load_str idl in
      let* copy := deep_copy_lora_entry (Some en) in
      match copy with
      | None => ret RAC_ERROR_OUT_OF_MEMORY
      | Some c =>
        let* entries := load_registry hd in
        do (match entries !! adapter_id with
            | Some old => free_lora_entry (Some old)
            | None => ret tt
            end) then
        let* entries := load_registry hd in
        do store hd (BRegistry (<[adapter_id:=c]> entries)) then
        ret RAC_SUCCESS
      end
    end
  | _, _ => ret RAC_ERROR_INVALID_ARGUMENT
  end.

Definition rac_lora_registry_remove (handle adapter_id : ptr) : M rac_result_t :=
  match handle, adapter_id with
  | Some hd, Some k =>
    let* key := load_str k in
    let* entries := load_registry hd in
    match entries !! key with
    | None => ret RAC_ERROR_NOT_FOUND
    | Some old =>
      do free_lora_entry (Some old) then
      let* entries := load_registry hd in
      do store hd (BRegistry (delete key entries)) then
      ret RAC_SUCCESS
    end
  | _, _ => ret RAC_ERROR_INVALID_ARGUMENT
  end.

(** [rac_lora_registry_get]: the second component is the value written to
    [*out_entry], if the call wrote it. *)
Definition rac_lora_registry_get (handle adapter_id : ptr) (out_entry : bool)
  : M (rac_result_t * option ptr) :=
  match handle, adapter_id, out_entry with
  | Some hd, Some k, true =>
    let* key := load_str k in
    let* entries := load_registry hd in
    match entries !! key with
    | None => ret (RAC_ERROR_NOT_FOUND, None)
    | Some it =>
      let* copy := deep_copy_lora_entry (Some it) in
      match copy with
      | None => ret (RAC_ERROR_OUT_OF_MEMORY, Some None)
      | Some c => ret (RAC_SUCCESS, Some (Some c))
      end
    end
  | _, _, _ => ret (RAC_ERROR_INVALID_ARGUMENT, None)
  end.

(** [std::map] iterates in the order of its keys, [std::string]'s
    lexicographic byte order. *)
Definition key_le (x y : string * loc) : Prop :=
  String.leb x.1 y.1 = true.

#[global] Instance key_le_dec x y : Decision (key_le x y).
Proof. unfold key_le. apply _. Defined.

Definition in_order (entries : gmap string loc) : list (string * loc) :=
  merge_sort key_le (map_to_list entries).

(** [strcmp(a, b) == 0] *)
Definition streq (a b : loc) : M bool :=
  let* x := load_str a in
  let* y := load_str b in
  ret (bool_decide (x = y)).

(** The inner loop of [rac_lora_registry_get_for_model]: [Some tt] is the
    [break] after [push_back]. *)
Definition match_element (ids model_id : loc) (i : nat) : M (option unit) :=
  let* p := arr_get ids i in
  match p with
  | Some l => let* eq := streq l model_id in
              ret (if eq then Some tt else None)
  | None => ret None
  end.

Definition entry_matches (entry model_id : loc) : M bool :=
  let* e := load_entry entry in
  match compatible_model_ids e with
  | None => ret false
  | Some ids =>
    let* r := for_loop (compatible_model_count e) 0 (match_element ids model_id) in
    ret (if r is Some _ then true else false)
  end.

Fixpoint collect_matches (it : list (string * loc)) (model_id : loc) : M (list loc) :=
  match it with
  | [] => ret []
  | kv :: rest =>
    let* hit := entry_matches kv.2 model_id in
    let* matches := collect_matches rest model_id in
    ret (if hit then kv.2 :: matches else matches)
  end.

(** The clean-up loop [for (j = 0; j < i; ++j) free_lora_entry(arr[j])]
    over the result array. *)
Definition free_prefix (arr : loc) (i : nat) : M unit :=
  do for_loop i 0 (λ j,
       let* p := earr_get arr j in
       do free_lora_entry p then
       ret (@None unit)) then
  ret tt.

(** The body of the copy loops of [get_all] and [get_for_model]; [Some tt]
    is the out-of-memory return after the clean-up. *)
Definition copy_into (arr : loc) (srcs : list loc) (i : nat) : M (option unit) :=
  match srcs !! i with
  | None => ub
  | Some src =>
    let* c := deep_copy_lora_entry (Some src) in
    do earr_set arr i c then
    let* c' := earr_get arr i in
    match c' with
    | Some _ => ret None
    | None => do free_prefix arr i then
              do free arr then
              ret (Some tt)
    end
  end.

(** The values written to [*out_entries] and [*out_count]. *)
Record out_array := OutArray {
  out_entries : option ptr;
  out_count : option nat;
}.

Definition copy_out (srcs : list loc) : M (rac_result_t * out_array) :=
  let n := length srcs in
  match n with
  | 0 => ret (RAC_SUCCESS, OutArray (Some None) (Some 0))
  | S _ =>
    let* arr := malloc (BEntryArr (replicate n None)) in
    match arr with
    | None => ret (RAC_ERROR_OUT_OF_MEMORY, OutArray (Some None) (Some n))
    | Some a =>
      let* r := for_loop n 0 (copy_into a srcs) in
      match r with
      | Some _ => ret (RAC_ERROR_OUT_OF_MEMORY, OutArray (Some None) (Some 0))
      | None => ret (RAC_SUCCESS, OutArray (Some (Some a)) (Some n))
      end
    end
  end.

Definition not_written : out_array := OutArray None None.

Definition rac_lora_registry_get_all (handle : ptr) (out_e out_c : bool)
  : M (rac_result_t * out_array) :=
  match handle, out_e, out_c with
  | Some hd, true, true =>
    let* entries := load_registry hd in
    copy_out ((in_order entries).*2)
  | _, _, _ => ret (RAC_ERROR_INVALID_ARGUMENT, not_written)
  end.

Definition rac_lora_registry_get_for_model (handle model_id : ptr) (out_e out_c : bool)
  : M (rac_result_t * out_array) :=
  match handle, model_id, out_e, out_c with
  | Some hd, Some mid, true, true =>
    let* entries := load_registry hd in
    let* matches := collect_matches (in_order entries) mid in
    copy_out matches
  | _, _, _, _ => ret (RAC_ERROR_INVALID_ARGUMENT, not_written)
  end.

Definition rac_lora_entry_free (entry : ptr) : M unit := free_lora_entry entry.

Definition rac_lora_entry_array_free (entries : ptr) (count : nat) : M unit :=
  match entries with
  | None => ret tt
  | Some arr => do free_prefix arr count then free arr
  end.

Definition rac_lora_entry_copy (entry : ptr) : M ptr := deep_copy_lora_entry entry.

(** ** What an entry denotes *)

(** The value of an entry, as the specification speaks of it: the five
    strings, the list of compatible model ids, and the two scalars. *)
Record lora_view := View {
  v_id : option string;
  v_name : option string;
  v_description : option string;
  v_download_url : option string;
  v_filename : option string;
  v_models : list (option string);
  v_file_size : Z;
  v_default_scale : Z;
}.

Definition get_vs (f : sfield) (v : lora_view) : option string :=
  match f with
  | Fid => v_id v
  | Fname => v_name v
  | Fdescription => v_description v
  | Fdownload_url => v_download_url v
  | Ffilename => v_filename v
  end.

Definition read_str (h : gmap loc block) (p : ptr) : option (option string) :=
  match p with
  | None => Some None
  | Some l => match h !! l with
              | Some (BStr s) => Some (Some s)
              | _ => None
              end
  end.

(** The pointers [compatible_model_ids[0 .. count)] of an entry. *)
Definition read_ids (h : gmap loc block) (e : rac_lora_entry_t) : option (list ptr) :=
  match compatible_model_ids e with
  | None => Some []
  | Some la =>
    match h !! la with
    | Some (BStrArr a0) =>
      if decide (compatible_model_count e ≤ length a0)
      then Some (take (compatible_model_count e) a0) else None
    | _ => None
    end
  end.

Definition read_struct (h : gmap loc block) (e : rac_lora_entry_t) : option lora_view :=
  i ← (read_str h (id e));
  n ← read_str h (name e);
  d ← read_str h (description e);
  u ← read_str h (download_url e);
  f ← read_str h (filename e);
  a ← read_ids h e;
  ms ← mapM (read_str h) a;
  Some (View i n d u f ms (file_size e) (default_scale e)).

Definition read_entry (h : gmap loc block) (c : loc) : option lora_view :=
  match h !! c with
  | Some (BEntry e) => read_struct h e
  | _ => None
  end.

(** The blocks an entry is made of, in the order [free_lora_entry]
    releases them. *)
Definition locs_of (c : loc) (e : rac_lora_entry_t) (a : list ptr) : list loc :=
  option_list (id e) ++ option_list (name e) ++ option_list (description e) ++
  option_list (download_url e) ++ option_list (filename e) ++
  omap (λ p, p) a ++ option_list (compatible_model_ids e) ++ [c].

Definition entry_locs (h : gmap loc block) (c : loc) : list loc :=
  match h !! c with
  | Some (BEntry e) => locs_of c e (default [] (read_ids h e))
  | _ => []
  end.

(** An entry that can be released: it reads, and no block occurs twice. *)
Definition owned (h : gmap loc block) (c : loc) : Prop :=
  is_Some (read_entry h c) ∧ NoDup (entry_locs h c).

(** The heap after releasing the blocks [ls]. *)
Definition free_all (ls : list loc) (h : gmap loc block) : gmap loc block :=
  foldl (λ h l, delete l h) h ls.

(** No request of the schedule fails. *)
Definition alloc_ok (σ : list bool) : Prop := Forall (λ b, b = true) σ.

(** The entries stored in a registry. *)
Definition reg_entries (h : gmap loc block) (hd : loc) : option (gmap string loc) :=
  match h !! hd with
  | Some (BRegistry entries) => Some entries
  | _ => None
  end.

(** The registry's representation invariant: every stored pointer is an
    owned entry whose id is its key, the entries share no block, and none
    contains the registry object. *)
Definition reg_ok (h : gmap loc block) (hd : loc) : Prop :=
  ∃ entries, reg_entries h hd = Some entries ∧
    (∀ k c, entries !! k = Some c →
       owned h c ∧ (hd ∉ entry_locs h c) ∧
       ∃ v, read_entry h c = Some v ∧ v_id v = Some k) ∧
    (∀ k1 k2 c1 c2, k1 ≠ k2 → entries !! k1 = Some c1 → entries !! k2 = Some c2 →
       ∀ l, l ∈ entry_locs h c1 → l ∉ entry_locs h c2).

(** Blocks that belong to the registry. *)
Definition reg_owns (h : gmap loc block) (hd : loc) (l : loc) : Prop :=
  l = hd ∨ ∃ entries k c, reg_entries h hd = Some entries ∧
                          entries !! k = Some c ∧ l ∈ entry_locs h c.

(** An entry of the caller: readable, and made of blocks that are not the
    registry's. *)
Definition foreign (h : gmap loc block) (hd : loc) (s : loc) : Prop :=
  ∀ l, l ∈ entry_locs h s → ¬ reg_owns h hd l.

(** The views of the stored entries, in iteration order. *)
Definition stored_views (h : gmap loc block) (hd : loc) : option (list lora_view) :=
  entries ← reg_entries h hd;
  mapM (read_entry h) ((in_order entries).*2).

(** The views of a result array written by [get_all] / [get_for_model]. *)
Definition read_result (h : gmap loc block) (out : out_array) : option (list lora_view) :=
  match out_entries out, out_count out with
  | Some None, Some 0 => Some []
  | Some (Some arr), Some n =>
    match h !! arr with
    | Some (BEntryArr a) =>
      if decide (length a = n)
      then mapM (λ p, match p with Some c => read_entry h c | None => None end) a
      else None
    | _ => None
    end
  | _, _ => None
  end.

Definition view_matches (model : string) (v : lora_view) : Prop :=
  Some model ∈ v_models v.

#[global] Instance view_matches_dec model v : Decision (view_matches model v).
Proof. unfold view_matches. apply _. Defined.

(** ** Reasoning about computations *)

(** [wp c Q m]: from [m], [c] is defined and ends in a result and a state
    that satisfy [Q]. *)
Definition wp {A} (c : M A) (Q : A → mem → Prop) (m : mem) : Prop :=
  match c m with
  | Some (a, m') => Q a m'
  | None => False
  end.

(** [rep h c e a v]: at [c] lies the structure [e], whose array holds the
    pointers [a], and the whole reads as [v]. *)
Definition rep (h : gmap loc block) (c : loc) (e : rac_lora_entry_t)
    (a : list ptr) (v : lora_view) : Prop :=
  h !! c = Some (BEntry e) ∧ read_ids h e = Some a ∧ read_struct h e = Some v.

(** ** The pointees of a structure *)

Definition plocs (e : rac_lora_entry_t) (a : list ptr) : list loc :=
  option_list (id e) ++ option_list (name e) ++ option_list (description e) ++
  option_list (download_url e) ++ option_list (filename e) ++
  omap (λ p, p) a ++ option_list (compatible_model_ids e).

Definition reads (h : gmap loc block) (e : rac_lora_entry_t)
    (a : list ptr) (v : lora_view) : Prop :=
  read_ids h e = Some a ∧ read_struct h e = Some v.

(** ** A copy under construction *)

Definition inserted {A} (x : A) (L L' : list A) : Prop :=
  ∃ l1 l2, L = l1 ++ l2 ∧ L' = l1 ++ x :: l2.

(** [building h0 σ0 c hc σc ce ca cv]: started from the heap [h0] and the
    schedule [σ0], the construction has reached the heap [hc]; the copy at
    [c] is the structure [ce] with the array [ca], reads as [cv], and is
    all that was added to [h0]. *)
Record building (h0 : gmap loc block) (σ0 : list bool) (c : loc)
    (hc : gmap loc block) (σc : list bool)
    (ce : rac_lora_entry_t) (ca : list ptr) (cv : lora_view) : Prop := {
  b_struct : hc !! c = Some (BEntry ce);
  b_reads : reads hc ce ca cv;
  b_nodup : NoDup (plocs ce ca ++ [c]);
  b_fresh : ∀ l, l ∈ plocs ce ca ++ [c] → h0 !! l = None;
  b_frame : ∀ l, l ∉ plocs ce ca ++ [c] → hc !! l = h0 !! l;
  b_ok : alloc_ok σ0 → alloc_ok σc;
}.

(** Updates of the view that mirror the updates of the structure. *)
Definition set_vs (f : sfield) (r : option string) (v : lora_view) : lora_view :=
  match f with
  | Fid => View r (v_name v) (v_description v) (v_download_url v) (v_filename v)
             (v_models v) (v_file_size v) (v_default_scale v)
  | Fname => View (v_id v) r (v_description v) (v_download_url v) (v_filename v)
             (v_models v) (v_file_size v) (v_default_scale v)
  | Fdescription => View (v_id v) (v_name v) r (v_download_url v) (v_filename v)
             (v_models v) (v_file_size v) (v_default_scale v)
  | Fdownload_url => View (v_id v) (v_name v) (v_description v) r (v_filename v)
             (v_models v) (v_file_size v) (v_default_scale v)
  | Ffilename => View (v_id v) (v_name v) (v_description v) (v_download_url v) r
             (v_models v) (v_file_size v) (v_default_scale v)
  end.

Definition set_vmodels (ms : list (option string)) (v : lora_view) : lora_view :=
  View (v_id v) (v_name v) (v_description v) (v_download_url v) (v_filename v)
       ms (v_file_size v) (v_default_scale v).

Definition set_vscalars (fs ds : Z) (v : lora_view) : lora_view :=
  View (v_id v) (v_name v) (v_description v) (v_download_url v) (v_filename v)
       (v_models v) fs ds.

Definition zero_view : lora_view := View None None None None None [] 0 0.

(** The outcome of [deep_copy_lora_entry] on a source that reads as [v],
    started from the heap [h0] and the schedule [σ0]. *)
Definition copied (h0 : gmap loc block) (σ0 : list bool) (v : lora_view)
    (r : ptr) (m' : mem) : Prop :=
  (alloc_ok σ0 → alloc_ok (sched m') ∧ is_Some r) ∧
  match r with
  | None => heap m' = h0
  | Some c => ∃ e a, rep (heap m') c e a v ∧ NoDup (locs_of c e a) ∧
                     (∀ l, l ∈ locs_of c e a → h0 !! l = None) ∧
                     (∀ l, l ∉ locs_of c e a → heap m' !! l = h0 !! l)
  end.

(** ** Queries *)

(** The blocks of the copies [ces], each given with its structure and its
    array of pointers. *)
Definition blocks (ces : list (loc * (rac_lora_entry_t * list ptr))) : list loc :=
  ces ≫= λ x, locs_of x.1 x.2.1 x.2.2.

(** The stored entry at [c] lists [model]. *)
Definition loc_matches (h : gmap loc block) (model : string) (c : loc) : Prop :=
  from_option (view_matches model) False (read_entry h c).

#[global] Instance loc_matches_dec h model c : Decision (loc_matches h model c).
Proof. unfold loc_matches. destruct (read_entry h c); simpl; apply _. Defined.

(** The pointers [compatible_model_ids[0 .. count)] of the entry at [c]. *)
Definition entry_ids (h : gmap loc block) (c : loc) : option (list ptr) :=
  match h !! c with
  | Some (BEntry e) => read_ids h e
  | _ => None
  end.

(** ** The rest of lora_registry.cpp *)

(** [for (auto& pair : handle->entries) free_lora_entry(pair.second);] *)
Fixpoint free_entries (it : list (string * loc)) : M unit :=
  match it with
  | [] => ret tt
  | kv :: rest => do free_lora_entry (Some kv.2) then free_entries rest
  end.

Definition rac_lora_registry_destroy (handle : ptr) : M unit :=
  match handle with
  | None => ret tt
  | Some hd =>
    let* entries := load_registry hd in
    do free_entries (in_order entries) then
    (* handle->entries.clear(); *)
    do store hd (BRegistry ∅) then
    (* delete handle; *)
    free hd
  end.

(** The registry as a finite map from adapter ids to values. *)
Definition view_map (h : gmap loc block) (hd : loc) : option (gmap string lora_view) :=
  match reg_entries h hd with
  | Some entries => Some (omap (read_entry h) entries)
  | None => None
  end.

(** The blocks of all the stored entries, in iteration order. *)
Definition reg_blocks (h : gmap loc block) (entries : gmap string loc) : list loc :=
  in_order entries ≫= λ kc, entry_locs h kc.2.

(** ** The allocations of the C++ library *)

(** [register] and [remove] also ask for memory through the C++ library.
    In [register], [std::string adapter_id = entry->id] builds a string
    before the copy is made, and [handle->entries[adapter_id] = copy]
    builds a map node, with its own copy of the key, when the key is new.  In [remove],
    [handle->entries.find(adapter_id)] builds a temporary [std::string]
    from the C string.  When such a request fails, [std::bad_alloc] leaves
    the function.  [rac_lora_registry_register] and
    [rac_lora_registry_remove] above are the two functions where the
    library gets this memory; the two below are the functions with these
    requests, where [string_ok], [insert_ok] and [key_ok] tell whether the
    library gets the memory it asks for (it asks for none to hold a short
    string). *)
Definition rac_lora_registry_register_cxx (string_ok insert_ok : bool)
    (handle entry : ptr) : M (cxx_outcome rac_result_t) :=
  match handle, entry with
  | Some hd, Some en =>
    let* e := load_entry en in
    match id e with
    | None => ret (Return RAC_ERROR_INVALID_ARGUMENT)
    | Some idl =>
      let* adapter_id := load_str idl in
      if string_ok then
        let* copy := deep_copy_lora_entry (Some en) in
        match copy with
        | None => ret (Return RAC_ERROR_OUT_OF_MEMORY)
        | Some c =>
          let* entries := load_registry hd in
          do (match entries !! adapter_id with
              | Some old => free_lora_entry (Some old)
              | None => ret tt
              end) then
          if match entries !! adapter_id with Some _ => true | None => insert_ok end
          then
            let* entries := load_registry hd in
            do store hd (BRegistry (<[adapter_id:=c]> entries)) then
            ret (Return RAC_SUCCESS)
          else ret (Throw bad_alloc)
        end
      else ret (Throw bad_alloc)
    end
  | _, _ => ret (Return RAC_ERROR_INVALID_ARGUMENT)
  end.

Definition rac_lora_registry_remove_cxx (key_ok : bool) (handle adapter_id : ptr)
  : M (cxx_outcome rac_result_t) :=
  match handle, adapter_id with
  | Some hd, Some k =>
    let* key := load_str k in
    if key_ok then
      let* entries := load_registry hd in
      match entries !! key with
      | None => ret (Return RAC_ERROR_NOT_FOUND)
      | Some old =>
        do free_lora_entry (Some old) then
        let* entries := load_registry hd in
        do store hd (BRegistry (delete key entries)) then
        ret (Return RAC_SUCCESS)
      end
    else ret (Throw bad_alloc)
  | _, _ => ret (Return RAC_ERROR_INVALID_ARGUMENT)
  end.

(** A computation that returns what [c] returns. *)
Definition returning {A} (c : M A) : M (cxx_outcome A) :=
  let* r := c in ret (Return r).

(** ** A small heap to run the operations on *)

(** The caller's entries: at 5, adapter [l1] for models [mA], [mB]
    (listed twice) with a null element in the list; at 7, another adapter
    [l1], with a name and no list; at 13, adapter [l2].  The registry at
    9 is empty and 10 holds the model id to ask for. *)
Definition demo_heap : gmap loc block :=
  list_to_map
    [(1%positive, BStr "l1"); (2%positive, BStr "mA"); (3%positive, BStr "mB");
     (11%positive, BStr "mB");
     (4%positive, BStrArr [Some 2%positive; None; Some 3%positive; Some 11%positive]);
     (5%positive, BEntry (mk_entry (Some 1%positive) None None None None
                            (Some 4%positive) 4 77 3));
     (6%positive, BStr "l1"); (8%positive, BStr "adapter");
     (7%positive, BEntry (mk_entry (Some 6%positive) (Some 8%positive) None None None
                            None 0 0 7));
     (12%positive, BStr "l2");
     (13%positive, BEntry (mk_entry (Some 12%positive) None None None None None 0 5 0));
     (9%positive, BRegistry ∅);
     (10%positive, BStr "mB")].

Definition demo_v1 : lora_view :=
  View (Some "l1") None None None None [Some "mA"; None; Some "mB"; Some "mB"] 77 3.

Definition demo_v2 : lora_view :=
  View (Some "l1") (Some "adapter") None None None [] 0 7.

Definition demo_v3 : lora_view :=
  View (Some "l2") None None None None [] 5 0.

(** The memory an operation leaves ([m] itself when it is undefined). *)
Definition after {A} (c : M A) (m : mem) : mem :=
  match c m with Some (_, m') => m' | None => m end.

Definition demo_m1 : mem :=
  after (rac_lora_registry_register (Some 9%positive) (Some 5%positive)) (Mem demo_heap []).

Definition demo_m2 : mem :=
  after (rac_lora_registry_register (Some 9%positive) (Some 7%positive))
        (Mem (heap demo_m1) []).

Definition demo_m3 : mem :=
  after (rac_lora_registry_register (Some 9%positive) (Some 13%positive))
        (Mem (heap demo_m1) []).

(** The same registration of the entry at 7 with the third allocation
    failing. *)
Definition demo_oom : mem :=
  after (rac_lora_registry_register (Some 9%positive) (Some 7%positive))
        (Mem (heap demo_m1) [true; true; false]).

(** The result of an operation ([d] when it is undefined). *)
Definition outcome {A} (c : M A) (m : mem) (d : A) : A :=
  match c m with Some (a, _) => a | None => d end.

(** The two values stored in [demo_m3]. *)
Definition demo_vm : gmap string lora_view :=
  <["l1":=demo_v1]> (<["l2":=demo_v3]> ∅).

(** What [get_all] hands out on [demo_m3], and the memory it leaves. *)
Definition demo_all_out : out_array :=
  (outcome (rac_lora_registry_get_all (Some 9%positive) true true)
           (Mem (heap demo_m3) []) (RAC_SUCCESS, not_written)).2.

Definition demo_all_mem : mem :=
  after (rac_lora_registry_get_all (Some 9%positive) true true) (Mem (heap demo_m3) []).

(** A copy of the caller's entry at 5, and the memory after the copy. *)
Definition demo_copy : loc :=
  default 1%positive (outcome (rac_lora_entry_copy (Some 5%positive)) (Mem demo_heap []) None).

Definition demo_copy_mem : mem :=
  after (rac_lora_entry_copy (Some 5%positive)) (Mem demo_heap []).

End LoraRegistry.

(** * The JNI bridge (runanywhere_commons_jni.cpp) *)

Module Jni.

Import LoraRegistry.
Local Open Scope string_scope.

(** ** Bridge types *)

(** Modelled from the spec: [rac_bool_t] of rac_types.h (not among these
    sources), the engine's boolean with its two values. *)
Inductive rac_bool_t := RAC_FALSE | RAC_TRUE.

#[global] Instance rac_bool_eq_dec : EqDecision rac_bool_t.
Proof. solve_decision. Defined.

(** What [GetEnv] answers for the calling thread. *)
Inductive jni_status := JNI_OK | JNI_EDETACHED | JNI_EVERSION.

(** A [JavaVM*] as the calling thread sees it. *)
Record JavaVM := {
  get_env : jni_status;
  attach_ok : bool;
}.

(** The outcome of a call into managed code: it returns, or it throws and
    the value the JNI call hands back is arbitrary. *)
Inductive java_result (A : Type) :=
| Returns (a : A)
| Throws (junk : A).
Arguments Returns {A} a.
Arguments Throws {A} junk.

(** What the native side can observe of its [JNIEnv]. *)
Record jni_state := {
  exception_pending : bool;
  exception_described : bool;
  detached : bool;
}.

Definition jni_start : jni_state := Build_jni_state false false false.

(** The managed token sink ([onToken]). *)
Record token_sink := { onToken : string → java_result bool }.

(** [int] arithmetic as the compiled code does it: 32 bits, two's
    complement. *)
Definition wrap_int (z : Z) : Z := (z + 2147483648) mod 4294967296 - 2147483648.

(** ** Streaming contexts *)

(** Modelled from the spec: the LLM result of the engine
    ([rac_llm_result_t], declared outside these sources), with the members
    the streaming callbacks copy; the float is carried as its bit
    pattern. *)
Record rac_llm_result_t := {
  completion_tokens : Z;
  prompt_tokens : Z;
  total_tokens : Z;
  total_time_ms : Z;
  tokens_per_second : Z;
}.

Definition zero_result : rac_llm_result_t := Build_rac_llm_result_t 0 0 0 0 0.

Record LLMStreamCallbackContext := {
  jvm : option JavaVM;
  callback : option token_sink;
  onTokenMethod : bool;
  onTokenExpectsBytes : bool;
  accumulated_text : string;
  token_count : Z;
  is_complete : bool;
  has_error : bool;
  error_code : rac_result_t;
  error_message : string;
  final_result : rac_llm_result_t;
}.

Definition add_token (tok : string) (c : LLMStreamCallbackContext) : LLMStreamCallbackContext :=
  Build_LLMStreamCallbackContext (jvm c) (callback c) (onTokenMethod c)
    (onTokenExpectsBytes c) (accumulated_text c ++ tok) (wrap_int (token_count c + 1))
    (is_complete c) (has_error c) (error_code c) (error_message c) (final_result c).

(** [CallBooleanMethod] followed by [ExceptionCheck]: the value handed back
    and whether an exception is pending. *)
Definition call_on_token (cb : token_sink) (tok : string) (st : jni_state)
  : bool * bool :=
  match onToken cb tok with
  | Returns b => (b, exception_pending st)
  | Throws junk => (junk, true)
  end.

(** [ExceptionDescribe(); ExceptionClear();] when an exception is pending,
    then [DetachCurrentThread()] when the thread was attached here. *)
Definition after_call (hadException needsDetach : bool) (st : jni_state) : jni_state :=
  Build_jni_state
    (if hadException then false else exception_pending st)
    (if hadException then true else exception_described st)
    (if needsDetach then true else detached st).

(** [llm_stream_callback_token]: the returned flag, the context as the
    function leaves it, and the JNI state. *)
Definition llm_stream_callback_token (token : option string)
    (user_data : option LLMStreamCallbackContext) (st : jni_state)
  : rac_bool_t * option LLMStreamCallbackContext * jni_state :=
  match user_data, token with
  | Some ctx0, Some tok =>
    let ctx := add_token tok ctx0 in
    match jvm ctx, callback ctx, onTokenMethod ctx with
    | Some vm, Some cb, true =>
      let env_needsDetach :=
        match get_env vm with
        | JNI_OK => Some (true, false)
        | JNI_EDETACHED => if attach_ok vm then Some (true, true) else None
        | JNI_EVERSION => Some (false, false)
        end in
      match env_needsDetach with
      | None => (RAC_TRUE, Some ctx, st)
      | Some (false, _) => (RAC_TRUE, Some ctx, st)
      | Some (true, needsDetach) =>
        let '(continueGen, hadException) := call_on_token cb tok st in
        let st' := after_call hadException needsDetach st in
        if hadException then (RAC_TRUE, Some ctx, st')
        else if continueGen then (RAC_TRUE, Some ctx, st')
        else (RAC_FALSE, Some ctx, st')
      end
    | _, _, _ => (RAC_TRUE, Some ctx, st)
    end
  | _, _ => (RAC_TRUE, user_data, st)
  end.

(** Modelled from the spec: the VLM result of the engine
    ([rac_vlm_result_t], declared outside these sources), with the members
    [buildVlmResultJson] writes. *)
Record rac_vlm_result_t := {
  vr_prompt_tokens : Z;
  vr_image_tokens : Z;
  vr_completion_tokens : Z;
  vr_total_tokens : Z;
  vr_time_to_first_token_ms : Z;
  vr_image_encode_time_ms : Z;
  vr_total_time_ms : Z;
  vr_tokens_per_second : Z;
}.

Definition zero_vlm_result : rac_vlm_result_t :=
  Build_rac_vlm_result_t 0 0 0 0 0 0 0 0.

Record VLMStreamCallbackContext := {
  v_jvm : option JavaVM;
  v_callback : option token_sink;
  v_onTokenMethod : bool;
  v_accumulated_text : string;
  v_token_count : Z;
  v_is_complete : bool;
  v_has_error : bool;
  v_error_code : rac_result_t;
  v_error_message : string;
  v_final_result : rac_vlm_result_t;
}.

Definition v_add_token (tok : string) (c : VLMStreamCallbackContext) : VLMStreamCallbackContext :=
  Build_VLMStreamCallbackContext (v_jvm c) (v_callback c) (v_onTokenMethod c)
    (v_accumulated_text c ++ tok) (wrap_int (v_token_count c + 1))
    (v_is_complete c) (v_has_error c) (v_error_code c) (v_error_message c)
    (v_final_result c).

Definition vlm_stream_callback_token (token : option string)
    (user_data : option VLMStreamCallbackContext) (st : jni_state)
  : rac_bool_t * option VLMStreamCallbackContext * jni_state :=
  match user_data, token with
  | Some ctx0, Some tok =>
    let ctx := v_add_token tok ctx0 in
    match v_jvm ctx, v_callback ctx, v_onTokenMethod ctx with
    | Some vm, Some cb, true =>
      let env_needsDetach :=
        match get_env vm with
        | JNI_OK => Some (true, false)
        | JNI_EDETACHED => if attach_ok vm then Some (true, true) else None
        | JNI_EVERSION => Some (false, false)
        end in
      match env_needsDetach with
      | None => (RAC_TRUE, Some ctx, st)
      | Some (false, _) => (RAC_TRUE, Some ctx, st)
      | Some (true, needsDetach) =>
        let '(continueGen, hadException) := call_on_token cb tok st in
        let st' := after_call hadException needsDetach st in
        if hadException then (RAC_FALSE, Some ctx, st')
        else if continueGen then (RAC_TRUE, Some ctx, st')
        else (RAC_FALSE, Some ctx, st')
      end
    | _, _, _ => (RAC_TRUE, Some ctx, st)
    end
  | _, _ => (RAC_TRUE, user_data, st)
  end.

(** ** Platform adapter *)

(** The managed adapter object.  A member is [None] when the object's class
    has no method of that name and signature, so that [GetMethodID] yields
    a null id (and leaves a [NoSuchMethodError] pending). *)
Record PlatformAdapter := {
  log : option (Z → string → string → unit);
  fileExists : option (string → bool);
  fileRead : option (string → option string);
  fileWrite : option (string → string → bool);
  fileDelete : option (string → bool);
  secureGet : option (string → option string);
  secureSet : option (string → string → bool);
  secureDelete : option (string → bool);
  nowMs : option Z;
}.

(** The addresses of the nine native callbacks, as [g_c_adapter] holds
    them. *)
Inductive c_callback :=
| addr_jni_log_callback | addr_jni_file_exists_callback | addr_jni_file_read_callback
| addr_jni_file_write_callback | addr_jni_file_delete_callback | addr_jni_secure_get_callback
| addr_jni_secure_set_callback | addr_jni_secure_delete_callback | addr_jni_now_ms_callback.

(** [rac_platform_adapter_t], as far as this file fills it in. *)
Record rac_platform_adapter_t := {
  a_log : option c_callback;
  a_file_exists : option c_callback;
  a_file_read : option c_callback;
  a_file_write : option c_callback;
  a_file_delete : option c_callback;
  a_secure_get : option c_callback;
  a_secure_set : option c_callback;
  a_secure_delete : option c_callback;
  a_now_ms : option c_callback;
}.

Definition zeroed_adapter : rac_platform_adapter_t :=
  Build_rac_platform_adapter_t None None None None None None None None None.

Definition installed_adapter : rac_platform_adapter_t :=
  Build_rac_platform_adapter_t
    (Some addr_jni_log_callback) (Some addr_jni_file_exists_callback)
    (Some addr_jni_file_read_callback) (Some addr_jni_file_write_callback)
    (Some addr_jni_file_delete_callback) (Some addr_jni_secure_get_callback)
    (Some addr_jni_secure_set_callback) (Some addr_jni_secure_delete_callback)
    (Some addr_jni_now_ms_callback).

(** The file's globals.  [global_refs] counts the JNI global references to
    adapter objects that are alive. *)
Record globals := {
  g_platform_adapter : option PlatformAdapter;
  g_method_log : option (Z → string → string → unit);
  g_method_file_exists : option (string → bool);
  g_method_file_read : option (string → option string);
  g_method_file_write : option (string → string → bool);
  g_method_file_delete : option (string → bool);
  g_method_secure_get : option (string → option string);
  g_method_secure_set : option (string → string → bool);
  g_method_secure_delete : option (string → bool);
  g_method_now_ms : option Z;
  g_c_adapter : rac_platform_adapter_t;
  global_refs : nat;
}.

(** The state at library load. *)
Definition globals_start : globals :=
  Build_globals None None None None None None None None None None
                zeroed_adapter 0.

(** All nine [GetMethodID] calls gave a method id. *)
Definition all_resolved (a : PlatformAdapter) : bool :=
  bool_decide (is_Some (log a)) && bool_decide (is_Some (fileExists a)) &&
  bool_decide (is_Some (fileRead a)) && bool_decide (is_Some (fileWrite a)) &&
  bool_decide (is_Some (fileDelete a)) && bool_decide (is_Some (secureGet a)) &&
  bool_decide (is_Some (secureSet a)) && bool_decide (is_Some (secureDelete a)) &&
  bool_decide (is_Some (nowMs a)).

(** A failed [GetMethodID] leaves a [NoSuchMethodError] pending in the
    calling thread; the function never looks at it, and it is still
    pending when the function returns. *)
Definition after_lookups (a : PlatformAdapter) (st : jni_state) : jni_state :=
  if all_resolved a then st
  else Build_jni_state true (exception_described st) (detached st).

Definition racSetPlatformAdapter (adapter : option PlatformAdapter) (g : globals)
    (st : jni_state) : rac_result_t * globals * jni_state :=
  (* Clean up previous adapter *)
  let refs := match g_platform_adapter g with
              | Some _ => pred (global_refs g)
              | None => global_refs g
              end in
  match adapter with
  | None =>
    (RAC_ERROR_INVALID_ARGUMENT,
     Build_globals None (g_method_log g) (g_method_file_exists g)
       (g_method_file_read g) (g_method_file_write g) (g_method_file_delete g)
       (g_method_secure_get g) (g_method_secure_set g) (g_method_secure_delete g)
       (g_method_now_ms g) (g_c_adapter g) refs,
     st)
  | Some a =>
    (RAC_SUCCESS,
     Build_globals (Some a) (log a) (fileExists a) (fileRead a) (fileWrite a)
       (fileDelete a) (secureGet a) (secureSet a) (secureDelete a) (nowMs a)
       installed_adapter (S refs),
     after_lookups a st)
  end.

(** The native callbacks.  [env] tells whether [getJNIEnv()] gave an
    environment. *)

Inductive log_sink := ManagedLog (level : Z) (tag message : string)
                    | NativeLog (tag message : string).

Definition jni_log_callback (g : globals) (env : bool) (level : Z) (tag message : option string)
  : log_sink :=
  match env, g_platform_adapter g, g_method_log g with
  | true, Some _, Some _ =>
    ManagedLog level (default "RAC" tag) (default "" message)
  | _, _, _ => NativeLog (default "RAC" tag) (default "" message)
  end.

Definition jni_file_exists_callback (g : globals) (env : bool) (path : option string)
  : rac_bool_t :=
  match env, g_platform_adapter g, g_method_file_exists g with
  | true, Some _, Some m => if m (default "" path) then RAC_TRUE else RAC_FALSE
  | _, _, _ => RAC_FALSE
  end.

(** The result code and the bytes handed out. *)
Definition jni_file_read_callback (g : globals) (env : bool) (path : option string)
  : rac_result_t * option string :=
  match env, g_platform_adapter g, g_method_file_read g with
  | true, Some _, Some m =>
    match m (default "" path) with
    | None => (RAC_ERROR_FILE_NOT_FOUND, None)
    | Some data => (RAC_SUCCESS, Some data)
    end
  | _, _, _ => (RAC_ERROR_ADAPTER_NOT_SET, None)
  end.

Definition jni_file_write_callback (g : globals) (env : bool) (path : option string) (data : string)
  : rac_result_t :=
  match env, g_platform_adapter g, g_method_file_write g with
  | true, Some _, Some m =>
    if m (default "" path) data then RAC_SUCCESS else RAC_ERROR_FILE_WRITE_FAILED
  | _, _, _ => RAC_ERROR_ADAPTER_NOT_SET
  end.

Definition jni_file_delete_callback (g : globals) (env : bool) (path : option string)
  : rac_result_t :=
  match env, g_platform_adapter g, g_method_file_delete g with
  | true, Some _, Some m =>
    if m (default "" path) then RAC_SUCCESS else RAC_ERROR_FILE_WRITE_FAILED
  | _, _, _ => RAC_ERROR_ADAPTER_NOT_SET
  end.

Definition jni_secure_get_callback (g : globals) (env : bool) (key : option string)
  : rac_result_t * option string :=
  match env, g_platform_adapter g, g_method_secure_get g with
  | true, Some _, Some m =>
    match m (default "" key) with
    | None => (RAC_ERROR_NOT_FOUND, None)
    | Some value => (RAC_SUCCESS, Some value)
    end
  | _, _, _ => (RAC_ERROR_ADAPTER_NOT_SET, None)
  end.

Definition jni_secure_set_callback (g : globals) (env : bool) (key value : option string)
  : rac_result_t :=
  match env, g_platform_adapter g, g_method_secure_set g with
  | true, Some _, Some m =>
    if m (default "" key) (default "" value) then RAC_SUCCESS else RAC_ERROR_STORAGE_ERROR
  | _, _, _ => RAC_ERROR_ADAPTER_NOT_SET
  end.

Definition jni_secure_delete_callback (g : globals) (env : bool) (key : option string)
  : rac_result_t :=
  match env, g_platform_adapter g, g_method_secure_delete g with
  | true, Some _, Some m =>
    if m (default "" key) then RAC_SUCCESS else RAC_ERROR_STORAGE_ERROR
  | _, _, _ => RAC_ERROR_ADAPTER_NOT_SET
  end.

(** [system_time] is [time(nullptr)], in seconds. *)
Definition jni_now_ms_callback (g : globals) (env : bool) (system_time : Z) : Z :=
  match env, g_platform_adapter g, g_method_now_ms g with
  | true, Some _, Some t => t
  | _, _, _ => system_time * 1000
  end.

(** ** JSON documents (nlohmann::json) *)

Inductive json :=
| JNull
| JBool (b : bool)
| JInt (z : Z)
| JFloat (bits : Z)
| JString (s : string)
| JArray (l : list json)
| JObject (fields : list (string * json)).

(** An object keeps its members in key order, as [std::map] does. *)
Fixpoint obj_set (k : string) (v : json) (fs : list (string * json))
  : list (string * json) :=
  match fs with
  | [] => [(k, v)]
  | (k', v') :: rest =>
    if String.eqb k k' then (k, v) :: rest
    else if String.ltb k k' then (k, v) :: (k', v') :: rest
    else (k', v') :: obj_set k v rest
  end.

Fixpoint obj_get (k : string) (fs : list (string * json)) : option json :=
  match fs with
  | [] => None
  | (k', v') :: rest => if String.eqb k k' then Some v' else obj_get k rest
  end.

(** [j[k] = v]: a null document becomes an object. *)
Definition json_set (k : string) (v : json) (j : json) : json :=
  match j with
  | JNull => JObject [(k, v)]
  | JObject fs => JObject (obj_set k v fs)
  | _ => j
  end.

Definition json_get (k : string) (j : json) : option json :=
  match j with
  | JObject fs => obj_get k fs
  | _ => None
  end.

(** Modelled from the spec: the model entry ([rac_model_info_t] of
    rac_model_types.h, not among these sources), with the members
    [modelInfoToJson] reads; the enums are carried as their integers. *)
Record rac_model_info_t := {
  mi_id : option string;
  mi_name : option string;
  mi_category : Z;
  mi_format : Z;
  mi_framework : Z;
  mi_download_url : option string;
  mi_local_path : option string;
  mi_download_size : Z;
  mi_context_length : Z;
  mi_supports_thinking : rac_bool_t;
  mi_supports_lora : rac_bool_t;
  mi_description : option string;
}.

Definition to_bool (b : rac_bool_t) : bool :=
  match b with RAC_TRUE => true | RAC_FALSE => false end.

(** [p ? nlohmann::json(p) : nlohmann::json(nullptr)] *)
Definition json_nullable (p : option string) : json :=
  match p with Some s => JString s | None => JNull end.

(** The document whose [dump()] [modelInfoToJson] returns; for a null
    model it returns the text [null]. *)
Definition modelInfoToJson (model : option rac_model_info_t) : json :=
  match model with
  | None => JNull
  | Some m =>
    let j := JNull in
    let j := json_set "model_id" (JString (default "" (mi_id m))) j in
    let j := json_set "name" (JString (default "" (mi_name m))) j in
    let j := json_set "category" (JInt (mi_category m)) j in
    let j := json_set "format" (JInt (mi_format m)) j in
    let j := json_set "framework" (JInt (mi_framework m)) j in
    let j := json_set "download_url" (json_nullable (mi_download_url m)) j in
    let j := json_set "local_path" (json_nullable (mi_local_path m)) j in
    let j := json_set "download_size" (JInt (mi_download_size m)) j in
    let j := json_set "context_length" (JInt (mi_context_length m)) j in
    let j := json_set "supports_thinking" (JBool (to_bool (mi_supports_thinking m))) j in
    let j := json_set "supports_lora" (JBool (to_bool (mi_supports_lora m))) j in
    let j := json_set "description" (json_nullable (mi_description m)) j in
    j
  end.

(** [loraEntryToJson], on the value of the entry it is given. *)
Definition loraEntryToJson (entry : option lora_view) : json :=
  match entry with
  | None => JNull
  | Some e =>
    let j := JNull in
    let j := json_set "id" (JString (default "" (v_id e))) j in
    let j := json_set "name" (JString (default "" (v_name e))) j in
    let j := json_set "description" (JString (default "" (v_description e))) j in
    let j := json_set "download_url" (JString (default "" (v_download_url e))) j in
    let j := json_set "filename" (JString (default "" (v_filename e))) j in
    let j := json_set "file_size" (JInt (v_file_size e)) j in
    let j := json_set "default_scale" (JFloat (v_default_scale e)) j in
    let ids := JArray (JString <$> omap (λ p, p) (v_models e)) in
    let j := json_set "compatible_model_ids" ids j in
    j
  end.

(** The object [racModelAssignmentFetch] builds for one model ([obj], in
    the body of its loop). *)
Definition assignment_obj (m : rac_model_info_t) : json :=
  let obj := JNull in
  let obj := json_set "id" (JString (default "" (mi_id m))) obj in
  let obj := json_set "name" (JString (default "" (mi_name m))) obj in
  let obj := json_set "category" (JInt (mi_category m)) obj in
  let obj := json_set "format" (JInt (mi_format m)) obj in
  let obj := json_set "framework" (JInt (mi_framework m)) obj in
  let obj := json_set "downloadUrl" (JString (default "" (mi_download_url m))) obj in
  let obj := json_set "downloadSize" (JInt (mi_download_size m)) obj in
  let obj := json_set "contextLength" (JInt (mi_context_length m)) obj in
  let obj := json_set "supportsThinking"
               (JBool (bool_decide (mi_supports_thinking m = RAC_TRUE))) obj in
  obj.

(** [racModelAssignmentFetch] from the return of
    [rac_model_assignment_fetch] on: the document whose dump it returns;
    [result] is what that call returned and [models] the entries it
    handed out.  On failure the text returned is that of the empty
    array. *)
Definition racModelAssignmentFetch (result : rac_result_t)
    (models : list rac_model_info_t) : json :=
  if decide (result = RAC_SUCCESS) then JArray (assignment_obj <$> models)
  else JArray [].

(** ** Waiting for the end of a stream *)

(** What the engine does while the entry point waits: callbacks, each at
    a time in milliseconds counted from the start of the wait. *)
Inductive engine_event :=
| OnToken (token : option string)
| OnComplete (result : option rac_llm_result_t)
| OnError (code : rac_result_t) (message : option string).

(** [kStreamWaitTimeout = std::chrono::minutes(10)], in milliseconds. *)
Definition kStreamWaitTimeout : N := 10 * 60 * 1000.

(** [cv.wait_for(lock, timeout, pred)] (the C++ library's): it returns
    [true] as soon as [pred] holds, and [false] when the timeout passes
    first.  The third component is the time spent waiting. *)
Fixpoint wait_for {C} (timeout : N) (pred : C → bool) (step : engine_event → C → C)
    (evs : list (N * engine_event)) (ctx : C) (now : N) : bool * C * N :=
  if pred ctx then (true, ctx, now)
  else match evs with
       | [] => (false, ctx, timeout)
       | (t, ev) :: rest =>
         if (N.max now t <=? timeout)%N
         then wait_for timeout pred step rest (step ev ctx) (N.max now t)
         else (false, ctx, timeout)
       end.

(** The context of [racLlmComponentGenerateStream]. *)
Record LLMStreamContext := {
  s_accumulated_text : string;
  s_token_count : Z;
  s_is_complete : bool;
  s_has_error : bool;
  s_error_code : rac_result_t;
  s_error_message : string;
  s_final_result : rac_llm_result_t;
}.

Definition llm_stream_token_callback (token : option string) (ctx : LLMStreamContext)
  : rac_bool_t * LLMStreamContext :=
  match token with
  | None => (RAC_TRUE, ctx)
  | Some tok =>
    (RAC_TRUE,
     Build_LLMStreamContext (s_accumulated_text ctx ++ tok)
       (wrap_int (s_token_count ctx + 1))
       (s_is_complete ctx) (s_has_error ctx) (s_error_code ctx) (s_error_message ctx)
       (s_final_result ctx))
  end.

(** The metrics both completion callbacks store. *)
Definition completed_result (result : option rac_llm_result_t) (count : Z)
    (old : rac_llm_result_t) : rac_llm_result_t :=
  match result with
  | Some r =>
    Build_rac_llm_result_t
      (if (0 <? completion_tokens r)%Z then completion_tokens r else count)
      (prompt_tokens r) (total_tokens r) (total_time_ms r) (tokens_per_second r)
  | None =>
    Build_rac_llm_result_t count (prompt_tokens old) (total_tokens old)
      (total_time_ms old) (tokens_per_second old)
  end.

Definition llm_stream_complete_callback (result : option rac_llm_result_t)
    (ctx : LLMStreamContext) : LLMStreamContext :=
  Build_LLMStreamContext (s_accumulated_text ctx) (s_token_count ctx)
    true (s_has_error ctx) (s_error_code ctx) (s_error_message ctx)
    (completed_result result (s_token_count ctx) (s_final_result ctx)).

Definition llm_stream_error_callback (code : rac_result_t) (message : option string)
    (ctx : LLMStreamContext) : LLMStreamContext :=
  Build_LLMStreamContext (s_accumulated_text ctx) (s_token_count ctx)
    true true code (default "Unknown error" message) (s_final_result ctx).

Definition llm_stream_step (ev : engine_event) (ctx : LLMStreamContext) : LLMStreamContext :=
  match ev with
  | OnToken tok => (llm_stream_token_callback tok ctx).2
  | OnComplete r => llm_stream_complete_callback r ctx
  | OnError code msg => llm_stream_error_callback code msg ctx
  end.

Definition llm_stream_callback_complete (result : option rac_llm_result_t)
    (ctx : LLMStreamCallbackContext) : LLMStreamCallbackContext :=
  Build_LLMStreamCallbackContext (jvm ctx) (callback ctx) (onTokenMethod ctx)
    (onTokenExpectsBytes ctx) (accumulated_text ctx) (token_count ctx)
    true (has_error ctx) (error_code ctx) (error_message ctx)
    (completed_result result (token_count ctx) (final_result ctx)).

Definition llm_stream_callback_error (code : rac_result_t) (message : option string)
    (ctx : LLMStreamCallbackContext) : LLMStreamCallbackContext :=
  Build_LLMStreamCallbackContext (jvm ctx) (callback ctx) (onTokenMethod ctx)
    (onTokenExpectsBytes ctx) (accumulated_text ctx) (token_count ctx)
    true true code (default "Unknown error" message) (final_result ctx).

Definition llm_stream_callback_step (ev : engine_event) (ctx : LLMStreamCallbackContext)
  : LLMStreamCallbackContext :=
  match ev with
  | OnToken tok =>
    match (llm_stream_callback_token tok (Some ctx) jni_start).1.2 with
    | Some ctx' => ctx'
    | None => ctx
    end
  | OnComplete r => llm_stream_callback_complete r ctx
  | OnError code msg => llm_stream_callback_error code msg ctx
  end.

Definition timeout_message : string :=
  "Streaming timed out waiting for completion callback".

(** The result document of the two LLM streaming entry points. *)
Definition llm_result_json (text : string) (r : rac_llm_result_t) : json :=
  let j := JNull in
  let j := json_set "text" (JString text) j in
  let j := json_set "tokens_generated" (JInt (completion_tokens r)) j in
  let j := json_set "tokens_evaluated" (JInt (prompt_tokens r)) j in
  let j := json_set "stop_reason" (JInt 0) j in
  let j := json_set "total_time_ms" (JInt (total_time_ms r)) j in
  let j := json_set "tokens_per_second" (JFloat (tokens_per_second r)) j in
  j.

(** What an entry point builds: the document [json_obj] ([None] on the
    paths that return the null [jstring]), its context at that point, and
    the time it waited.  The dump of the document, which can throw, is
    [handed_back] below. *)

(** [racLlmComponentGenerateStream] from the return of
    [rac_llm_component_generate_stream] on; [status] is what that call
    returned, [ctx] the context then, and [evs] what the engine does from
    then on.  On a failing status the entry point also throws a
    [RuntimeException] into the virtual machine before it returns null;
    the pending exception is not part of this result. *)
Definition racLlmComponentGenerateStream (status : rac_result_t) (ctx : LLMStreamContext)
    (evs : list (N * engine_event)) : option json * LLMStreamContext * N :=
  if decide (status = RAC_SUCCESS) then
    let '(done, ctx, waited) :=
      wait_for kStreamWaitTimeout s_is_complete llm_stream_step evs ctx 0 in
    let ctx :=
      if done then ctx
      else Build_LLMStreamContext (s_accumulated_text ctx) (s_token_count ctx)
             true true (s_error_code ctx) timeout_message (s_final_result ctx) in
    if s_has_error ctx then (None, ctx, waited)
    else (Some (llm_result_json (s_accumulated_text ctx) (s_final_result ctx)), ctx, waited)
  else (None, ctx, 0%N).

Definition racLlmComponentGenerateStreamWithCallback (status : rac_result_t)
    (ctx : LLMStreamCallbackContext) (evs : list (N * engine_event))
  : option json * LLMStreamCallbackContext * N :=
  if decide (status = RAC_SUCCESS) then
    let '(done, ctx, waited) :=
      wait_for kStreamWaitTimeout is_complete llm_stream_callback_step evs ctx 0 in
    let ctx :=
      if done then ctx
      else Build_LLMStreamCallbackContext (jvm ctx) (callback ctx) (onTokenMethod ctx)
             (onTokenExpectsBytes ctx) (accumulated_text ctx) (token_count ctx)
             true true (error_code ctx) timeout_message (final_result ctx) in
    if has_error ctx then (None, ctx, waited)
    else (Some (llm_result_json (accumulated_text ctx) (final_result ctx)), ctx, waited)
  else (None, ctx, 0%N).

Definition buildVlmResultJson (text : string) (r : rac_vlm_result_t) : json :=
  let j := JNull in
  let j := json_set "text" (JString text) j in
  let j := json_set "prompt_tokens" (JInt (vr_prompt_tokens r)) j in
  let j := json_set "image_tokens" (JInt (vr_image_tokens r)) j in
  let j := json_set "completion_tokens" (JInt (vr_completion_tokens r)) j in
  let j := json_set "total_tokens" (JInt (vr_total_tokens r)) j in
  let j := json_set "time_to_first_token_ms" (JInt (vr_time_to_first_token_ms r)) j in
  let j := json_set "image_encode_time_ms" (JInt (vr_image_encode_time_ms r)) j in
  let j := json_set "total_time_ms" (JInt (vr_total_time_ms r)) j in
  let j := json_set "tokens_per_second" (JFloat (vr_tokens_per_second r)) j in
  j.

(** [racVlmComponentProcessStream] from the return of
    [rac_vlm_component_process_stream] on; [status] is what that call
    returned and [ctx] the context then.  The function does not wait. *)
Definition racVlmComponentProcessStream (status : rac_result_t)
    (ctx : VLMStreamCallbackContext) : option json :=
  if decide (status = RAC_SUCCESS) then
    if v_has_error ctx then None
    else Some (buildVlmResultJson (v_accumulated_text ctx) (v_final_result ctx))
  else None.

(** Neither [on_complete] nor [on_error] fires within the bound. *)
Definition no_completion_within (bound : N) (evs : list (N * engine_event)) : Prop :=
  ∀ t ev, (t, ev) ∈ evs → (t ≤ bound)%N → ∃ tok, ev = OnToken tok.

(** ** Tool calls *)

(** Modelled from the spec: the parse result ([rac_tool_call_t] of
    rac_tool_calling.h, not among these sources), as [rac_tool_call_parse]
    fills it in. *)
Record rac_tool_call_t := {
  has_tool_call : rac_bool_t;
  clean_text : option string;
  tool_name : option string;
  arguments_json : option string;
  call_id : Z;
}.

(** The characters the code names by escapes. *)
Definition dquote : ascii := "034"%char.
Definition backslash : ascii := "092"%char.
Definition newline : ascii := "010"%char.
Definition carriage : ascii := "013"%char.
Definition tab : ascii := "009"%char.

Definition str (c : ascii) : string := String c EmptyString.

(** The [switch] that escapes [clean_text]. *)
Definition escape_char (c : ascii) : string :=
  if decide (c = dquote) then str backslash ++ str dquote
  else if decide (c = backslash) then str backslash ++ str backslash
  else if decide (c = newline) then str backslash ++ "n"
  else if decide (c = carriage) then str backslash ++ "r"
  else if decide (c = tab) then str backslash ++ "t"
  else str c.

Fixpoint escape_text (s : string) : string :=
  match s with
  | EmptyString => ""
  | String c rest => escape_char c ++ escape_text rest
  end.

(** [std::string::find_first_not_of]; [None] is [npos]. *)
Fixpoint find_first_not_of (set : list ascii) (s : string) (pos : nat) : option nat :=
  match s with
  | EmptyString => None
  | String c rest =>
    if bool_decide (c ∈ set) then find_first_not_of set rest (S pos) else Some pos
  end.

Definition blanks : list ascii := [" "%char; tab; newline; carriage].

(** What is appended after the [argumentsJson] key. *)
Definition arguments_text (arguments : option string) : string :=
  match arguments with
  | Some args =>
    match find_first_not_of blanks args 0 with
    | Some start =>
      match String.get start args with
      | Some c => if bool_decide (c = "{"%char ∨ c = "["%char) then args else "{}"
      | None => "{}"
      end
    | None => "{}"
    end
  | None => "{}"
  end.

(** The text [racToolCallParse] returns for the parse result [result]. *)
Definition racToolCallParse (result : rac_tool_call_t) : string :=
  let json := "{" in
  let json := json ++ str dquote ++ "hasToolCall" ++ str dquote ++ ":" in
  let json := json ++ (if decide (has_tool_call result = RAC_TRUE) then "true" else "false") in
  let json := json ++ "," ++ str dquote ++ "cleanText" ++ str dquote ++ ":" ++ str dquote in
  let json := json ++ (match clean_text result with
                       | Some t => escape_text t
                       | None => ""
                       end) in
  let json := json ++ str dquote in
  let json :=
    if decide (has_tool_call result = RAC_TRUE) then
      let json := json ++ "," ++ str dquote ++ "toolName" ++ str dquote ++ ":" ++ str dquote in
      let json := json ++ default "" (tool_name result) in
      let json := json ++ str dquote ++ "," ++ str dquote ++ "argumentsJson" ++ str dquote ++ ":" in
      let json := json ++ arguments_text (arguments_json result) in
      let json := json ++ "," ++ str dquote ++ "callId" ++ str dquote ++ ":" in
      json ++ pretty (call_id result)
    else json in
  json ++ "}".

(** The rule as the specification words it: strip the leading whitespace
    and look at the first byte that is left. *)
Definition is_blank (c : ascii) : bool :=
  bool_decide (c = " "%char ∨ c = tab ∨ c = newline ∨ c = carriage).

Fixpoint strip_leading_blanks (s : string) : string :=
  match s with
  | EmptyString => EmptyString
  | String c rest => if is_blank c then strip_leading_blanks rest else s
  end.

Definition spec_arguments_text (arguments : option string) : string :=
  match arguments with
  | Some args =>
    match strip_leading_blanks args with
    | String c _ => if bool_decide (c = "{"%char ∨ c = "["%char) then args else "{}"
    | EmptyString => "{}"
    end
  | None => "{}"
  end.

(** ** Notions and sample inputs of the theorems *)

(** An environment is at hand: the thread is attached, or attaching it
    succeeds. *)
Definition env_available (vm : JavaVM) : Prop :=
  get_env vm = JNI_OK ∨ (get_env vm = JNI_EDETACHED ∧ attach_ok vm = true).

Definition throwing_sink : token_sink := {| onToken := λ _, Throws true |}.

Definition attached_vm : JavaVM := {| get_env := JNI_OK; attach_ok := true |}.

Definition throwing_ctx : LLMStreamCallbackContext :=
  Build_LLMStreamCallbackContext (Some attached_vm) (Some throwing_sink) true true
    "" 0 false false RAC_SUCCESS "" zero_result.

Definition throwing_vctx : VLMStreamCallbackContext :=
  Build_VLMStreamCallbackContext (Some attached_vm) (Some throwing_sink) true
    "" 0 false false RAC_SUCCESS "" zero_vlm_result.

(** An adapter object whose class has every method but [nowMs]. *)
Definition partial_adapter : PlatformAdapter :=
  {| log := Some (λ _ _ _, tt); fileExists := Some (λ _, true);
     fileRead := Some (λ _, Some "data"); fileWrite := Some (λ _ _, true);
     fileDelete := Some (λ _, true); secureGet := Some (λ _, Some "secret");
     secureSet := Some (λ _ _, true); secureDelete := Some (λ _, true);
     nowMs := None |}.

Definition full_adapter : PlatformAdapter :=
  {| log := Some (λ _ _ _, tt); fileExists := Some (λ _, true);
     fileRead := Some (λ _, Some "data"); fileWrite := Some (λ _ _, true);
     fileDelete := Some (λ _, true); secureGet := Some (λ _, Some "secret");
     secureSet := Some (λ _ _, true); secureDelete := Some (λ _, true);
     nowMs := Some 1234%Z |}.

(** The globals once [full_adapter] is installed. *)
Definition globals_installed : globals :=
  (racSetPlatformAdapter (Some full_adapter) globals_start jni_start).1.2.

(** No adapter is installed and every callback takes its fallback path. *)
Definition callbacks_fall_back (g : globals) : Prop :=
  (∀ env level tag message,
     jni_log_callback g env level tag message
       = NativeLog (default "RAC" tag) (default "" message)) ∧
  (∀ env path, jni_file_exists_callback g env path = RAC_FALSE) ∧
  (∀ env path, jni_file_read_callback g env path = (RAC_ERROR_ADAPTER_NOT_SET, None)) ∧
  (∀ env path data, jni_file_write_callback g env path data = RAC_ERROR_ADAPTER_NOT_SET) ∧
  (∀ env path, jni_file_delete_callback g env path = RAC_ERROR_ADAPTER_NOT_SET) ∧
  (∀ env key, jni_secure_get_callback g env key = (RAC_ERROR_ADAPTER_NOT_SET, None)) ∧
  (∀ env key value, jni_secure_set_callback g env key value = RAC_ERROR_ADAPTER_NOT_SET) ∧
  (∀ env key, jni_secure_delete_callback g env key = RAC_ERROR_ADAPTER_NOT_SET) ∧
  (∀ env system_time, jni_now_ms_callback g env system_time = (system_time * 1000)%Z).

(** A LoRA entry with nothing but its id. *)
Definition bare_entry : lora_view :=
  View (Some "l1") None None None None [] 0 0.

(** A model with nothing but its id. *)
Definition bare_model : rac_model_info_t :=
  Build_rac_model_info_t (Some "m1") None 0 0 0 None None 0 0 RAC_FALSE RAC_FALSE None.

(** A VLM context the engine has left without completing it. *)
Definition incomplete_vctx : VLMStreamCallbackContext :=
  Build_VLMStreamCallbackContext None None false "partial" 3 false false
    RAC_SUCCESS "" zero_vlm_result.

(** An engine that emits one token after a second and completes only
    after eleven minutes. *)
Definition late_engine : list (N * engine_event) :=
  [(1000%N, OnToken (Some "a")); (660000%N, OnComplete None)].

Definition fresh_stream_ctx : LLMStreamContext :=
  Build_LLMStreamContext "" 0 false false RAC_SUCCESS "" zero_result.

Definition fresh_callback_ctx : LLMStreamCallbackContext :=
  Build_LLMStreamCallbackContext None None false false "" 0 false false
    RAC_SUCCESS "" zero_result.

(** The document up to and including the [argumentsJson] key. *)
Definition before_arguments (result : rac_tool_call_t) : string :=
  "{" ++ str dquote ++ "hasToolCall" ++ str dquote ++ ":" ++ "true" ++
  "," ++ str dquote ++ "cleanText" ++ str dquote ++ ":" ++ str dquote ++
  (match clean_text result with Some t => escape_text t | None => "" end) ++
  str dquote ++
  "," ++ str dquote ++ "toolName" ++ str dquote ++ ":" ++ str dquote ++
  default "" (tool_name result) ++
  str dquote ++ "," ++ str dquote ++ "argumentsJson" ++ str dquote ++ ":".

(** The document after the arguments. *)
Definition after_arguments (result : rac_tool_call_t) : string :=
  "," ++ str dquote ++ "callId" ++ str dquote ++ ":" ++ pretty (call_id result) ++ "}".

Definition demo_call : rac_tool_call_t :=
  Build_rac_tool_call_t RAC_TRUE (Some "ok") (Some "get_weather") (Some "  [1]") 7.

Definition demo_bad_call : rac_tool_call_t :=
  Build_rac_tool_call_t RAC_TRUE None (Some "get_weather") (Some " x{}") 8.

(** ** Reading escaped text back *)

(** The character an escape stands for. *)
Definition unescape_char (d : ascii) : ascii :=
  if decide (d = "n"%char) then newline
  else if decide (d = "r"%char) then carriage
  else if decide (d = "t"%char) then tab
  else d.

(** The reader of what [escape_text] writes: a backslash and the character
    after it stand for one character. *)
Fixpoint unescape_text (s : string) : string :=
  match s with
  | EmptyString => EmptyString
  | String c rest =>
    if decide (c = backslash) then
      match rest with
      | String d rest' => String (unescape_char d) (unescape_text rest')
      | EmptyString => EmptyString
      end
    else String c (unescape_text rest)
  end.

(** A reader of a quoted JSON string stops before the end of [s]: at a
    quote that no backslash precedes, or at a backslash with nothing after
    it. *)
Fixpoint closes_early (s : string) : bool :=
  match s with
  | EmptyString => false
  | String c rest =>
    if decide (c = backslash) then
      match rest with
      | String _ rest' => closes_early rest'
      | EmptyString => true
      end
    else if decide (c = dquote) then true
    else closes_early rest
  end.

(** ** What a stream adds up to *)

(** The tokens of a stream put together; a null token adds nothing. *)
Definition concat_tokens (toks : list (option string)) : string :=
  foldr (λ t acc, default "" t ++ acc) "" toks.

(** The number of tokens that are not null. *)
Definition count_tokens (toks : list (option string)) : Z :=
  Z.of_nat (length (omap (λ t, t) toks)).

(** The engine's calls of the token callback, each at its time. *)
Definition token_events (toks : list (N * option string)) : list (N * engine_event) :=
  (λ x, (x.1, OnToken x.2)) <$> toks.

(** The values of an [int]. *)
Definition is_int (z : Z) : Prop := (-2147483648 ≤ z < 2147483648)%Z.

(** The last step of the entry points that return a document:
    [json_obj.dump()] handed to [NewStringUTF].  [dump] stands for the
    document built in memory and [nlohmann::json::dump]: it gives the
    text, or an exception leaves ([type_error] for a string that is not
    valid UTF-8, [bad_alloc] without memory); nothing catches the
    exception.  [None] is the null [jstring] of the paths that build no
    document. *)
Definition handed_back (dump : json → cxx_outcome string) (doc : option json)
  : cxx_outcome (option string) :=
  match doc with
  | None => Return None
  | Some json_obj =>
    match dump json_obj with
    | Return text => Return (Some text)
    | Throw e => Throw e
    end
  end.

(** A stream of two tokens around a null one. *)
Definition demo_tokens : list (N * option string) :=
  [(1000%N, Some "Hel"); (2000%N, None); (3000%N, Some "lo")].

(** ** Library load and unload, and [racInit] *)

(** The globals together with [g_jvm]. *)
Record process := {
  p_globals : globals;
  g_jvm : option JavaVM;
}.

(** [JNI_VERSION_1_6] *)
Definition JNI_VERSION_1_6 : Z := 65542.

Definition JNI_OnLoad (vm : JavaVM) (p : process) : Z * process :=
  (JNI_VERSION_1_6, {| p_globals := p_globals p; g_jvm := Some vm |}).

Definition JNI_OnUnload (vm : JavaVM) (p : process) : process :=
  let g := p_globals p in
  let g' :=
    match g_platform_adapter g with
    | Some _ =>
      Build_globals None (g_method_log g) (g_method_file_exists g)
        (g_method_file_read g) (g_method_file_write g) (g_method_file_delete g)
        (g_method_secure_get g) (g_method_secure_set g) (g_method_secure_delete g)
        (g_method_now_ms g) (g_c_adapter g)
        (match get_env vm with
         | JNI_OK => pred (global_refs g)
         | _ => global_refs g
         end)
    | None => g
    end in
  {| p_globals := g'; g_jvm := None |}.

(** [getJNIEnv()]: whether it gives an environment. *)
Definition getJNIEnv (p : process) : bool :=
  match g_jvm p with
  | None => false
  | Some vm =>
    match get_env vm with
    | JNI_OK => true
    | JNI_EDETACHED => attach_ok vm
    | JNI_EVERSION => false
    end
  end.

(** [racInit]; [rac_init] is the engine's initialisation, which is handed
    the address of [g_c_adapter]. *)
Definition racInit (rac_init : rac_platform_adapter_t → rac_result_t) (g : globals)
  : rac_result_t :=
  match g_platform_adapter g with
  | None => RAC_ERROR_ADAPTER_NOT_SET
  | Some _ => rac_init (g_c_adapter g)
  end.

(** One global reference is alive for an installed adapter, and none
    otherwise. *)
Definition refs_balanced (g : globals) : Prop :=
  global_refs g = match g_platform_adapter g with Some _ => 1 | None => 0 end.

(** ** Device manager callbacks *)

(** [CallXMethod] followed by [ExceptionCheck]: the value handed back and
    whether an exception is pending. *)
Definition call_java {A} (r : java_result A) (st : jni_state) : A * bool :=
  match r with
  | Returns a => (a, exception_pending st)
  | Throws junk => (junk, true)
  end.

(** The managed device callbacks: for each of the five methods, what
    [GetMethodID] finds and what a call of it does. *)
Record DeviceCallbacks := {
  getDeviceInfo : option (java_result (option string));
  getDeviceId : option (java_result (option string));
  isRegistered : option (java_result bool);
  setRegistered : option (bool → java_result unit);
  httpPost : option (string → string → bool → java_result Z);
}.

(** [g_device_jni_state] with [g_cached_device_id]; [device_refs] counts
    the JNI global references to callback objects that are alive. *)
Record device_jni_state := {
  callback_obj : option DeviceCallbacks;
  get_device_info_method : option (java_result (option string));
  get_device_id_method : option (java_result (option string));
  is_registered_method : option (java_result bool);
  set_registered_method : option (bool → java_result unit);
  http_post_method : option (string → string → bool → java_result Z);
  g_cached_device_id : string;
  device_refs : nat;
}.

Definition device_start : device_jni_state :=
  Build_device_jni_state None None None None None None "" 0.

Definition device_resolved (cb : DeviceCallbacks) : bool :=
  bool_decide (is_Some (getDeviceInfo cb)) && bool_decide (is_Some (getDeviceId cb)) &&
  bool_decide (is_Some (isRegistered cb)) && bool_decide (is_Some (setRegistered cb)) &&
  bool_decide (is_Some (httpPost cb)).

(** [racDeviceManagerSetCallbacks]; [rac_device_manager_set_callbacks] is
    what the engine answers when it is handed the five native callbacks. *)
Definition racDeviceManagerSetCallbacks (callbacks : option DeviceCallbacks)
    (rac_device_manager_set_callbacks : rac_result_t)
    (s : device_jni_state) (st : jni_state)
  : rac_result_t * device_jni_state * jni_state :=
  (* Clean up previous callback *)
  let refs := match callback_obj s with
              | Some _ => pred (device_refs s)
              | None => device_refs s
              end in
  match callbacks with
  | None =>
    (RAC_ERROR_INVALID_ARGUMENT,
     Build_device_jni_state None (get_device_info_method s) (get_device_id_method s)
       (is_registered_method s) (set_registered_method s) (http_post_method s)
       (g_cached_device_id s) refs,
     st)
  | Some cb =>
    let st' := if device_resolved cb then st
               else Build_jni_state true (exception_described st) (detached st) in
    match getDeviceId cb, isRegistered cb with
    | Some _, Some _ =>
      (rac_device_manager_set_callbacks,
       Build_device_jni_state (Some cb) (getDeviceInfo cb) (getDeviceId cb)
         (isRegistered cb) (setRegistered cb) (httpPost cb)
         (g_cached_device_id s) (S refs),
       st')
    | _, _ =>
      (RAC_ERROR_INVALID_ARGUMENT,
       Build_device_jni_state None (getDeviceInfo cb) (getDeviceId cb)
         (isRegistered cb) (setRegistered cb) (httpPost cb)
         (g_cached_device_id s) (pred (S refs)),
       st')
    end
  end.

(** [jni_device_get_id]: the string returned, the state (the cached id),
    and the JNI state.  [env] tells whether [getJNIEnv()] gave an
    environment; [GetStringUTFChars] is taken to give the characters. *)
Definition jni_device_get_id (s : device_jni_state) (env : bool) (st : jni_state)
  : string * device_jni_state * jni_state :=
  match env, callback_obj s, get_device_id_method s with
  | true, Some _, Some m =>
    let '(jResult, pending) := call_java m st in
    if pending then ("", s, after_call true false st)
    else
      match jResult with
      | Some id =>
        (id,
         Build_device_jni_state (callback_obj s) (get_device_info_method s)
           (get_device_id_method s) (is_registered_method s) (set_registered_method s)
           (http_post_method s) id (device_refs s),
         st)
      | None => ("", s, st)
      end
  | _, _, _ => ("", s, st)
  end.

Definition jni_device_is_registered (s : device_jni_state) (env : bool) (st : jni_state)
  : rac_bool_t * jni_state :=
  match env, callback_obj s, is_registered_method s with
  | true, Some _, Some m =>
    let '(result, pending) := call_java m st in
    if pending then (RAC_FALSE, after_call true false st)
    else (if result then RAC_TRUE else RAC_FALSE, st)
  | _, _, _ => (RAC_FALSE, st)
  end.

(** [jni_device_set_registered]: the argument [setRegistered] was called
    with, if it was called, and the JNI state. *)
Definition jni_device_set_registered (registered : rac_bool_t) (s : device_jni_state)
    (env : bool) (st : jni_state) : option bool * jni_state :=
  match env, callback_obj s, set_registered_method s with
  | true, Some _, Some m =>
    let arg := bool_decide (registered = RAC_TRUE) in
    let '(_, pending) := call_java (m arg) st in
    (Some arg, if pending then after_call true false st else st)
  | _, _, _ => (None, st)
  end.

(** One global reference is alive for an installed callback object, and
    none otherwise. *)
Definition device_balanced (s : device_jni_state) : Prop :=
  device_refs s = match callback_obj s with Some _ => 1 | None => 0 end.

(** No managed code is reached: the callbacks give their defaults. *)
Definition device_callbacks_off (s : device_jni_state) : Prop :=
  ∀ env st b,
    jni_device_get_id s env st = ("", s, st) ∧
    jni_device_is_registered s env st = (RAC_FALSE, st) ∧
    jni_device_set_registered b s env st = (None, st).

Definition demo_device : DeviceCallbacks :=
  {| getDeviceInfo := None;
     getDeviceId := Some (Returns (Some "device-1"));
     isRegistered := Some (Throws true);
     setRegistered := None;
     httpPost := None |}.

Definition demo_device_state : device_jni_state :=
  (racDeviceManagerSetCallbacks (Some demo_device) RAC_SUCCESS device_start jni_start).1.2.

(** ** Model assignment callbacks *)

(** Modelled from the spec: two further result codes of rac_error.h (the
    header is not among these sources), which the assignment callback
    returns beside those of [rac_result_t]. *)
Inductive rac_assignment_error_t :=
| RAC_ERROR_INVALID_STATE
| RAC_ERROR_HTTP_REQUEST_FAILED.

(** Modelled from the spec: the response record the engine hands to the
    HTTP callback ([rac_assignment_http_response_t], declared outside
    these sources), with the members the callback writes. *)
Record rac_assignment_http_response_t := {
  r_result : rac_result_t + rac_assignment_error_t;
  r_status_code : Z;
  r_response_body : option string;
  r_response_length : nat;
  r_error_message : option string;
}.

Definition set_result (r : rac_result_t + rac_assignment_error_t)
    (o : rac_assignment_http_response_t) : rac_assignment_http_response_t :=
  Build_rac_assignment_http_response_t r (r_status_code o) (r_response_body o)
    (r_response_length o) (r_error_message o).

(** The managed callback object: what [GetMethodID] finds for [httpGet]
    and what a call of it does. *)
Record AssignmentCallback := {
  httpGet : option (string → bool → java_result (option string));
}.

(** [g_model_assignment_state]; [assignment_refs] counts the JNI global
    references to callback objects that are alive. *)
Record model_assignment_state := {
  ma_jvm : option JavaVM;
  ma_callback_obj : option AssignmentCallback;
  ma_http_get_method : option (string → bool → java_result (option string));
  ma_callbacks_registered : bool;
  assignment_refs : nat;
}.

Definition assignment_start : model_assignment_state :=
  Build_model_assignment_state None None None false 0.

(** [racModelAssignmentSetCallbacks]; [vm] is what [GetJavaVM] gives, and
    [rac_model_assignment_set_callbacks] is what the engine answers for
    the given [auto_fetch]. *)
Definition racModelAssignmentSetCallbacks (callback : option AssignmentCallback)
    (autoFetch : bool) (vm : JavaVM)
    (rac_model_assignment_set_callbacks : rac_bool_t → rac_result_t)
    (s : model_assignment_state) (st : jni_state)
  : rac_result_t * model_assignment_state * jni_state :=
  (* Clear previous callback if any *)
  let refs :=
    match ma_callback_obj s with
    | Some _ =>
      match ma_jvm s with
      | Some vm0 =>
        match get_env vm0 with
        | JNI_OK => pred (assignment_refs s)
        | _ => assignment_refs s
        end
      | None => assignment_refs s
      end
    | None => assignment_refs s
    end in
  match callback with
  | None =>
    (RAC_SUCCESS,
     Build_model_assignment_state (ma_jvm s) None (ma_http_get_method s) false refs,
     st)
  | Some cb =>
    match httpGet cb with
    | None =>
      (RAC_ERROR_INVALID_ARGUMENT,
       Build_model_assignment_state (Some vm) None None (ma_callbacks_registered s)
         (pred (S refs)),
       Build_jni_state true (exception_described st) (detached st))
    | Some m =>
      let result :=
        rac_model_assignment_set_callbacks (if autoFetch then RAC_TRUE else RAC_FALSE) in
      if decide (result = RAC_SUCCESS)
      then (result, Build_model_assignment_state (Some vm) (Some cb) (Some m) true (S refs), st)
      else (result,
            Build_model_assignment_state (Some vm) None (Some m)
              (ma_callbacks_registered s) (pred (S refs)),
            st)
    end
  end.

(** [response_str + 6] *)
Fixpoint skip (n : nat) (s : string) : string :=
  match n, s with
  | S n', String _ s' => skip n' s'
  | _, _ => s
  end.

(** [model_assignment_http_get_callback].  [chars_ok] and [strdup_ok]
    tell whether [GetStringUTFChars] and the C library's [strdup] give a
    string or null; the result is the code returned, [*out_response], the
    arguments [httpGet] was called with, and the JNI state.  [NewStringUTF]
    is taken to give a string.  There is no result where the function
    dereferences a null environment or calls a null method id. *)
Definition model_assignment_http_get_callback (s : model_assignment_state)
    (endpoint : option string) (requires_auth : rac_bool_t)
    (out_response : option rac_assignment_http_response_t)
    (chars_ok strdup_ok : bool) (st : jni_state)
  : option ((rac_result_t + rac_assignment_error_t) *
            option rac_assignment_http_response_t *
            option (string * bool) * jni_state) :=
  let strdup (x : string) := if strdup_ok then Some x else None in
  match ma_jvm s, ma_callback_obj s with
  | Some vm, Some _ =>
    let attach :=
      match get_env vm with
      | JNI_OK => Some (Some false)
      | JNI_EDETACHED => if attach_ok vm then Some (Some true) else Some None
      | JNI_EVERSION => None
      end in
    match attach with
    | None => None
    | Some None =>
      Some (inr RAC_ERROR_INVALID_STATE,
            set_result (inr RAC_ERROR_INVALID_STATE) <$> out_response, None, st)
    | Some (Some did_attach) =>
      match ma_http_get_method s with
      | None => None
      | Some m =>
        let jEndpoint := default "" endpoint in
        let jRequiresAuth := bool_decide (requires_auth = RAC_TRUE) in
        let '(jResponse, pending) := call_java (m jEndpoint jRequiresAuth) st in
        let st' := Build_jni_state (if pending then false else exception_pending st)
                     (exception_described st)
                     (if did_attach then true else detached st) in
        if pending
        then Some (inr RAC_ERROR_HTTP_REQUEST_FAILED,
                   set_result (inr RAC_ERROR_HTTP_REQUEST_FAILED) <$> out_response,
                   Some (jEndpoint, jRequiresAuth), st')
        else
          match jResponse with
          | Some response =>
            match (if chars_ok then Some response else None), out_response with
            | Some response_str, Some o =>
              if String.prefix "ERROR:" response_str
              then Some (inr RAC_ERROR_HTTP_REQUEST_FAILED,
                         Some (Build_rac_assignment_http_response_t
                                 (inr RAC_ERROR_HTTP_REQUEST_FAILED) (r_status_code o)
                                 (r_response_body o) (r_response_length o)
                                 (strdup (skip 6 response_str))),
                         Some (jEndpoint, jRequiresAuth), st')
              else Some (inl RAC_SUCCESS,
                         Some (Build_rac_assignment_http_response_t
                                 (inl RAC_SUCCESS) 200 (strdup response_str)
                                 (String.length response_str) (r_error_message o)),
                         Some (jEndpoint, jRequiresAuth), st')
            | _, _ => Some (inl RAC_SUCCESS, out_response,
                            Some (jEndpoint, jRequiresAuth), st')
            end
          | None =>
            Some (inr RAC_ERROR_HTTP_REQUEST_FAILED,
                  set_result (inr RAC_ERROR_HTTP_REQUEST_FAILED) <$> out_response,
                  Some (jEndpoint, jRequiresAuth), st')
          end
      end
    end
  | _, _ =>
    Some (inr RAC_ERROR_INVALID_STATE,
          set_result (inr RAC_ERROR_INVALID_STATE) <$> out_response, None, st)
  end.

(** What the setter maintains: a stored callback object comes with its
    virtual machine and its method id. *)
Definition assignment_ok (s : model_assignment_state) : Prop :=
  is_Some (ma_callback_obj s) →
  ma_callbacks_registered s = true ∧ is_Some (ma_jvm s) ∧ is_Some (ma_http_get_method s).

(** One global reference is alive for a stored callback object, and none
    otherwise. *)
Definition assignment_balanced (s : model_assignment_state) : Prop :=
  assignment_refs s = match ma_callback_obj s with Some _ => 1 | None => 0 end.

(** The thread that replaces a stored callback object can release it. *)
Definition can_release (s : model_assignment_state) : Prop :=
  is_Some (ma_callback_obj s) → ∃ vm0, ma_jvm s = Some vm0 ∧ get_env vm0 = JNI_OK.

Definition demo_http_get (endpoint : string) (auth : bool) : java_result (option string) :=
  if auth then Returns (Some ("ERROR:" ++ endpoint)) else Returns (Some endpoint).

Definition demo_assignment : AssignmentCallback :=
  {| httpGet := Some demo_http_get |}.

Definition demo_assignment_state : model_assignment_state :=
  (racModelAssignmentSetCallbacks (Some demo_assignment) false attached_vm
     (λ _, RAC_SUCCESS) assignment_start jni_start).1.2.

Definition empty_response : rac_assignment_http_response_t :=
  Build_rac_assignment_http_response_t (inl RAC_SUCCESS) 0 None 0 None.

(** ** The registry through JNI *)

(** Reading the entry behind [entries[i]], for [loraEntryToJson]. *)
Definition read_view (p : ptr) : M (option lora_view) :=
  λ m, match p with
       | None => Some (None, m)
       | Some c => match read_entry (heap m) c with
                   | Some v => Some (Some v, m)
                   | None => None
                   end
       end.

(** [json += text] on a [std::string]: the longer text, or
    [std::bad_alloc] when the string has to grow and gets no memory.
    [grow s] tells whether the string can become [s]; the string of one
    call only gets longer, so that a call asks about a text once. *)
Definition append_text (grow : string → bool) (json text : string) : cxx_outcome string :=
  if grow (json ++ text) then Return (json ++ text) else Throw bad_alloc.

(** The text that [loraEntryToJson] returns: [null] for a null entry, and
    otherwise what [dump] makes of the document.  [dump] is the end of
    [loraEntryToJson]: the document is built and [nlohmann::json::dump]
    gives its text, or an exception leaves ([type_error] for a string
    that is not valid UTF-8, [bad_alloc] without memory). *)
Definition entry_text (dump : json → cxx_outcome string) (entry : option lora_view)
  : cxx_outcome string :=
  match entry with
  | None => Return "null"
  | Some _ => dump (loraEntryToJson entry)
  end.

(** The loop [for (size_t i = 0; i < count; i++)] that appends the
    entries to [json].  An exception leaves the loop at once. *)
Fixpoint entries_json (dump : json → cxx_outcome string) (grow : string → bool)
    (arr : loc) (n i : nat) (json : string) : M (cxx_outcome string) :=
  match n with
  | 0 => ret (Return json)
  | S n' =>
    match (if (0 <? i)%nat then append_text grow json "," else Return json) with
    | Throw e => ret (Throw e)
    | Return json =>
      let* p := earr_get arr i in
      let* v := read_view p in
      match entry_text dump v with
      | Throw e => ret (Throw e)
      | Return text =>
        match append_text grow json text with
        | Throw e => ret (Throw e)
        | Return json => entries_json dump grow arr n' (S i) json
        end
      end
    end
  end.

(** [racLoraRegistryGetAll]; [registry] is what [rac_get_lora_registry()]
    gives, and the result is the text handed to [NewStringUTF].  Nothing
    catches an exception of the loop or of the last append, so that the
    call of [rac_lora_entry_array_free] is not reached then. *)
Definition racLoraRegistryGetAll (dump : json → cxx_outcome string)
    (grow : string → bool) (registry : ptr) : M (cxx_outcome string) :=
  match registry with
  | None => ret (Return "[]")
  | Some _ =>
    let* x := rac_lora_registry_get_all registry true true in
    match x.1, out_entries x.2, out_count x.2 with
    | RAC_SUCCESS, Some (Some arr), Some (S n) =>
      let* json := entries_json dump grow arr (S n) 0 "[" in
      match json with
      | Return json =>
        match append_text grow json "]" with
        | Return json =>
          do rac_lora_entry_array_free (Some arr) (S n) then
          ret (Return json)
        | Throw e => ret (Throw e)
        end
      | Throw e => ret (Throw e)
      end
    | _, _, _ => ret (Return "[]")
    end
  end.

(** The text after the loop has appended [texts] to [acc], from index [i]
    on. *)
Definition joined (i : nat) (acc : string) (texts : list string) : string :=
  if (0 <? i)%nat then acc ++ foldr (λ x r, "," ++ x ++ r) "" texts
  else acc ++ String.concat "," texts.

(** A string that always gets its memory. *)
Definition grows : string → bool := λ _, true.

(** The text of a JSON array with the given element texts. *)
Definition json_array (texts : list string) : string :=
  "[" ++ String.concat "," texts ++ "]".

(** The texts of the documents of the entries, or the first exception. *)
Fixpoint texts_of (dump : json → cxx_outcome string) (ws : list lora_view)
  : cxx_outcome (list string) :=
  match ws with
  | [] => Return []
  | w :: ws' =>
    match dump (loraEntryToJson (Some w)) with
    | Return text =>
      match texts_of dump ws' with
      | Return texts => Return (text :: texts)
      | Throw e => Throw e
      end
    | Throw e => Throw e
    end
  end.

Fixpoint has_byte (c : ascii) (s : string) : bool :=
  match s with
  | EmptyString => false
  | String d rest => if decide (c = d) then true else has_byte c rest
  end.

(** A stand-in for [dump]: it shows the id or the text of a document, and
    throws when that holds the byte 0xFF, which no UTF-8 text has. *)
Definition demo_dump (j : json) : cxx_outcome string :=
  let shown :=
    match json_get "id" j, json_get "text" j with
    | Some (JString s), _ => Some s
    | _, Some (JString s) => Some s
    | _, _ => None
    end in
  match shown with
  | Some s =>
    if has_byte "255"%char s then Throw type_error
    else Return ("{" ++ s ++ "}")
  | None => Return "null"
  end.

(** [demo_m1] with one more entry of the caller, at 21, whose id is not
    UTF-8 text, and the memory after that entry is registered. *)
Definition demo_bad_heap : gmap loc block :=
  <[20%positive:=BStr (String "255"%char "")]>
    (<[21%positive:=BEntry (mk_entry (Some 20%positive) None None None None None 0 0 0)]>
       (heap demo_m1)).

Definition demo_bad_mem : mem :=
  after (rac_lora_registry_register (Some 9%positive) (Some 21%positive))
        (Mem demo_bad_heap []).

(** ** The two streaming entry points side by side *)

(** The two kinds of context hold the same stream. *)
Definition same_stream (c : LLMStreamContext) (d : LLMStreamCallbackContext) : Prop :=
  s_accumulated_text c = accumulated_text d ∧ s_token_count c = token_count d ∧
  s_is_complete c = is_complete d ∧ s_has_error c = has_error d ∧
  s_error_code c = error_code d ∧ s_error_message c = error_message d ∧
  s_final_result c = final_result d.

End Jni.

(** * Proofs: the LoRA registry *)

Module LoraRegistryProofs.

Import LoraRegistry.

Section wp_rules.
Context {A B : Type}.

Lemma wp_ret (a : A) Q m : Q a m → wp (ret a) Q m.
Proof. done. Qed.

Lemma wp_bind (c : M A) (k : A → M B) Q m :
  wp c (λ a m', wp (k a) Q m') m → wp (bind c k) Q m.
Proof. unfold wp, bind. cbv beta. by destruct (c m) as [[a m']|]. Qed.

Lemma wp_mono (c : M A) (Q Q' : A → mem → Prop) m :
  wp c Q m → (∀ a m', Q a m' → Q' a m') → wp c Q' m.
Proof. unfold wp. destruct (c m) as [[a m']|]; naive_solver. Qed.

Lemma wp_elim (c : M A) Q m :
  wp c Q m → ∃ a m', c m = Some (a, m') ∧ Q a m'.
Proof. unfold wp. destruct (c m) as [[a m']|]; naive_solver. Qed.

Lemma wp_intro (c : M A) (Q : A → mem → Prop) m a m' :
  c m = Some (a, m') → Q a m' → wp c Q m.
Proof. unfold wp. by intros ->. Qed.

Lemma wp_run (c : M A) (Q : A → mem → Prop) m a m' :
  wp c Q m → c m = Some (a, m') → Q a m'.
Proof. unfold wp. intros H E. by rewrite E in H. Qed.
End wp_rules.

Lemma wp_for_loop {A} (I : nat → mem → Prop) n i (body : nat → M (option A)) Q m :
  I i m →
  (∀ j m, i ≤ j < i + n → I j m →
     wp (body j) (λ r m', match r with
                          | Some a => Q (Some a) m'
                          | None => I (S j) m'
                          end) m) →
  (∀ m, I (i + n) m → Q None m) →
  wp (for_loop n i body) Q m.
Proof.
  revert i m. induction n as [|n IH]; intros i m Hi Hbody Hend; simpl.
  - apply wp_ret, Hend. by rewrite Nat.add_0_r.
  - apply wp_bind. eapply wp_mono; [apply Hbody; [lia|done]|].
    intros [a|] m' Hr; [by apply wp_ret|].
    apply IH; [done| |].
    + intros j m'' Hj. apply Hbody. lia.
    + intros m''. replace (S i + n) with (i + S n) by lia. apply Hend.
Qed.

Section primitives.
Context {A : Type} (Q : A → mem → Prop).
Implicit Types (h : gmap loc block) (σ : list bool).

Lemma wp_load l b (Q' : block → mem → Prop) h σ :
  h !! l = Some b → Q' b (Mem h σ) → wp (load l) Q' (Mem h σ).
Proof. unfold wp, load; simpl. by intros ->. Qed.

Lemma wp_load_str l s (Q' : string → mem → Prop) h σ :
  h !! l = Some (BStr s) → Q' s (Mem h σ) → wp (load_str l) Q' (Mem h σ).
Proof. intros Hl HQ. apply wp_bind. eapply wp_load; [done|]. by apply wp_ret. Qed.

Lemma wp_load_strarr l a (Q' : list ptr → mem → Prop) h σ :
  h !! l = Some (BStrArr a) → Q' a (Mem h σ) → wp (load_strarr l) Q' (Mem h σ).
Proof. intros Hl HQ. apply wp_bind. eapply wp_load; [done|]. by apply wp_ret. Qed.

Lemma wp_load_entry l e (Q' : rac_lora_entry_t → mem → Prop) h σ :
  h !! l = Some (BEntry e) → Q' e (Mem h σ) → wp (load_entry l) Q' (Mem h σ).
Proof. intros Hl HQ. apply wp_bind. eapply wp_load; [done|]. by apply wp_ret. Qed.

Lemma wp_load_entryarr l a (Q' : list ptr → mem → Prop) h σ :
  h !! l = Some (BEntryArr a) → Q' a (Mem h σ) → wp (load_entryarr l) Q' (Mem h σ).
Proof. intros Hl HQ. apply wp_bind. eapply wp_load; [done|]. by apply wp_ret. Qed.

Lemma wp_load_registry l r (Q' : gmap string loc → mem → Prop) h σ :
  h !! l = Some (BRegistry r) → Q' r (Mem h σ) → wp (load_registry l) Q' (Mem h σ).
Proof. intros Hl HQ. apply wp_bind. eapply wp_load; [done|]. by apply wp_ret. Qed.

Lemma wp_store l b (Q' : unit → mem → Prop) h σ :
  is_Some (h !! l) → Q' tt (Mem (<[l:=b]> h) σ) → wp (store l b) Q' (Mem h σ).
Proof. unfold wp, store; simpl. by intros [? ->]. Qed.

Lemma wp_free l (Q' : unit → mem → Prop) h σ :
  is_Some (h !! l) → Q' tt (Mem (delete l h) σ) → wp (free l) Q' (Mem h σ).
Proof. unfold wp, free; simpl. by intros [? ->]. Qed.

Lemma wp_malloc b (Q' : ptr → mem → Prop) h σ :
  (∀ σ', σ = false :: σ' → Q' None (Mem h σ')) →
  (∀ l, h !! l = None → (alloc_ok σ → alloc_ok (tail σ)) →
        Q' (Some l) (Mem (<[l:=b]> h) (tail σ))) →
  wp (malloc b) Q' (Mem h σ).
Proof.
  intros Hfail Hok. unfold wp, malloc; simpl.
  assert (h !! fresh (dom h) = None) as Hfresh
    by apply not_elem_of_dom, is_fresh.
  destruct σ as [|[] σ']; simpl in *.
  - by apply Hok.
  - apply Hok; [done|]. unfold alloc_ok. by intros [_ ?]%Forall_cons.
  - by apply Hfail.
Qed.

Lemma wp_set_entry l e upd (Q' : unit → mem → Prop) h σ :
  h !! l = Some (BEntry e) →
  Q' tt (Mem (<[l:=BEntry (upd e)]> h) σ) →
  wp (set_entry l upd) Q' (Mem h σ).
Proof.
  intros Hl HQ. apply wp_bind. eapply wp_load_entry; [done|].
  by apply wp_store.
Qed.

Lemma wp_arr_get l a i x (Q' : ptr → mem → Prop) h σ :
  h !! l = Some (BStrArr a) → a !! i = Some x →
  Q' x (Mem h σ) → wp (arr_get l i) Q' (Mem h σ).
Proof.
  intros Hl Hi HQ. apply wp_bind. eapply wp_load_strarr; [done|].
  rewrite Hi. by apply wp_ret.
Qed.

Lemma wp_arr_set l a i p (Q' : unit → mem → Prop) h σ :
  h !! l = Some (BStrArr a) → i < length a →
  Q' tt (Mem (<[l:=BStrArr (<[i:=p]> a)]> h) σ) →
  wp (arr_set l i p) Q' (Mem h σ).
Proof.
  intros Hl Hi HQ. apply wp_bind. eapply wp_load_strarr; [done|].
  rewrite decide_True by done. by apply wp_store.
Qed.

Lemma wp_earr_get l a i x (Q' : ptr → mem → Prop) h σ :
  h !! l = Some (BEntryArr a) → a !! i = Some x →
  Q' x (Mem h σ) → wp (earr_get l i) Q' (Mem h σ).
Proof.
  intros Hl Hi HQ. apply wp_bind. eapply wp_load_entryarr; [done|].
  rewrite Hi. by apply wp_ret.
Qed.

Lemma wp_earr_set l a i p (Q' : unit → mem → Prop) h σ :
  h !! l = Some (BEntryArr a) → i < length a →
  Q' tt (Mem (<[l:=BEntryArr (<[i:=p]> a)]> h) σ) →
  wp (earr_set l i p) Q' (Mem h σ).
Proof.
  intros Hl Hi HQ. apply wp_bind. eapply wp_load_entryarr; [done|].
  rewrite decide_True by done. by apply wp_store.
Qed.
End primitives.

(** ** Heaps after a series of releases *)

Lemma free_all_app l1 l2 (h : gmap loc block) :
  free_all (l1 ++ l2) h = free_all l2 (free_all l1 h).
Proof. apply foldl_app. Qed.

Lemma lookup_free_all ls (h : gmap loc block) l :
  free_all ls h !! l = if decide (l ∈ ls) then None else h !! l.
Proof.
  revert h. induction ls as [|x ls IH]; intros h.
  - case_decide; [set_solver|done].
  - change (free_all (x :: ls) h) with (free_all ls (delete x h)).
    rewrite IH. destruct (decide (l = x)) as [->|Hne].
    + rewrite lookup_delete_eq. repeat case_decide; try done; set_solver.
    + rewrite lookup_delete_ne by done.
      repeat case_decide; try done; set_solver.
Qed.

Lemma lookup_free_all_notin ls (h : gmap loc block) l :
  l ∉ ls → free_all ls h !! l = h !! l.
Proof. intros. by rewrite lookup_free_all, decide_False. Qed.

(** ** Reading entries *)

Lemma read_str_Some h l v :
  read_str h (Some l) = Some v ↔ ∃ s, v = Some s ∧ h !! l = Some (BStr s).
Proof.
  simpl. destruct (h !! l) as [[]|]; naive_solver.
Qed.

Lemma read_str_None h v : read_str h None = Some v ↔ v = None.
Proof. simpl. naive_solver. Qed.

Lemma read_str_agree h h' p :
  (∀ l, p = Some l → h' !! l = h !! l) → read_str h' p = read_str h p.
Proof. destruct p as [l|]; simpl; [|done]. intros H. by rewrite H. Qed.

Lemma read_str_present h p v l :
  read_str h p = Some v → p = Some l → is_Some (h !! l).
Proof. intros H ->. apply read_str_Some in H as (s & _ & ->). eauto. Qed.

Lemma read_ids_agree h h' e :
  (∀ l, compatible_model_ids e = Some l → h' !! l = h !! l) →
  read_ids h' e = read_ids h e.
Proof.
  unfold read_ids. destruct (compatible_model_ids e) as [la|]; [|done].
  intros H. by rewrite H.
Qed.

Lemma read_ids_Some h e la a :
  compatible_model_ids e = Some la →
  read_ids h e = Some a ↔
  ∃ a0, h !! la = Some (BStrArr a0) ∧ compatible_model_count e ≤ length a0 ∧
        a = take (compatible_model_count e) a0.
Proof.
  unfold read_ids. intros ->.
  destruct (h !! la) as [[]|]; try naive_solver.
  case_decide; naive_solver.
Qed.

Lemma read_ids_None h e a :
  compatible_model_ids e = None → read_ids h e = Some a ↔ a = [].
Proof. unfold read_ids. intros ->. naive_solver. Qed.

Lemma mapM_read_str_agree h h' (a : list ptr) :
  (∀ l, Some l ∈ a → h' !! l = h !! l) →
  mapM (read_str h') a = mapM (read_str h) a.
Proof.
  induction a as [|p a IH]; intros H; [done|]. simpl.
  rewrite (read_str_agree h h' p); [|intros l ->; apply H; set_solver].
  rewrite IH; [done|]. intros l ?. apply H. set_solver.
Qed.

Lemma elem_of_omap_id (a : list ptr) l : l ∈ omap (λ p, p) a ↔ Some l ∈ a.
Proof. rewrite list_elem_of_omap. naive_solver. Qed.

(** [get_s] and [get_vs] of a structure that reads *)
Lemma read_struct_Some h e v :
  read_struct h e = Some v ↔
  (∀ f, read_str h (get_s f e) = Some (get_vs f v)) ∧
  (∃ a, read_ids h e = Some a ∧ mapM (read_str h) a = Some (v_models v)) ∧
  v_file_size v = file_size e ∧ v_default_scale v = default_scale e.
Proof.
  unfold read_struct. split.
  - intros H. simplify_option_eq. split_and!; [by intros []|eauto|done..].
  - intros (Hf & (a & Ha & Hm) & Hfs & Hds).
    pose proof (Hf Fid) as H1. pose proof (Hf Fname) as H2.
    pose proof (Hf Fdescription) as H3. pose proof (Hf Fdownload_url) as H4.
    pose proof (Hf Ffilename) as H5. simpl in H1, H2, H3, H4, H5.
    rewrite H1, H2, H3, H4, H5. simpl. rewrite Ha. simpl. rewrite Hm. simpl.
    destruct v; simpl in *. by subst.
Qed.

Lemma elem_of_option_list {A} (p : option A) x : x ∈ option_list p ↔ p = Some x.
Proof.
  destruct p; simpl; [rewrite list_elem_of_singleton|rewrite elem_of_nil]; naive_solver.
Qed.

Lemma read_entry_rep h c v :
  read_entry h c = Some v ↔ ∃ e a, rep h c e a v.
Proof.
  unfold read_entry, rep. split.
  - destruct (h !! c) as [[]|] eqn:Hc; try done. intros Hr.
    pose proof Hr as (_ & (a & Ha & _) & _)%read_struct_Some. eauto.
  - intros (e & a & -> & _ & Hr). done.
Qed.

Lemma entry_locs_rep h c e a v :
  rep h c e a v → entry_locs h c = locs_of c e a.
Proof. intros (Hc & Ha & _). unfold entry_locs. by rewrite Hc, Ha. Qed.

Lemma elem_of_locs_of c e a l :
  l ∈ locs_of c e a ↔
  (∃ f, get_s f e = Some l) ∨ Some l ∈ a ∨ compatible_model_ids e = Some l ∨ l = c.
Proof.
  unfold locs_of. rewrite !elem_of_app, !elem_of_option_list, elem_of_omap_id,
    list_elem_of_singleton.
  split.
  - intros [?|[?|[?|[?|[?|[?|[?|?]]]]]]]; eauto;
      left; [by exists Fid|by exists Fname|by exists Fdescription
            |by exists Fdownload_url|by exists Ffilename].
  - intros [[[] ?]|[?|[?|?]]]; simpl in *; eauto 10.
Qed.

Lemma rep_present h c e a v l :
  rep h c e a v → l ∈ locs_of c e a → is_Some (h !! l).
Proof.
  intros (Hc & Ha & Hr) Hl.
  apply read_struct_Some in Hr as (Hf & (a' & Ha' & Hm) & _).
  assert (a' = a) as -> by congruence.
  apply elem_of_locs_of in Hl as [[f Hl]|[Hl|[Hl| ->]]]; [| | |eauto].
  - eapply read_str_present; [apply Hf|done].
  - apply mapM_Some in Hm. apply list_elem_of_lookup_1 in Hl as [i Hi].
    eapply Forall2_lookup_l in Hm as (y & _ & Hy); [|done].
    by eapply read_str_present.
  - apply (read_ids_Some _ _ _ _ Hl) in Ha as (a0 & -> & _). eauto.
Qed.

Lemma rep_agree h h' c e a v :
  rep h c e a v → (∀ l, l ∈ locs_of c e a → h' !! l = h !! l) → rep h' c e a v.
Proof.
  intros (Hc & Ha & Hr) Hag.
  assert (read_ids h' e = Some a) as Ha'.
  { rewrite <- Ha. apply read_ids_agree. intros l Hl. apply Hag, elem_of_locs_of. eauto. }
  split_and!; [rewrite Hag; [done|apply elem_of_locs_of; eauto]|done|].
  apply read_struct_Some in Hr as (Hf & (a' & Ha'' & Hm) & ? & ?).
  assert (a' = a) as -> by congruence.
  apply read_struct_Some. split_and!; [|exists a; split; [done|]|done..].
  - intros f. rewrite <- Hf. apply read_str_agree. intros l Hl.
    apply Hag, elem_of_locs_of. eauto.
  - rewrite <- Hm. apply mapM_read_str_agree. intros l Hl.
    apply Hag, elem_of_locs_of. eauto.
Qed.

Lemma rep_mono h h' c e a v : rep h c e a v → h ⊆ h' → rep h' c e a v.
Proof.
  intros Hrep Hsub. eapply rep_agree; [done|]. intros l Hl.
  destruct (rep_present _ _ _ _ _ _ Hrep Hl) as [b Hb].
  rewrite Hb. by eapply lookup_weaken.
Qed.

(** ** Releasing an entry *)

Lemma wp_free_next pre l post (Q : unit → mem → Prop) h σ :
  NoDup (pre ++ [l] ++ post) →
  (∀ x, x ∈ pre ++ [l] ++ post → is_Some (h !! x)) →
  Q tt (Mem (free_all (pre ++ [l]) h) σ) →
  wp (free l) Q (Mem (free_all pre h) σ).
Proof.
  intros Hnd Hpres HQ. apply wp_free.
  - rewrite lookup_free_all_notin; [apply Hpres; set_solver|].
    apply NoDup_app in Hnd as (_ & Hnd & _). intros Hl. apply (Hnd _ Hl). set_solver.
  - by rewrite free_all_app in HQ.
Qed.

Lemma wp_free_if pre p post (Q : unit → mem → Prop) h σ :
  NoDup (pre ++ option_list p ++ post) →
  (∀ x, x ∈ pre ++ option_list p ++ post → is_Some (h !! x)) →
  Q tt (Mem (free_all (pre ++ option_list p) h) σ) →
  wp (free_if p) Q (Mem (free_all pre h) σ).
Proof.
  destruct p as [l|]; simpl.
  - apply wp_free_next.
  - intros _ _ HQ. apply wp_ret. by rewrite app_nil_r in HQ.
Qed.

Lemma free_elements_spec la a0 a pre post (Q : option unit → mem → Prop) h σ :
  h !! la = Some (BStrArr a0) →
  a = take (length a) a0 →
  la ∉ pre ++ omap (λ p, p) a →
  NoDup (pre ++ omap (λ p, p) a ++ post) →
  (∀ x, x ∈ pre ++ omap (λ p, p) a ++ post → is_Some (h !! x)) →
  Q None (Mem (free_all (pre ++ omap (λ p, p) a) h) σ) →
  wp (for_loop (length a) 0 (λ i,
        let* p := arr_get la i in
        do free_if p then
        ret (@None unit))) Q (Mem (free_all pre h) σ).
Proof.
  intros Hla Ha Hnotin Hnd Hpres HQ.
  apply (wp_for_loop (λ j m, m = Mem (free_all (pre ++ omap (λ p, p) (take j a)) h) σ)).
  - simpl. by rewrite app_nil_r.
  - intros j m [_ Hj] ->. simpl in Hj.
    destruct (lookup_lt_is_Some_2 a j Hj) as [x Hx].
    assert (a0 !! j = Some x) as Hx0.
    { rewrite Ha in Hx. by apply lookup_take_Some in Hx as [? _]. }
    pose proof (take_drop_middle _ _ _ Hx) as Hmid.
    assert (omap (λ p, p) a =
            omap (λ p : ptr, p) (take j a) ++ option_list x ++ omap (λ p, p) (drop (S j) a)) as Hsplit.
    { rewrite <- Hmid at 1. rewrite omap_app. simpl. by destruct x. }
    apply wp_bind. eapply wp_arr_get; [|done|].
    { rewrite lookup_free_all_notin; [done|]. intros Hin. apply Hnotin.
      rewrite Hsplit. set_solver. }
    apply wp_bind.
    eapply (wp_free_if _ x (omap (λ p, p) (drop (S j) a) ++ post)).
    + rewrite Hsplit in Hnd. by rewrite <- !app_assoc in *.
    + intros y Hy. apply Hpres. rewrite Hsplit. by rewrite <- !app_assoc in *.
    + apply wp_ret. rewrite (take_S_r _ _ _ Hx), omap_app. simpl.
      rewrite <- !app_assoc. by destruct x.
  - intros m ->. simpl. by rewrite firstn_all.
Qed.

Lemma read_ids_length h e a : read_ids h e = Some a →
  match compatible_model_ids e with
  | Some la => ∃ a0, h !! la = Some (BStrArr a0) ∧ a = take (length a) a0 ∧
                     length a = compatible_model_count e
  | None => a = []
  end.
Proof.
  intros Ha. destruct (compatible_model_ids e) as [la|] eqn:Hla.
  - destruct (proj1 (read_ids_Some h e la a Hla) Ha) as (a0 & Hl & Hle & Heq).
    exists a0. rewrite Heq, length_take, Nat.min_l by done. done.
  - by apply read_ids_None in Ha.
Qed.

Lemma free_lora_entry_spec h σ c e a v (Q : unit → mem → Prop) :
  rep h c e a v → NoDup (locs_of c e a) →
  Q tt (Mem (free_all (locs_of c e a) h) σ) →
  wp (free_lora_entry (Some c)) Q (Mem h σ).
Proof.
  intros Hrep Hnd HQ.
  pose proof (λ l, rep_present _ _ _ _ _ l Hrep) as Hpres.
  destruct Hrep as (Hc & Ha & _). apply read_ids_length in Ha.
  unfold locs_of in *. unfold free_lora_entry.
  apply wp_bind. eapply wp_load_entry; [done|].
  change (Mem h σ) with (Mem (free_all [] h) σ).
  change (option_list (id e) ++ ?r) with ([] ++ option_list (id e) ++ r) in Hnd, Hpres.
  apply wp_bind; eapply (wp_free_if _ (id e)); [exact Hnd|exact Hpres|].
  rewrite (assoc_L (++)) in Hnd, Hpres.
  apply wp_bind; eapply (wp_free_if _ (name e)); [exact Hnd|exact Hpres|].
  rewrite (assoc_L (++)) in Hnd, Hpres.
  apply wp_bind; eapply (wp_free_if _ (description e)); [exact Hnd|exact Hpres|].
  rewrite (assoc_L (++)) in Hnd, Hpres.
  apply wp_bind; eapply (wp_free_if _ (download_url e)); [exact Hnd|exact Hpres|].
  rewrite (assoc_L (++)) in Hnd, Hpres.
  apply wp_bind; eapply (wp_free_if _ (filename e)); [exact Hnd|exact Hpres|].
  rewrite (assoc_L (++)) in Hnd, Hpres.
  destruct (compatible_model_ids e) as [la|] eqn:Hids; simpl in Ha |- *.
  - destruct Ha as (a0 & Hla & Htake & Hlen). rewrite <- Hlen.
    apply wp_bind. apply wp_bind.
    eapply (free_elements_spec la a0 a); [done|done| |exact Hnd|exact Hpres|].
    { rewrite (assoc_L (++)) in Hnd. apply NoDup_app in Hnd as (_ & Hnd & _).
      intros Hin. apply (Hnd _ Hin). set_solver. }
    rewrite (assoc_L (++)) in Hnd, Hpres.
    eapply (wp_free_next _ la [c]); [exact Hnd|exact Hpres|].
    rewrite (assoc_L (++)) in Hnd, Hpres.
    eapply (wp_free_next _ c []); [exact Hnd|exact Hpres|].
    rewrite <- !(assoc_L (++)). exact HQ.
  - subst a. apply wp_bind, wp_ret.
    eapply (wp_free_next _ c []); [exact Hnd|exact Hpres|].
    rewrite <- !(assoc_L (++)). exact HQ.
Qed.

Lemma locs_of_plocs c e a : locs_of c e a = plocs e a ++ [c].
Proof. unfold locs_of, plocs. by rewrite <- !(assoc_L (++)). Qed.

Lemma elem_of_plocs e a l :
  l ∈ plocs e a ↔
  (∃ f, get_s f e = Some l) ∨ Some l ∈ a ∨ compatible_model_ids e = Some l.
Proof.
  unfold plocs. rewrite !elem_of_app, !elem_of_option_list, elem_of_omap_id.
  split.
  - intros [?|[?|[?|[?|[?|[?|?]]]]]]; eauto;
      left; [by exists Fid|by exists Fname|by exists Fdescription
            |by exists Fdownload_url|by exists Ffilename].
  - intros [[[] ?]|[?|?]]; simpl in *; eauto 10.
Qed.

Lemma reads_present h e a v l :
  reads h e a v → l ∈ plocs e a → is_Some (h !! l).
Proof.
  intros (Ha & Hr) Hl.
  apply read_struct_Some in Hr as (Hf & (a' & Ha' & Hm) & _).
  assert (a' = a) as -> by congruence.
  apply elem_of_plocs in Hl as [[f Hl]|[Hl|Hl]].
  - eapply read_str_present; [apply Hf|done].
  - apply mapM_Some in Hm. apply list_elem_of_lookup_1 in Hl as [i Hi].
    eapply Forall2_lookup_l in Hm as (y & _ & Hy); [|done].
    by eapply read_str_present.
  - destruct (proj1 (read_ids_Some _ _ _ _ Hl) Ha) as (a0 & -> & _). eauto.
Qed.

Lemma reads_agree h h' e a v :
  reads h e a v → (∀ l, l ∈ plocs e a → h' !! l = h !! l) → reads h' e a v.
Proof.
  intros (Ha & Hr) Hag.
  assert (read_ids h' e = Some a) as Ha'.
  { rewrite <- Ha. apply read_ids_agree. intros l Hl. apply Hag, elem_of_plocs. eauto. }
  split; [done|].
  apply read_struct_Some in Hr as (Hf & (a' & Ha'' & Hm) & ? & ?).
  assert (a' = a) as -> by congruence.
  apply read_struct_Some. split_and!; [|exists a; split; [done|]|done..].
  - intros f. rewrite <- Hf. apply read_str_agree. intros l Hl.
    apply Hag, elem_of_plocs. eauto.
  - rewrite <- Hm. apply mapM_read_str_agree. intros l Hl.
    apply Hag, elem_of_plocs. eauto.
Qed.

(** Pointees are strings and string arrays, never structures. *)
Lemma reads_not_entry h e a v l e' :
  reads h e a v → l ∈ plocs e a → h !! l ≠ Some (BEntry e').
Proof.
  intros (Ha & Hr) Hl.
  apply read_struct_Some in Hr as (Hf & (a' & Ha' & Hm) & _).
  assert (a' = a) as -> by congruence.
  apply elem_of_plocs in Hl as [[f Hl]|[Hl|Hl]].
  - specialize (Hf f). rewrite Hl in Hf.
    apply read_str_Some in Hf as (s & _ & ->). done.
  - apply mapM_Some in Hm. apply list_elem_of_lookup_1 in Hl as [i Hi].
    eapply Forall2_lookup_l in Hm as (y & _ & Hy); [|done].
    apply read_str_Some in Hy as (s & _ & ->). done.
  - destruct (proj1 (read_ids_Some _ _ _ _ Hl) Ha) as (a0 & -> & _). done.
Qed.

Lemma reads_iff h e a v :
  reads h e a v ↔
  (∀ f, read_str h (get_s f e) = Some (get_vs f v)) ∧
  read_ids h e = Some a ∧ mapM (read_str h) a = Some (v_models v) ∧
  v_file_size v = file_size e ∧ v_default_scale v = default_scale e.
Proof.
  unfold reads. rewrite read_struct_Some. split.
  - intros (Ha & Hf & (a' & Ha' & Hm) & ? & ?).
    assert (a' = a) as -> by congruence. done.
  - intros (Hf & Ha & Hm & ? & ?). eauto 10.
Qed.

Lemma inserted_elem {A} (x : A) L L' y :
  inserted x L L' → y ∈ L' ↔ y = x ∨ y ∈ L.
Proof. intros (l1 & l2 & -> & ->). set_solver. Qed.

Lemma inserted_NoDup {A} (x : A) L L' :
  inserted x L L' → NoDup L → x ∉ L → NoDup L'.
Proof.
  intros (l1 & l2 & -> & ->) Hnd Hx.
  rewrite <- Permutation_middle. by apply NoDup_cons.
Qed.

Lemma inserted_app_l {A} (x : A) K L L' :
  inserted x L L' → inserted x (K ++ L) (K ++ L').
Proof.
  intros (l1 & l2 & -> & ->). exists (K ++ l1), l2.
  by rewrite <- !(assoc_L (++)).
Qed.

Lemma inserted_app_r {A} (x : A) K L L' :
  inserted x L L' → inserted x (L ++ K) (L' ++ K).
Proof.
  intros (l1 & l2 & -> & ->). exists l1, (l2 ++ K).
  by rewrite <- !(assoc_L (++)).
Qed.

Lemma inserted_here {A} (x : A) L : inserted x L (x :: L).
Proof. by exists [], L. Qed.

Section building.
Context (h0 : gmap loc block) (σ0 : list bool) (c : loc).
Context (hc : gmap loc block) (σc : list bool).
Context (ce : rac_lora_entry_t) (ca : list ptr) (cv : lora_view).
Hypothesis HB : building h0 σ0 c hc σc ce ca cv.

Lemma building_rep : rep hc c ce ca cv.
Proof. destruct HB. by split. Qed.

Lemma building_present l : l ∈ plocs ce ca ++ [c] → is_Some (hc !! l).
Proof.
  rewrite <- locs_of_plocs. apply rep_present with cv, building_rep.
Qed.

Lemma building_old l : is_Some (h0 !! l) → hc !! l = h0 !! l.
Proof.
  intros [b Hb]. apply (b_frame _ _ _ _ _ _ _ _ HB). intros Hl.
  apply (b_fresh _ _ _ _ _ _ _ _ HB) in Hl. congruence.
Qed.

Lemma building_src s se sa v : rep h0 s se sa v → rep hc s se sa v.
Proof.
  intros Hs. eapply rep_agree; [done|]. intros l Hl.
  apply building_old. by eapply rep_present.
Qed.

Lemma building_free (Q : unit → mem → Prop) :
  Q tt (Mem h0 σc) → wp (free_lora_entry (Some c)) Q (Mem hc σc).
Proof.
  intros HQ. eapply free_lora_entry_spec; [apply building_rep| |].
  - rewrite locs_of_plocs. apply HB.
  - replace (free_all (locs_of c ce ca) hc) with h0; [done|].
    apply map_eq. intros l. rewrite lookup_free_all, locs_of_plocs.
    case_decide.
    + by apply HB.
    + symmetry. by apply HB.
Qed.

Lemma building_grow l' hc' σc' ce' ca' cv' :
  hc !! l' = None →
  inserted l' (plocs ce ca) (plocs ce' ca') →
  hc' !! c = Some (BEntry ce') →
  reads hc' ce' ca' cv' →
  (∀ l, l ≠ l' → l ∉ plocs ce ca ++ [c] → hc' !! l = hc !! l) →
  (alloc_ok σc → alloc_ok σc') →
  building h0 σ0 c hc' σc' ce' ca' cv'.
Proof.
  intros Hl' Hins Hc' Hr' Hfr Hok.
  assert (l' ∉ plocs ce ca ++ [c]) as Hnotin.
  { intros [b Hb]%building_present. congruence. }
  apply (inserted_app_r _ [c]) in Hins.
  split; [done|done| | | |].
  - eapply inserted_NoDup; [done|apply HB|done].
  - intros l [->|Hl]%(inserted_elem _ _ _ _ Hins).
    + rewrite <- Hl'. symmetry. by apply HB.
    + by apply HB.
  - intros l Hl. rewrite (inserted_elem _ _ _ _ Hins) in Hl.
    rewrite Hfr by naive_solver. apply HB. naive_solver.
  - intros ?. by apply Hok, HB.
Qed.

Lemma building_same hc' ce' ca' cv' :
  plocs ce' ca' = plocs ce ca →
  hc' !! c = Some (BEntry ce') →
  reads hc' ce' ca' cv' →
  (∀ l, l ∉ plocs ce ca ++ [c] → hc' !! l = hc !! l) →
  building h0 σ0 c hc' σc ce' ca' cv'.
Proof.
  intros Hp Hc' Hr' Hfr. split; [done|done|rewrite Hp; apply HB..| |apply HB].
  intros l Hl. rewrite Hp in Hl. rewrite Hfr by done. by apply HB.
Qed.

(** Its pointees are distinct from the copy itself. *)
Lemma building_pointee_ne l : l ∈ plocs ce ca → l ≠ c.
Proof.
  intros Hl ->. pose proof (b_nodup _ _ _ _ _ _ _ _ HB) as Hnd.
  apply NoDup_app in Hnd as (_ & Hnd & _). apply (Hnd _ Hl). set_solver.
Qed.
End building.

Lemma set_s_None f e : get_s f e = None → set_s f None e = e.
Proof. destruct f, e; simpl; by intros ->. Qed.

Lemma set_vs_None f v : get_vs f v = None → set_vs f None v = v.
Proof. destruct f, v; simpl; by intros ->. Qed.

Lemma plocs_set_s f e a l' :
  get_s f e = None → inserted l' (plocs e a) (plocs (set_s f (Some l') e) a).
Proof.
  intros H. unfold plocs. destruct f; simpl in *; rewrite H; simpl;
    repeat first [apply inserted_here | apply inserted_app_l].
Qed.

Lemma read_ids_set_s h f p e : read_ids h (set_s f p e) = read_ids h e.
Proof. by destruct f. Qed.

Lemma reads_set_s h e a v f p r :
  reads h e a v → read_str h p = Some r →
  reads h (set_s f p e) a (set_vs f r v).
Proof.
  rewrite !reads_iff. intros (Hf & Ha & Hm & ? & ?) Hp.
  split_and!.
  - intros g. specialize (Hf g). destruct f, g; simpl in *; done.
  - by rewrite read_ids_set_s.
  - by destruct f.
  - by destruct f.
  - by destruct f.
Qed.

Lemma reads_field_None h e a v f :
  reads h e a v → get_vs f v = None → get_s f e = None.
Proof.
  rewrite reads_iff. intros (Hf & _) Hn. specialize (Hf f). rewrite Hn in Hf.
  destruct (get_s f e) as [l|]; [|done].
  apply read_str_Some in Hf as (? & ? & _). done.
Qed.

Lemma building_sched h0 σ0 c hc σc σc' ce ca cv :
  building h0 σ0 c hc σc ce ca cv → (alloc_ok σc → alloc_ok σc') →
  building h0 σ0 c hc σc' ce ca cv.
Proof. intros [] ?. split; auto. Qed.

Lemma alloc_ok_false σ : ¬ alloc_ok (false :: σ).
Proof. by intros [? _]%Forall_cons. Qed.

Lemma copy_sfield_spec f h0 σ0 s se sa v c hc σc ce ca cv (Q : unit → mem → Prop) :
  rep h0 s se sa v →
  building h0 σ0 c hc σc ce ca cv →
  get_vs f cv = None →
  (∀ hc' σc' p r,
     building h0 σ0 c hc' σc' (set_s f p ce) ca (set_vs f r cv) →
     r = get_vs f v ∨ (r = None ∧ ¬ alloc_ok σ0) →
     Q tt (Mem hc' σc')) →
  wp (copy_sfield f s c) Q (Mem hc σc).
Proof.
  intros Hs HB Hnone HQ.
  pose proof (building_src _ _ _ _ _ _ _ _ HB _ _ _ _ Hs) as (Hsc & Hsr).
  pose proof (reads_field_None _ _ _ _ _ (b_reads _ _ _ _ _ _ _ _ HB) Hnone) as Hcn.
  assert (∀ σ', (alloc_ok σc → alloc_ok σ') →
            building h0 σ0 c (<[c:=BEntry (set_s f None ce)]> hc) σ'
                     (set_s f None ce) ca (set_vs f None cv)) as Hsame.
  { intros σ' Hσ. rewrite set_s_None, set_vs_None by done.
    rewrite insert_id by apply HB. by eapply building_sched. }
  unfold copy_sfield. apply wp_bind. eapply wp_load_entry; [done|].
  apply wp_bind. apply reads_iff in Hsr as (Hsf & _). specialize (Hsf f).
  destruct (get_s f se) as [ls|]; simpl.
  - apply read_str_Some in Hsf as (str & Hv & Hls).
    apply wp_bind. eapply wp_load_str; [done|]. apply wp_malloc.
    + intros σ' ->. eapply wp_set_entry; [apply HB|].
      apply (HQ _ _ None None).
      * apply Hsame. by intros ?%alloc_ok_false.
      * right. split; [done|]. intros Hok. by apply HB, alloc_ok_false in Hok.
    + intros l' Hl' Hok.
      assert (l' ≠ c) as Hne.
      { intros ->. destruct HB. congruence. }
      eapply wp_set_entry.
      { rewrite lookup_insert_ne by done. apply HB. }
      apply (HQ _ _ (Some l') (Some str)); [|by left].
      eapply (building_grow _ _ _ _ _ _ _ _ HB l'); [done| | | | |done].
      * by apply plocs_set_s.
      * by rewrite lookup_insert_eq.
      * apply reads_set_s.
        -- eapply reads_agree; [apply HB|]. intros l Hl.
           rewrite !lookup_insert_ne; [done| |].
           ++ intros ->. destruct (building_present _ _ _ _ _ _ _ _ HB l) as [? ?];
                [set_solver|congruence].
           ++ intros <-. by eapply (building_pointee_ne _ _ _ _ _ _ _ _ HB).
        -- simpl. rewrite lookup_insert_ne by done. by rewrite lookup_insert_eq.
      * intros l ? Hl. rewrite !lookup_insert_ne; [done|done|set_solver].
  - apply read_str_None in Hsf. apply wp_ret.
    eapply wp_set_entry; [apply HB|].
    apply (HQ _ _ None None); [by apply Hsame|by left].
Qed.

Lemma sfield_lost_spec f h0 σ0 s se sa v c hc σc ce ca cv (Q : bool → mem → Prop) :
  rep h0 s se sa v →
  building h0 σ0 c hc σc ce ca cv →
  Q (bool_decide (is_Some (get_vs f v) ∧ get_vs f cv = None)) (Mem hc σc) →
  wp (sfield_lost f s c) Q (Mem hc σc).
Proof.
  intros Hs HB HQ.
  pose proof (building_src _ _ _ _ _ _ _ _ HB _ _ _ _ Hs) as (Hsc & Hsr).
  apply reads_iff in Hsr as (Hsf & _). specialize (Hsf f).
  pose proof (b_reads _ _ _ _ _ _ _ _ HB) as (Hcf & _)%reads_iff. specialize (Hcf f).
  unfold sfield_lost. apply wp_bind. eapply wp_load_entry; [done|].
  destruct (get_s f se) as [ls|].
  - apply read_str_Some in Hsf as (str & Hv & _).
    apply wp_bind. eapply wp_load_entry; [apply HB|]. apply wp_ret.
    destruct (get_s f ce) as [lc|].
    + apply read_str_Some in Hcf as (str' & Hv' & _).
      rewrite bool_decide_false in HQ; [done|]. rewrite Hv'. naive_solver.
    + apply read_str_None in Hcf.
      rewrite bool_decide_true in HQ; [done|]. rewrite Hv. eauto.
  - apply read_str_None in Hsf. apply wp_ret.
    rewrite bool_decide_false in HQ; [done|]. rewrite Hsf. by intros [[? ?] _].
Qed.

Lemma wp_orM (c1 c2 : M bool) (Q : bool → mem → Prop) m :
  wp c1 (λ b m', if b then Q true m' else wp c2 Q m') m → wp (orM c1 c2) Q m.
Proof.
  intros H. apply wp_bind. eapply wp_mono; [exact H|].
  intros [] m' HQ; [by apply wp_ret|done].
Qed.

Lemma lost_spec h0 σ0 s se sa v c hc σc ce ca cv (Q : bool → mem → Prop) :
  rep h0 s se sa v →
  building h0 σ0 c hc σc ce ca cv →
  (∀ b, (b = true ↔ ∃ f, is_Some (get_vs f v) ∧ get_vs f cv = None) →
        Q b (Mem hc σc)) →
  wp (orM (sfield_lost Fid s c)
     (orM (sfield_lost Fname s c)
     (orM (sfield_lost Fdescription s c)
     (orM (sfield_lost Fdownload_url s c)
          (sfield_lost Ffilename s c))))) Q (Mem hc σc).
Proof.
  intros Hs HB HQ.
  repeat (apply wp_orM; eapply sfield_lost_spec; [done..|];
          case_bool_decide; [apply HQ; split; [eauto|done]|]).
  eapply sfield_lost_spec; [done..|].
  case_bool_decide; apply HQ; [split; [eauto|done]|].
  split; [done|]. intros [[] ?]; done.
Qed.

Lemma omap_id_insert (a : list ptr) i l' :
  a !! i = Some None →
  inserted l' (omap (λ p, p) a) (omap (λ p, p) (<[i:=Some l']> a)).
Proof.
  intros Hi. exists (omap (λ p, p) (take i a)), (omap (λ p, p) (drop (S i) a)).
  split.
  - rewrite <- (take_drop_middle _ _ _ Hi) at 1. by rewrite omap_app.
  - rewrite insert_take_drop by by eapply lookup_lt_Some.
    by rewrite omap_app.
Qed.

Lemma plocs_set_elem e a i l' :
  a !! i = Some None → inserted l' (plocs e a) (plocs e (<[i:=Some l']> a)).
Proof.
  intros Hi. unfold plocs.
  do 5 apply inserted_app_l. by apply inserted_app_r, omap_id_insert.
Qed.

Lemma set_vmodels_id v : set_vmodels (v_models v) v = v.
Proof. by destruct v. Qed.

Lemma copy_element_spec h0 σ0 s se sa v c hc σc ce ca cv sl cal i
    (Q : option unit → mem → Prop) :
  rep h0 s se sa v → compatible_model_ids se = Some sl →
  building h0 σ0 c hc σc ce ca cv →
  compatible_model_ids ce = Some cal → hc !! cal = Some (BStrArr ca) →
  length ca = length sa → ca !! i = Some None →
  (∀ σ', ¬ alloc_ok σ0 → Q (Some tt) (Mem h0 σ')) →
  (∀ hc' σc' p r,
     building h0 σ0 c hc' σc' ce (<[i:=p]> ca)
              (set_vmodels (<[i:=r]> (v_models cv)) cv) →
     hc' !! cal = Some (BStrArr (<[i:=p]> ca)) →
     v_models v !! i = Some r →
     Q None (Mem hc' σc')) →
  wp (copy_element sl cal c i) Q (Mem hc σc).
Proof.
  intros Hs Hsl HB Hcal Hca Hlen Hi Hfail Hcont.
  pose proof (building_src _ _ _ _ _ _ _ _ HB _ _ _ _ Hs) as (Hsc & Hsr).
  apply reads_iff in Hsr as (_ & Hsa & Hsm & _).
  destruct (proj1 (read_ids_Some _ _ _ _ Hsl) Hsa) as (sa0 & Hsl0 & _ & Hsa0).
  assert (i < length ca) as Hlt by by eapply lookup_lt_Some.
  destruct (lookup_lt_is_Some_2 sa i) as [x Hx]; [lia|].
  assert (sa0 !! i = Some x) as Hx0.
  { rewrite Hsa0 in Hx. by apply lookup_take_Some in Hx as [? _]. }
  apply mapM_Some in Hsm.
  destruct (Forall2_lookup_l _ _ _ _ _ Hsm Hx) as (r & Hr & Hrx).
  pose proof (b_reads _ _ _ _ _ _ _ _ HB) as Hcr.
  pose proof Hcr as (Hcf & Hcids & Hcm & Hfs & Hds)%reads_iff.
  apply mapM_Some in Hcm.
  destruct (Forall2_lookup_l _ _ _ _ _ Hcm Hi) as (r0 & Hr0 & Hr0').
  apply read_str_None in Hr0'. subst r0.
  assert (h0 !! cal = None) as Hcal0.
  { apply (b_fresh _ _ _ _ _ _ _ _ HB). apply elem_of_app. left.
    apply elem_of_plocs. eauto. }
  assert (is_Some (h0 !! sl)) as Hsl_old.
  { destruct Hs as (_ & Hs & _).
    destruct (proj1 (read_ids_Some _ _ _ _ Hsl) Hs) as (? & -> & _). eauto. }
  assert (compatible_model_count ce = length ca) as Hcount.
  { destruct (proj1 (read_ids_Some _ _ _ _ Hcal) Hcids) as (ca0 & Hca0 & Hle & Heq).
    assert (ca0 = ca) as -> by congruence.
    apply (f_equal length) in Heq. rewrite length_take in Heq. lia. }
  assert (sl ≠ cal) as Hslcal.
  { intros ->. destruct Hsl_old. congruence. }
  assert (building h0 σ0 c hc σc ce (<[i:=None]> ca)
            (set_vmodels (<[i:=None]> (v_models cv)) cv)) as HB0.
  { by rewrite !list_insert_id, set_vmodels_id by done. }
  unfold copy_element.
  apply wp_bind. eapply wp_arr_get; [done..|]. apply wp_bind.
  destruct x as [lx|]; simpl.
  - apply read_str_Some in Hrx as (str & -> & Hlx).
    apply wp_bind. eapply wp_load_str; [done|]. apply wp_malloc.
    + intros σ' ->. apply wp_bind. eapply wp_arr_set; [done..|].
      rewrite list_insert_id, insert_id by done.
      apply wp_bind. eapply wp_arr_get; [done..|].
      apply wp_bind. eapply wp_arr_get; [done..|].
      apply wp_bind. eapply building_free.
      { eapply building_sched; [exact HB|]. by intros ?%alloc_ok_false. }
      apply wp_ret, Hfail. intros Hok. by apply HB, alloc_ok_false in Hok.
    + intros l' Hl' Hok.
      assert (l' ≠ cal) as Hne1 by (intros ->; congruence).
      assert (l' ≠ sl) as Hne2 by (intros ->; congruence).
      assert (l' ≠ c) as Hne3.
      { intros ->. destruct HB. congruence. }
      assert (cal ≠ c) as Hne4.
      { apply (building_pointee_ne _ _ _ _ _ _ _ _ HB), elem_of_plocs. eauto. }
      apply wp_bind. eapply wp_arr_set; [by rewrite lookup_insert_ne|done|].
      apply wp_bind. eapply wp_arr_get; [by rewrite !lookup_insert_ne|done|].
      apply wp_bind. eapply wp_arr_get;
        [by rewrite lookup_insert_eq|by rewrite list_lookup_insert_eq|].
      apply wp_ret. apply (Hcont _ _ (Some l') (Some str));
        [|by rewrite lookup_insert_eq|done].
      assert (∀ p q, read_str hc p = Some q →
                read_str (<[cal:=BStrArr (<[i:=Some l']> ca)]> (<[l':=BStr str]> hc)) p
                = Some q) as Hkeep.
      { intros [l|] q Hq; [|done].
        apply read_str_Some in Hq as (sq & -> & Hq). simpl.
        rewrite !lookup_insert_ne by (intros ->; congruence). by rewrite Hq. }
      eapply (building_grow _ _ _ _ _ _ _ _ HB l'); [done| | | | |done].
      * by apply plocs_set_elem.
      * rewrite !lookup_insert_ne by done. apply HB.
      * apply reads_iff. split_and!; [|..|done|done].
        -- intros f. apply Hkeep, Hcf.
        -- apply (read_ids_Some _ _ _ _ Hcal). exists (<[i:=Some l']> ca).
           rewrite lookup_insert_eq, length_insert.
           split_and!; [done|lia|]. rewrite take_ge; [done|].
           rewrite length_insert. lia.
        -- apply mapM_Some. simpl. apply Forall2_insert; [|].
           ++ eapply Forall2_impl; [exact Hcm|]. intros p q. apply Hkeep.
           ++ simpl. rewrite lookup_insert_ne by done. by rewrite lookup_insert_eq.
      * intros l ? Hl. rewrite !lookup_insert_ne; [done|done|].
        intros <-. apply Hl, elem_of_app. left. apply elem_of_plocs. eauto.
  - apply read_str_None in Hrx. subst r. apply wp_ret.
    apply wp_bind. eapply wp_arr_set; [done..|].
    rewrite list_insert_id, insert_id by done.
    apply wp_bind. eapply wp_arr_get; [done..|].
    apply wp_bind. eapply wp_arr_get; [done..|].
    apply wp_ret. apply (Hcont _ _ None None); [done| |done].
    by rewrite list_insert_id.
Qed.

Lemma omap_replicate_None n : omap (λ p : ptr, p) (replicate n None) = [].
Proof. induction n; simpl; auto. Qed.

Lemma mapM_replicate_None h n :
  mapM (read_str h) (replicate n None) = Some (replicate n None).
Proof. apply mapM_Some, Forall2_replicate. done. Qed.

Lemma building_init h0 σ0 σ c :
  h0 !! c = None → (alloc_ok σ0 → alloc_ok σ) →
  building h0 σ0 c (<[c:=BEntry zero_entry]> h0) σ zero_entry [] zero_view.
Proof.
  intros Hc Hok. split; [by rewrite lookup_insert_eq| | | | |done].
  - apply reads_iff. split_and!; try done. by intros [].
  - apply NoDup_singleton.
  - intros l ->%list_elem_of_singleton. done.
  - intros l Hl. rewrite lookup_insert_ne; [done|]. intros <-. set_solver.
Qed.

Lemma building_scalars h0 σ0 c hc σc ce ca cv fs ds :
  building h0 σ0 c hc σc ce ca cv →
  building h0 σ0 c
    (<[c:=BEntry (set_default_scale ds (set_file_size fs ce))]> hc) σc
    (set_default_scale ds (set_file_size fs ce)) ca (set_vscalars fs ds cv).
Proof.
  intros HB. eapply (building_same _ _ _ _ _ _ _ _ HB); [done| | |].
  - by rewrite lookup_insert_eq.
  - pose proof (b_reads _ _ _ _ _ _ _ _ HB) as Hr.
    assert (reads (<[c:=BEntry (set_default_scale ds (set_file_size fs ce))]> hc)
                  ce ca cv) as Hr'.
    { eapply reads_agree; [done|]. intros l Hl.
      rewrite lookup_insert_ne; [done|]. intros <-.
      by eapply (building_pointee_ne _ _ _ _ _ _ _ _ HB). }
    apply reads_iff in Hr' as (Hf & Ha & Hm & _ & _).
    apply reads_iff. split_and!; done.
  - intros l Hl. rewrite lookup_insert_ne; [done|]. intros <-. set_solver.
Qed.

Lemma building_copied h0 σ0 c hc σc ce ca v :
  building h0 σ0 c hc σc ce ca v → copied h0 σ0 v (Some c) (Mem hc σc).
Proof.
  intros HB. split; [intros ?; split; [by apply HB|eauto]|].
  exists ce, ca. rewrite locs_of_plocs. split_and!; try apply HB.
  eapply building_rep, HB.
Qed.

Lemma copy_model_ids_spec h0 σ0 s se sa v c hc σc ce cv (Q : option unit → mem → Prop) :
  rep h0 s se sa v →
  building h0 σ0 c hc σc ce [] cv →
  compatible_model_ids ce = None → v_models cv = [] →
  (∀ σ', ¬ alloc_ok σ0 → Q (Some tt) (Mem h0 σ')) →
  (∀ hc' σc' ce' ca',
     building h0 σ0 c hc' σc' ce' ca' (set_vmodels (v_models v) cv) →
     file_size ce' = file_size ce → default_scale ce' = default_scale ce →
     Q None (Mem hc' σc')) →
  wp (copy_model_ids s c) Q (Mem hc σc).
Proof.
  intros Hs HB Hnoids Hnomodels Hfail Hcont.
  pose proof (building_src _ _ _ _ _ _ _ _ HB _ _ _ _ Hs) as (Hsc & Hsr).
  pose proof Hsr as (_ & Hsa & Hsm & _)%reads_iff.
  pose proof (Forall2_length _ _ _ (proj1 (mapM_Some _ _ _) Hsm)) as Hlen.
  unfold copy_model_ids. apply wp_bind. eapply wp_load_entry; [done|].
  assert (sa = [] → Q None (Mem hc σc)) as Hempty.
  { intros ->. apply (Hcont _ _ ce []); [|done..].
    destruct (v_models v); [|done]. rewrite <- Hnomodels. by rewrite set_vmodels_id. }
  destruct (compatible_model_ids se) as [sl|] eqn:Hsl;
    [|apply wp_ret, Hempty; by apply (read_ids_None hc se)].
  destruct (proj1 (read_ids_Some _ _ _ _ Hsl) Hsa) as (sa0 & Hsl0 & Hle & Hsa0).
  destruct (compatible_model_count se) as [|n'] eqn:Hn;
    [apply wp_ret, Hempty; by rewrite Hsa0|].
  set (n := S n') in *.
  assert (length sa = n) as Hsalen.
  { rewrite Hsa0, length_take. lia. }
  apply wp_bind. apply wp_malloc.
  - intros σ' ->. apply wp_bind. eapply building_free.
    { eapply building_sched; [exact HB|]. by intros ?%alloc_ok_false. }
    apply wp_ret, Hfail. intros Hok. by apply HB, alloc_ok_false in Hok.
  - intros cal Hcal Hok.
    assert (cal ≠ c) as Hne.
    { intros ->. destruct HB. congruence. }
    apply wp_bind. eapply wp_set_entry.
    { rewrite lookup_insert_ne by done. apply HB. }
    apply wp_bind. eapply wp_set_entry; [by rewrite lookup_insert_eq|].
    rewrite insert_insert_eq.
    set (ce' := set_count n (set_ids (Some cal) ce)).
    set (hc' := <[c:=BEntry ce']> (<[cal:=BStrArr (replicate n None)]> hc)).
    assert (∀ p q, read_str hc p = Some q → read_str hc' p = Some q) as Hkeep.
    { intros [l|] q Hq; [|done].
      apply read_str_Some in Hq as (sq & -> & Hq). simpl. unfold hc'.
      rewrite !lookup_insert_ne; [by rewrite Hq|congruence|].
      intros <-. destruct HB. congruence. }
    assert (building h0 σ0 c hc' (tail σc) ce' (replicate n None)
              (set_vmodels (replicate n None) cv)) as HB'.
    { eapply (building_grow _ _ _ _ _ _ _ _ HB cal); [done| | | | |done].
      - unfold plocs, ce'. simpl. rewrite omap_replicate_None. simpl.
        rewrite Hnoids. simpl. do 5 apply inserted_app_l. apply inserted_here.
      - unfold hc'. by rewrite lookup_insert_eq.
      - pose proof (b_reads _ _ _ _ _ _ _ _ HB) as (Hcf & _ & _ & Hfs & Hds)%reads_iff.
        apply reads_iff. split_and!; [|..|done|done].
        + intros f. specialize (Hcf f). apply Hkeep. by destruct f.
        + apply (read_ids_Some hc' ce' cal); [done|].
          exists (replicate n None). unfold hc'.
          rewrite lookup_insert_ne, lookup_insert_eq by done.
          rewrite length_replicate. split_and!; [done|done|].
          by rewrite take_ge by by rewrite length_replicate.
        + apply mapM_replicate_None.
      - intros l ? Hl. unfold hc'. rewrite !lookup_insert_ne; [done|done|].
        intros <-. set_solver. }
    assert (hc' !! cal = Some (BStrArr (replicate n None))) as Hcal'.
    { unfold hc'. by rewrite lookup_insert_ne, lookup_insert_eq. }
    clearbody hc'.
    apply (wp_for_loop (λ j m, ∃ hj σj ca,
       m = Mem hj σj ∧
       building h0 σ0 c hj σj ce' ca
         (set_vmodels (take j (v_models v) ++ replicate (n - j) None) cv) ∧
       hj !! cal = Some (BStrArr ca) ∧ length ca = n ∧
       ∀ k, j ≤ k < n → ca !! k = Some None)).
    + exists hc', (tail σc), (replicate n None). rewrite Nat.sub_0_r.
      split_and!; [done|done|done|by rewrite length_replicate|].
      intros k Hk. apply lookup_replicate. split; [done|lia].
    + intros j m [_ Hj] (hj & σj & ca & -> & HBj & Hcaj & Hlenj & Hnull).
      simpl in Hj.
      eapply (copy_element_spec _ _ _ _ _ _ _ _ _ _ _ _ _ _ j _ Hs Hsl HBj);
        [done|done|lia|apply Hnull; lia|intros σ' ?; by apply Hfail|].
      intros hj' σj' p r HBj' Hcaj' Hr.
      exists hj', σj', (<[j:=p]> ca). split_and!; [done| |done|by rewrite length_insert|].
      * replace (take (S j) (v_models v) ++ replicate (n - S j) None)
          with (<[j:=r]> (take j (v_models v) ++ replicate (n - j) None)); [done|].
        rewrite (take_S_r _ _ _ Hr), <- (assoc_L (++)). simpl.
        assert (length (take j (v_models v)) = j) as Hlj.
        { rewrite length_take. lia. }
        rewrite insert_app_r_alt by lia. rewrite Hlj, Nat.sub_diag.
        replace (n - j) with (S (n - S j)) by lia. done.
      * intros k Hk. rewrite list_lookup_insert_ne by lia. apply Hnull. lia.
    + intros m (hj & σj & ca & -> & HBj & _). simpl in HBj.
      rewrite Nat.sub_diag, app_nil_r, take_ge in HBj by lia.
      by apply (Hcont _ _ _ _ HBj).
Qed.

Lemma deep_copy_spec h0 σ0 s se sa v (Q : ptr → mem → Prop) :
  rep h0 s se sa v →
  (∀ r m', copied h0 σ0 v r m' → Q r m') →
  wp (deep_copy_lora_entry (Some s)) Q (Mem h0 σ0).
Proof.
  intros Hs HQ.
  assert (∀ σ', ¬ alloc_ok σ0 → Q None (Mem h0 σ')) as Hfail.
  { intros σ' Hno. apply HQ. split; [done|done]. }
  unfold deep_copy_lora_entry. apply wp_bind, wp_malloc.
  { intros σ' ->. apply wp_ret, Hfail, alloc_ok_false. }
  intros c Hc Hok.
  pose proof (building_init h0 σ0 (tail σ0) c Hc Hok) as HB0.
  apply wp_bind. eapply copy_sfield_spec; [done..|]. intros h1 σ1 p1 r1 HB1 Hr1.
  apply wp_bind. eapply copy_sfield_spec; [done..|]. intros h2 σ2 p2 r2 HB2 Hr2.
  apply wp_bind. eapply copy_sfield_spec; [done..|]. intros h3 σ3 p3 r3 HB3 Hr3.
  apply wp_bind. eapply copy_sfield_spec; [done..|]. intros h4 σ4 p4 r4 HB4 Hr4.
  apply wp_bind. eapply copy_sfield_spec; [done..|]. intros h5 σ5 p5 r5 HB5 Hr5.
  simpl in *.
  apply wp_bind. eapply lost_spec; [done..|]. intros lost Hlost. simpl in Hlost.
  destruct lost.
  - apply wp_bind. eapply building_free; [done|]. apply wp_ret, Hfail.
    intros Hok0. destruct (proj1 Hlost eq_refl) as (f & [x Hx] & Hnone).
    destruct f; simpl in *;
      [destruct Hr1 as [?|[_ ?]]|destruct Hr2 as [?|[_ ?]]|destruct Hr3 as [?|[_ ?]]
      |destruct Hr4 as [?|[_ ?]]|destruct Hr5 as [?|[_ ?]]]; (congruence || done).
  - assert (∀ f, ¬ (is_Some (get_vs f v) ∧
                    get_vs f (View r1 r2 r3 r4 r5 [] 0 0) = None)) as Hkept.
    { intros f Hf. by pose proof (proj2 Hlost (ex_intro _ f Hf)). }
    assert (r1 = v_id v ∧ r2 = v_name v ∧ r3 = v_description v ∧
            r4 = v_download_url v ∧ r5 = v_filename v) as (-> & -> & -> & -> & ->).
    { pose proof (Hkept Fid). pose proof (Hkept Fname).
      pose proof (Hkept Fdescription). pose proof (Hkept Fdownload_url).
      pose proof (Hkept Ffilename). simpl in *.
      split_and!;
        match goal with
        | |- ?r = ?x =>
          match goal with
          | H : r = x ∨ _ |- _ =>
            destruct H as [?|[-> _]]; [done|]; destruct x; [naive_solver|done]
          end
        end. }
    clear Hr1 Hr2 Hr3 Hr4 Hr5 Hlost Hkept.
    apply wp_bind. eapply copy_model_ids_spec; [done..|].
    intros h6 σ6 ce6 ca6 HB6 Hfs6 Hds6. simpl in *.
    pose proof (building_src _ _ _ _ _ _ _ _ HB6 _ _ _ _ Hs) as (Hsc & Hsr).
    apply wp_bind. eapply wp_load_entry; [done|].
    apply wp_bind. eapply wp_set_entry; [apply HB6|].
    apply wp_bind. eapply wp_set_entry; [by rewrite lookup_insert_eq|].
    rewrite insert_insert_eq. apply wp_ret, HQ.
    apply reads_iff in Hsr as (_ & _ & _ & <- & <-).
    eapply building_copied.
    apply (building_scalars _ _ _ _ _ _ _ _ (v_file_size v) (v_default_scale v)) in HB6.
    match type of HB6 with
    | building _ _ _ _ _ _ _ ?x => replace x with v in HB6 by (by destruct v)
    end.
    exact HB6.
Qed.

Lemma bind_Some {A B} (c : M A) (k : A → M B) m x :
  bind c k m = Some x ↔ ∃ a m1, c m = Some (a, m1) ∧ k a m1 = Some x.
Proof.
  unfold bind. destruct (c m) as [[a m1]|]; naive_solver.
Qed.

Lemma ret_Some {A} (a : A) m x : ret a m = Some x ↔ x = (a, m).
Proof. unfold ret. naive_solver. Qed.

Lemma load_Some l m x : load l m = Some x ↔ ∃ b, heap m !! l = Some b ∧ x = (b, m).
Proof. unfold load. destruct (heap m !! l); naive_solver. Qed.

Lemma load_entry_Some l m x :
  load_entry l m = Some x ↔ ∃ e, heap m !! l = Some (BEntry e) ∧ x = (e, m).
Proof.
  unfold load_entry. rewrite bind_Some. split.
  - intros (b & m1 & (b' & Hb & [= <- <-])%load_Some & Hk).
    destruct b; try done. apply ret_Some in Hk. eauto.
  - intros (e & He & ->). exists (BEntry e), m. split; [|done].
    apply load_Some. eauto.
Qed.

Lemma load_str_Some l m x :
  load_str l m = Some x ↔ ∃ s, heap m !! l = Some (BStr s) ∧ x = (s, m).
Proof.
  unfold load_str. rewrite bind_Some. split.
  - intros (b & m1 & (b' & Hb & [= <- <-])%load_Some & Hk).
    destruct b; try done. apply ret_Some in Hk. eauto.
  - intros (e & He & ->). exists (BStr e), m. split; [|done].
    apply load_Some. eauto.
Qed.

Lemma read_entry_rep' h c v : read_entry h c = Some v → ∃ e a, rep h c e a v.
Proof. apply read_entry_rep. Qed.

(** A failed copy leaves the heap as it was. *)
Lemma deep_copy_null h σ s v m' :
  read_entry h s = Some v →
  deep_copy_lora_entry (Some s) (Mem h σ) = Some (None, m') →
  heap m' = h ∧ ¬ alloc_ok σ.
Proof.
  intros (e & a & Hrep)%read_entry_rep Hrun.
  eapply (wp_run _ (copied h σ v)) in Hrun.
  - destruct Hrun as [Hok Hh]. split; [done|].
    intros [_ [? ?]]%Hok. done.
  - eapply deep_copy_spec; [done|]. auto.
Qed.

(** [register] reports out-of-memory only when the copy failed. *)
Lemma register_oom hd en m m' :
  rac_lora_registry_register (Some hd) (Some en) m = Some (RAC_ERROR_OUT_OF_MEMORY, m') →
  deep_copy_lora_entry (Some en) m = Some (None, m').
Proof.
  unfold rac_lora_registry_register.
  intros (e & m1 & (e' & He & [= <- <-])%load_entry_Some & Hk)%bind_Some.
  destruct (id e) as [idl|]; [|by apply ret_Some in Hk].
  apply bind_Some in Hk as (k & m2 & (s & Hs & [= <- <-])%load_str_Some & Hk).
  apply bind_Some in Hk as ([c|] & m3 & Hcopy & Hk).
  - exfalso. repeat (apply bind_Some in Hk as (? & ? & _ & Hk)).
    by apply ret_Some in Hk.
  - by apply ret_Some in Hk as [= <-].
Qed.

(** ** The registry *)

Lemma owned_rep h c :
  owned h c ↔ ∃ e a v, rep h c e a v ∧ NoDup (locs_of c e a).
Proof.
  unfold owned. split.
  - intros [[v (e & a & Hrep)%read_entry_rep] Hnd].
    rewrite (entry_locs_rep _ _ _ _ _ Hrep) in Hnd. eauto 10.
  - intros (e & a & v & Hrep & Hnd).
    rewrite (entry_locs_rep _ _ _ _ _ Hrep). split; [|done].
    exists v. apply read_entry_rep. eauto.
Qed.

Lemma rep_read_entry h c e a v : rep h c e a v → read_entry h c = Some v.
Proof. intros. apply read_entry_rep. eauto. Qed.

Lemma rep_inj h c e a v e' a' v' :
  rep h c e a v → rep h c e' a' v' → e' = e ∧ a' = a ∧ v' = v.
Proof.
  intros (Hc & Ha & Hr) (Hc' & Ha' & Hr').
  assert (e' = e) as -> by congruence.
  split_and!; congruence.
Qed.

(** What [reg_ok] gives for a stored entry. *)
Lemma reg_ok_entry h hd entries k c :
  reg_ok h hd → reg_entries h hd = Some entries → entries !! k = Some c →
  ∃ e a v, rep h c e a v ∧ NoDup (locs_of c e a) ∧ (hd ∉ locs_of c e a) ∧
           v_id v = Some k.
Proof.
  intros (entries' & Hreg & Hown & _) Hreg' Hk.
  assert (entries' = entries) as -> by congruence.
  destruct (Hown _ _ Hk) as (Howned & Hhd & v & Hv & Hid).
  apply owned_rep in Howned as (e & a & v' & Hrep & Hnd).
  assert (v' = v) as ->.
  { apply rep_read_entry in Hrep. congruence. }
  rewrite (entry_locs_rep _ _ _ _ _ Hrep) in Hhd. eauto 10.
Qed.

Lemma reg_entries_Some h hd entries :
  reg_entries h hd = Some entries ↔ h !! hd = Some (BRegistry entries).
Proof.
  unfold reg_entries. destruct (h !! hd) as [[]|]; naive_solver.
Qed.

Lemma reg_ok_disjoint h hd entries k1 k2 c1 c2 l :
  reg_ok h hd → reg_entries h hd = Some entries →
  k1 ≠ k2 → entries !! k1 = Some c1 → entries !! k2 = Some c2 →
  l ∈ entry_locs h c1 → l ∉ entry_locs h c2.
Proof.
  intros (entries' & Hreg & _ & Hdisj) Hreg' Hne H1 H2.
  assert (entries' = entries) as -> by congruence. eauto.
Qed.

Lemma wp_free_old h σ hd entries k (Q : unit → mem → Prop) :
  reg_ok h hd → reg_entries h hd = Some entries →
  Q tt (Mem (free_all (from_option (entry_locs h) [] (entries !! k)) h) σ) →
  wp (match entries !! k with
      | Some old => free_lora_entry (Some old)
      | None => ret tt
      end) Q (Mem h σ).
Proof.
  intros Hok Hreg HQ. destruct (entries !! k) as [old|] eqn:Hk; simpl in *.
  - destruct (reg_ok_entry _ _ _ _ _ Hok Hreg Hk) as (e & a & v & Hrep & Hnd & _).
    rewrite (entry_locs_rep _ _ _ _ _ Hrep) in HQ.
    by eapply free_lora_entry_spec.
  - by apply wp_ret.
Qed.

Lemma rep_stable h h' c e a v :
  rep h c e a v → (∀ l, l ∈ locs_of c e a → h' !! l = h !! l) →
  rep h' c e a v ∧ entry_locs h' c = locs_of c e a ∧ read_entry h' c = Some v.
Proof.
  intros Hrep Hag. pose proof (rep_agree _ _ _ _ _ _ Hrep Hag) as Hrep'.
  split_and!; [done|by eapply entry_locs_rep|by eapply rep_read_entry].
Qed.

(** The registry does not depend on blocks it does not own. *)
Lemma reg_ok_agree h h' hd entries :
  reg_ok h hd → reg_entries h hd = Some entries →
  (∀ l, reg_owns h hd l → h' !! l = h !! l) →
  reg_ok h' hd ∧ reg_entries h' hd = Some entries ∧
  ∀ k c, entries !! k = Some c →
         entry_locs h' c = entry_locs h c ∧ read_entry h' c = read_entry h c.
Proof.
  intros Hok Hreg Hag.
  assert (reg_entries h' hd = Some entries) as Hreg'.
  { apply reg_entries_Some. rewrite Hag by by left. by apply reg_entries_Some. }
  assert (∀ k c, entries !! k = Some c →
            entry_locs h' c = entry_locs h c ∧ read_entry h' c = read_entry h c) as Hsame.
  { intros k c Hk.
    destruct (reg_ok_entry _ _ _ _ _ Hok Hreg Hk) as (e & a & v & Hrep & _).
    destruct (rep_stable h h' _ _ _ _ Hrep) as (_ & -> & ->).
    - intros l Hl. apply Hag. right. exists entries, k, c.
      by rewrite (entry_locs_rep _ _ _ _ _ Hrep).
    - by rewrite (entry_locs_rep _ _ _ _ _ Hrep), (rep_read_entry _ _ _ _ _ Hrep). }
  split_and!; [|done..].
  exists entries. split; [done|]. split.
  - intros k c Hk. destruct (Hsame _ _ Hk) as [Hl Hr].
    destruct Hok as (entries' & Hreg'' & Hown & _).
    assert (entries' = entries) as -> by congruence.
    destruct (Hown _ _ Hk) as ([Hs Hnd] & Hhd & Hv).
    unfold owned. rewrite Hl, Hr. done.
  - intros k1 k2 c1 c2 Hne H1 H2 l.
    destruct (Hsame _ _ H1) as [-> _]. destruct (Hsame _ _ H2) as [-> _].
    by eapply reg_ok_disjoint.
Qed.

Lemma reg_owns_present h hd entries l :
  reg_ok h hd → reg_entries h hd = Some entries → reg_owns h hd l → is_Some (h !! l).
Proof.
  intros Hok Hreg [->|(entries' & k & c & Hreg' & Hk & Hl)].
  - apply reg_entries_Some in Hreg. eauto.
  - assert (entries' = entries) as -> by congruence.
    destruct (reg_ok_entry _ _ _ _ _ Hok Hreg Hk) as (e & a & v & Hrep & _).
    rewrite (entry_locs_rep _ _ _ _ _ Hrep) in Hl. by eapply rep_present.
Qed.

Lemma register_spec_exact h σ hd en se sa v k (Q : rac_result_t → mem → Prop) :
  reg_ok h hd → rep h en se sa v → v_id v = Some k →
  (∀ m', heap m' = h → ¬ alloc_ok σ → Q RAC_ERROR_OUT_OF_MEMORY m') →
  (∀ m' entries c,
     reg_entries h hd = Some entries →
     reg_entries (heap m') hd = Some (<[k:=c]> entries) →
     reg_ok (heap m') hd →
     read_entry (heap m') c = Some v →
     (∀ k' c', k' ≠ k → entries !! k' = Some c' →
               read_entry (heap m') c' = read_entry h c') →
     (∀ l, is_Some (h !! l) → ¬ reg_owns h hd l → heap m' !! l = h !! l) →
     (∀ l, reg_owns (heap m') hd l → reg_owns h hd l ∨ h !! l = None) →
     (alloc_ok σ → alloc_ok (sched m')) →
     (∀ l, l ∈ entry_locs (heap m') c → h !! l = None) →
     (∀ l, l ≠ hd → l ∉ entry_locs (heap m') c →
           (∀ old, entries !! k = Some old → l ∉ entry_locs h old) →
           heap m' !! l = h !! l) →
     Q RAC_SUCCESS m') →
  wp (rac_lora_registry_register (Some hd) (Some en)) Q (Mem h σ).
Proof.
  intros Hok Hen Hid Hoom Hsucc.
  pose proof Hok as (entries & Hreg & _).
  pose proof Hen as (Henc & (Hf & _)%reads_iff).
  specialize (Hf Fid). simpl in Hf. rewrite Hid in Hf.
  unfold rac_lora_registry_register.
  apply wp_bind. eapply wp_load_entry; [done|].
  destruct (id se) as [idl|]; [|done].
  apply read_str_Some in Hf as (k' & [= <-] & Hidl).
  apply wp_bind. eapply wp_load_str; [done|].
  apply wp_bind. eapply deep_copy_spec; [done|].
  intros [c|] [h1 σ1] [Hsched Hcopy]; simpl in *;
    [|apply wp_ret, Hoom; [done|]; by intros [_ [? ?]]%Hsched].
  destruct Hcopy as (e & a & Hrep & Hnd & Hfresh & Hframe).
  assert (∀ l, is_Some (h !! l) → h1 !! l = h !! l) as Hold.
  { intros l [b Hb]. apply Hframe. intros ?%Hfresh. congruence. }
  destruct (reg_ok_agree h h1 hd entries Hok Hreg) as (Hok1 & Hreg1 & Hsame1).
  { intros l Hl. apply Hold. by eapply reg_owns_present. }
  apply wp_bind. eapply wp_load_registry; [by apply reg_entries_Some|].
  apply wp_bind. eapply wp_free_old; [done..|].
  set (F := from_option (entry_locs h1) [] (entries !! k)).
  assert (∀ l, l ∈ F → ∃ old, entries !! k = Some old ∧ l ∈ entry_locs h old) as HF.
  { unfold F. intros l Hl. destruct (entries !! k) as [old|] eqn:Hk; [|set_solver].
    simpl in Hl. exists old. split; [done|].
    by destruct (Hsame1 _ _ Hk) as [<- _]. }
  assert (∀ l, l ∈ F → reg_owns h hd l ∧ l ≠ hd) as HFown.
  { intros l (old & Hk & Hl)%HF. split; [right; eauto 10|].
    intros ->. destruct (reg_ok_entry _ _ _ _ _ Hok Hreg Hk) as (eo & ao & vo & Hro & _ & Hhd & _).
    by rewrite (entry_locs_rep _ _ _ _ _ Hro) in Hl. }
  clearbody F.
  assert (hd ∉ F) as HhdF by (intros [_ ?]%HFown; done).
  apply wp_bind. eapply wp_load_registry.
  { rewrite lookup_free_all_notin by done. by apply reg_entries_Some. }
  apply wp_bind. apply wp_store.
  { rewrite lookup_free_all_notin by done. apply reg_entries_Some in Hreg1. eauto. }
  apply wp_ret.
  set (h2 := <[hd:=BRegistry (<[k:=c]> entries)]> (free_all F h1)).
  assert (∀ l, l ≠ hd → l ∉ F → h2 !! l = h1 !! l) as Hh2.
  { intros l ? ?. unfold h2. by rewrite lookup_insert_ne, lookup_free_all_notin. }
  assert (∀ l, l ∈ locs_of c e a → l ≠ hd ∧ l ∉ F) as Hnew.
  { intros l Hl%Hfresh. split.
    - intros ->. apply reg_entries_Some in Hreg. congruence.
    - intros [Hown _]%HFown.
      destruct (reg_owns_present _ _ _ _ Hok Hreg Hown). congruence. }
  destruct (rep_stable h1 h2 _ _ _ _ Hrep) as (Hrep2 & Hlocs2 & Hread2).
  { intros l [? ?]%Hnew. by apply Hh2. }
  assert (∀ k' c', k' ≠ k → entries !! k' = Some c' →
            entry_locs h2 c' = entry_locs h c' ∧ read_entry h2 c' = read_entry h c') as Hother.
  { intros k' c' Hne Hk'.
    destruct (reg_ok_entry _ _ _ _ _ Hok Hreg Hk') as (e' & a' & v' & Hrep' & _ & Hhd' & _).
    destruct (Hsame1 _ _ Hk') as [Hl1 Hr1].
    rewrite <- Hl1, <- Hr1.
    destruct (rep_stable h h1 _ _ _ _ Hrep') as (Hrep1 & Hl1' & Hr1').
    { intros l Hl. apply Hold. by eapply rep_present. }
    destruct (rep_stable h1 h2 _ _ _ _ Hrep1) as (_ & -> & ->).
    - intros l Hl. apply Hh2; [by intros ->|].
      intros (old & Hk & Hlo)%HF.
      eapply (reg_ok_disjoint h hd entries k k'); [done..| |]; [exact Hlo|].
      by rewrite (entry_locs_rep _ _ _ _ _ Hrep').
    - by rewrite Hl1', Hr1'. }
  apply (Hsucc (Mem h2 σ1) entries c); simpl;
    [done| | |done| | | |by intros [? _]%Hsched| |].
  - apply reg_entries_Some. unfold h2. by rewrite lookup_insert_eq.
  - exists (<[k:=c]> entries). split; [apply reg_entries_Some; unfold h2;
                                       by rewrite lookup_insert_eq|].
    split.
    + intros k' c' Hk'. destruct (decide (k' = k)) as [->|Hne].
      * rewrite lookup_insert_eq in Hk'. injection Hk' as <-.
        split_and!.
        -- apply owned_rep. eauto 10.
        -- rewrite Hlocs2. by intros [? _]%Hnew.
        -- exists v. done.
      * rewrite lookup_insert_ne in Hk' by done.
        destruct (Hother _ _ Hne Hk') as [Hl Hr].
        destruct Hok as (entries' & Hreg'' & Hown & _).
        assert (entries' = entries) as -> by congruence.
        destruct (Hown _ _ Hk') as ([Hs Hnd'] & Hhd & Hv).
        unfold owned. rewrite Hl, Hr. done.
    + intros k1 k2 c1 c2 Hne H1 H2 l Hl1 Hl2.
      assert (∀ k' c', k' ≠ k → entries !! k' = Some c' →
                l ∈ entry_locs h2 c' → is_Some (h !! l)) as Hpres.
      { intros k' c' Hne' Hk' Hl. destruct (Hother _ _ Hne' Hk') as [Hlo _].
        rewrite Hlo in Hl. eapply reg_owns_present; [done..|]. right. eauto 10. }
      destruct (decide (k1 = k)) as [->|Hne1]; destruct (decide (k2 = k)) as [->|Hne2];
        [done|..].
      * rewrite lookup_insert_eq in H1. injection H1 as <-.
        rewrite lookup_insert_ne in H2 by done.
        rewrite Hlocs2 in Hl1. apply Hfresh in Hl1.
        destruct (Hpres _ _ Hne2 H2 Hl2). congruence.
      * rewrite lookup_insert_eq in H2. injection H2 as <-.
        rewrite lookup_insert_ne in H1 by done.
        rewrite Hlocs2 in Hl2. apply Hfresh in Hl2.
        destruct (Hpres _ _ Hne1 H1 Hl1). congruence.
      * rewrite lookup_insert_ne in H1, H2 by done.
        destruct (Hother _ _ Hne1 H1) as [Hlo1 _].
        destruct (Hother _ _ Hne2 H2) as [Hlo2 _].
        rewrite Hlo1 in Hl1. rewrite Hlo2 in Hl2.
        by eapply (reg_ok_disjoint h hd entries k1 k2).
  - intros k' c' Hne Hk'. by destruct (Hother _ _ Hne Hk') as [_ ?].
  - intros l Hl Hno. rewrite Hh2; [by apply Hold| |].
    + intros ->. apply Hno. by left.
    + intros [? _]%HFown. done.
  - intros l [->|(entries2 & k' & c' & Hreg2 & Hk' & Hl)]; [left; by left|].
    apply reg_entries_Some in Hreg2. unfold h2 in Hreg2.
    rewrite lookup_insert_eq in Hreg2. injection Hreg2 as <-.
    destruct (decide (k' = k)) as [->|Hne].
    + rewrite lookup_insert_eq in Hk'. injection Hk' as <-.
      right. apply Hfresh. by rewrite <- Hlocs2.
    + rewrite lookup_insert_ne in Hk' by done.
      destruct (Hother _ _ Hne Hk') as [Hlo _]. rewrite Hlo in Hl.
      left. right. eauto 10.
  - intros l Hl. apply Hfresh. by rewrite <- Hlocs2.
  - intros l Hhd Hc Hno. rewrite Hh2; [|done|].
    + apply Hframe. by rewrite <- Hlocs2.
    + intros (old & Hk & Hl)%HF. by apply (Hno old).
Qed.

Lemma register_spec_full h σ hd en se sa v k (Q : rac_result_t → mem → Prop) :
  reg_ok h hd → rep h en se sa v → v_id v = Some k →
  (∀ m', heap m' = h → ¬ alloc_ok σ → Q RAC_ERROR_OUT_OF_MEMORY m') →
  (∀ m' entries c,
     reg_entries h hd = Some entries →
     reg_entries (heap m') hd = Some (<[k:=c]> entries) →
     reg_ok (heap m') hd →
     read_entry (heap m') c = Some v →
     (∀ k' c', k' ≠ k → entries !! k' = Some c' →
               read_entry (heap m') c' = read_entry h c') →
     (∀ l, is_Some (h !! l) → ¬ reg_owns h hd l → heap m' !! l = h !! l) →
     (∀ l, reg_owns (heap m') hd l → reg_owns h hd l ∨ h !! l = None) →
     (alloc_ok σ → alloc_ok (sched m')) →
     Q RAC_SUCCESS m') →
  wp (rac_lora_registry_register (Some hd) (Some en)) Q (Mem h σ).
Proof.
  intros Hok Hen Hid Hoom Hsucc. eapply register_spec_exact; [done..|].
  intros m' entries c ? ? ? ? ? ? ? ? _ _. by eapply Hsucc.
Qed.

Lemma register_spec h σ hd en se sa v k (Q : rac_result_t → mem → Prop) :
  reg_ok h hd → rep h en se sa v → v_id v = Some k →
  (∀ m', heap m' = h → ¬ alloc_ok σ → Q RAC_ERROR_OUT_OF_MEMORY m') →
  (∀ m' entries c,
     reg_entries h hd = Some entries →
     reg_entries (heap m') hd = Some (<[k:=c]> entries) →
     reg_ok (heap m') hd →
     read_entry (heap m') c = Some v →
     (∀ l, is_Some (h !! l) → ¬ reg_owns h hd l → heap m' !! l = h !! l) →
     (∀ l, reg_owns (heap m') hd l → reg_owns h hd l ∨ h !! l = None) →
     (alloc_ok σ → alloc_ok (sched m')) →
     Q RAC_SUCCESS m') →
  wp (rac_lora_registry_register (Some hd) (Some en)) Q (Mem h σ).
Proof.
  intros Hok Hen Hid Hoom Hsucc. eapply register_spec_full; [done..|].
  intros m' entries c ? ? ? ? _ ? ? ?. by eapply Hsucc.
Qed.

Lemma in_order_perm (entries : gmap string loc) : in_order entries ≡ₚ map_to_list entries.
Proof. apply merge_sort_Permutation. Qed.

Lemma elem_of_in_order (entries : gmap string loc) k c :
  (k, c) ∈ in_order entries ↔ entries !! k = Some c.
Proof. rewrite in_order_perm. apply elem_of_map_to_list. Qed.

Lemma NoDup_in_order_keys (entries : gmap string loc) : NoDup (in_order entries).*1.
Proof. rewrite in_order_perm. apply NoDup_fst_map_to_list. Qed.

Lemma Forall2_elem_impl {A B} (P Q : A → B → Prop) l k :
  Forall2 P l k → (∀ x y, x ∈ l → P x y → Q x y) → Forall2 Q l k.
Proof.
  induction 1 as [|x y l k HP _ IH]; intros HPQ; constructor.
  - apply HPQ; [set_solver|done].
  - apply IH. intros x' y' ?. apply HPQ. set_solver.
Qed.

Lemma stored_views_ok h hd entries :
  reg_ok h hd → reg_entries h hd = Some entries →
  ∃ ws, stored_views h hd = Some ws ∧
        Forall2 (λ kc w, read_entry h kc.2 = Some w ∧ v_id w = Some kc.1)
                (in_order entries) ws.
Proof.
  intros Hok Hreg. unfold stored_views. rewrite Hreg. simpl.
  assert (∀ kc, kc ∈ in_order entries →
            ∃ w, read_entry h kc.2 = Some w ∧ v_id w = Some kc.1) as Hall.
  { intros [k c] Hin%elem_of_in_order.
    destruct (reg_ok_entry _ _ _ _ _ Hok Hreg Hin) as (e & a & v & Hrep & _ & _ & Hid).
    exists v. split; [by eapply rep_read_entry|done]. }
  destruct (mapM (read_entry h) (in_order entries).*2) as [ws|] eqn:Hm.
  - exists ws. split; [done|]. apply mapM_Some in Hm.
    apply Forall2_fmap_l in Hm.
    eapply Forall2_elem_impl; [exact Hm|].
    intros kc w Hin Hr. destruct (Hall _ Hin) as (w' & Hr' & Hid).
    simpl in *. split; [done|]. congruence.
  - exfalso. apply mapM_None, Exists_exists in Hm as (c & Hin & Hnone).
    apply list_elem_of_fmap in Hin as (kc & -> & Hin).
    destruct (Hall _ Hin) as (w & Hw & _). congruence.
Qed.

Lemma filter_key_none {A} (L : list (string * A)) k :
  k ∉ L.*1 → filter (λ kc, kc.1 = k) L = [].
Proof.
  induction L as [|[k' c'] L IH]; intros Hk; [done|].
  simpl in Hk. rewrite filter_cons_False; [apply IH|]; set_solver.
Qed.

Lemma count_key {A} (L : list (string * A)) k c :
  NoDup L.*1 → (k, c) ∈ L → length (filter (λ kc, kc.1 = k) L) = 1.
Proof.
  induction L as [|[k' c'] L IH]; intros Hnd Hin; [set_solver|].
  simpl in Hnd. apply NoDup_cons in Hnd as [Hk' Hnd].
  destruct (decide (k' = k)) as [->|Hne].
  - rewrite filter_cons_True by done. by rewrite filter_key_none.
  - rewrite filter_cons_False by done. apply IH; [done|].
    apply elem_of_cons in Hin as [[= ? ?]|?]; [congruence|done].
Qed.

Lemma count_id (L : list (string * loc)) (ws : list lora_view) k :
  Forall2 (λ kc w, v_id w = Some kc.1) L ws →
  length (filter (λ w, v_id w = Some k) ws) = length (filter (λ kc, kc.1 = k) L).
Proof.
  induction 1 as [|kc w L ws Hid _ IH]; [done|].
  rewrite !filter_cons. rewrite Hid.
  destruct (decide (kc.1 = k)) as [->|Hne].
  - rewrite decide_True by done. simpl. by rewrite IH.
  - rewrite decide_False by congruence. done.
Qed.

Lemma get_spec h σ hd kp key entries (Q : rac_result_t * option ptr → mem → Prop) :
  reg_ok h hd → reg_entries h hd = Some entries → h !! kp = Some (BStr key) →
  (entries !! key = None → Q (RAC_ERROR_NOT_FOUND, None) (Mem h σ)) →
  (∀ it v r m', entries !! key = Some it → read_entry h it = Some v →
     copied h σ v r m' →
     Q (match r with
        | None => (RAC_ERROR_OUT_OF_MEMORY, Some None)
        | Some c => (RAC_SUCCESS, Some (Some c))
        end) m') →
  wp (rac_lora_registry_get (Some hd) (Some kp) true) Q (Mem h σ).
Proof.
  intros Hok Hreg Hkp Hnone Hsome. unfold rac_lora_registry_get.
  apply wp_bind. eapply wp_load_str; [done|].
  apply wp_bind. eapply wp_load_registry; [by apply reg_entries_Some|].
  destruct (entries !! key) as [it|] eqn:Hit; [|by apply wp_ret, Hnone].
  destruct (reg_ok_entry _ _ _ _ _ Hok Hreg Hit) as (e & a & v & Hrep & _).
  apply wp_bind. eapply deep_copy_spec; [done|].
  intros r m' Hc. pose proof (Hsome it v r m' eq_refl (rep_read_entry _ _ _ _ _ Hrep) Hc).
  destruct r; by apply wp_ret.
Qed.

(** An entry of the caller is untouched by a successful registration. *)
Lemma foreign_stable h h' hd s v :
  read_entry h s = Some v → foreign h hd s →
  (∀ l, is_Some (h !! l) → ¬ reg_owns h hd l → h' !! l = h !! l) →
  (∀ l, reg_owns h' hd l → reg_owns h hd l ∨ h !! l = None) →
  read_entry h' s = Some v ∧ foreign h' hd s.
Proof.
  intros (e & a & Hrep)%read_entry_rep Hfor Hframe Hown.
  unfold foreign in *. rewrite (entry_locs_rep _ _ _ _ _ Hrep) in Hfor.
  destruct (rep_stable h h' _ _ _ _ Hrep) as (Hrep' & Hlocs & Hread).
  { intros l Hl. apply Hframe; [by eapply rep_present|by apply Hfor]. }
  split; [done|]. rewrite Hlocs. intros l Hl [Ho|Hn]%Hown.
  - by apply (Hfor l).
  - destruct (rep_present _ _ _ _ _ l Hrep Hl). congruence.
Qed.

Lemma register_success h σ hd en v k m' :
  reg_ok h hd → read_entry h en = Some v → v_id v = Some k →
  rac_lora_registry_register (Some hd) (Some en) (Mem h σ) = Some (RAC_SUCCESS, m') →
  ∃ entries c,
    reg_entries h hd = Some entries ∧
    reg_entries (heap m') hd = Some (<[k:=c]> entries) ∧
    reg_ok (heap m') hd ∧
    read_entry (heap m') c = Some v ∧
    (∀ l, is_Some (h !! l) → ¬ reg_owns h hd l → heap m' !! l = h !! l) ∧
    (∀ l, reg_owns (heap m') hd l → reg_owns h hd l ∨ h !! l = None).
Proof.
  intros Hok (e & a & Hrep)%read_entry_rep Hid Hrun.
  assert (wp (rac_lora_registry_register (Some hd) (Some en))
            (λ r m', r = RAC_SUCCESS → ∃ entries c,
               reg_entries h hd = Some entries ∧
               reg_entries (heap m') hd = Some (<[k:=c]> entries) ∧
               reg_ok (heap m') hd ∧
               read_entry (heap m') c = Some v ∧
               (∀ l, is_Some (h !! l) → ¬ reg_owns h hd l → heap m' !! l = h !! l) ∧
               (∀ l, reg_owns (heap m') hd l → reg_owns h hd l ∨ h !! l = None))
            (Mem h σ)) as Hwp.
  { eapply register_spec; [done..| |].
    - intros ? _ _ [=].
    - intros m2 entries c ? ? ? ? ? ? _ _. exists entries, c. done. }
  exact (wp_run _ _ _ _ _ Hwp Hrun eq_refl).
Qed.

(** C3: after two successful registrations under one id, the registry
    holds exactly one entry with that id, and a lookup of the id hands out
    a copy that reads, field for field, as the entry registered last (or,
    when an allocation of the lookup's own copy fails, reports
    out-of-memory and leaves the heap as it was). *)
Theorem C3_register_twice_keeps_last h hd en en' v v' k kp σ1 σ2 σ3 m1 m2 :
  reg_ok h hd →
  read_entry h en = Some v → read_entry h en' = Some v' →
  foreign h hd en' →
  v_id v = Some k → v_id v' = Some k →
  rac_lora_registry_register (Some hd) (Some en) (Mem h σ1) = Some (RAC_SUCCESS, m1) →
  rac_lora_registry_register (Some hd) (Some en') (Mem (heap m1) σ2)
    = Some (RAC_SUCCESS, m2) →
  heap m2 !! kp = Some (BStr k) →
  (∃ ws, stored_views (heap m2) hd = Some ws ∧
         length (filter (λ w, v_id w = Some k) ws) = 1) ∧
  ∃ res m3,
    rac_lora_registry_get (Some hd) (Some kp) true (Mem (heap m2) σ3) = Some (res, m3) ∧
    match res with
    | (RAC_SUCCESS, Some (Some c)) => read_entry (heap m3) c = Some v'
    | (RAC_ERROR_OUT_OF_MEMORY, Some None) => ¬ alloc_ok σ3 ∧ heap m3 = heap m2
    | _ => False
    end.
Proof.
  intros Hok Hen Hen' Hfor Hid Hid' Hrun1 Hrun2 Hkp.
  destruct (register_success _ _ _ _ _ _ _ Hok Hen Hid Hrun1)
    as (entries & c1 & Hreg & Hreg1 & Hok1 & Hread1 & Hframe1 & Hown1).
  destruct (foreign_stable _ _ _ _ _ Hen' Hfor Hframe1 Hown1) as [Hen1' Hfor1].
  destruct (register_success _ _ _ _ _ _ _ Hok1 Hen1' Hid' Hrun2)
    as (entries1 & c2 & Hreg1' & Hreg2 & Hok2 & Hread2 & _ & _).
  split.
  - destruct (stored_views_ok _ _ _ Hok2 Hreg2) as (ws & Hws & Hall).
    exists ws. split; [done|].
    rewrite (count_id (in_order (<[k:=c2]> entries1)) ws).
    + apply (count_key _ k c2); [apply NoDup_in_order_keys|].
      apply elem_of_in_order. by rewrite lookup_insert_eq.
    + eapply Forall2_impl; [exact Hall|]. by intros ? ? [_ ?].
  - assert (wp (rac_lora_registry_get (Some hd) (Some kp) true)
              (λ res m3,
                 match res with
                 | (RAC_SUCCESS, Some (Some c)) => read_entry (heap m3) c = Some v'
                 | (RAC_ERROR_OUT_OF_MEMORY, Some None) =>
                   ¬ alloc_ok σ3 ∧ heap m3 = heap m2
                 | _ => False
                 end) (Mem (heap m2) σ3)) as Hwp.
    { eapply get_spec; [done..| |].
      - by rewrite lookup_insert_eq.
      - intros it w r m3. rewrite lookup_insert_eq. intros [= <-] Hw [Hsched Hcopy].
        assert (w = v') as -> by congruence.
        destruct r as [c|].
        + destruct Hcopy as (e & a & Hrep & _). by eapply rep_read_entry.
        + split; [|done]. by intros [_ [? ?]]%Hsched. }
    apply wp_elim in Hwp as (x & m3 & Hrun & Hx). eauto.
Qed.

Lemma entry_matches_spec h σ c e a v mid model (Q : bool → mem → Prop) :
  rep h c e a v → h !! mid = Some (BStr model) →
  Q (bool_decide (view_matches model v)) (Mem h σ) →
  wp (entry_matches c mid) Q (Mem h σ).
Proof.
  intros (Hc & (_ & Ha & Hm & _)%reads_iff) Hmid HQ.
  apply mapM_Some in Hm. pose proof (Forall2_length _ _ _ Hm) as Hlen.
  unfold entry_matches. apply wp_bind. eapply wp_load_entry; [done|].
  destruct (compatible_model_ids e) as [la|] eqn:Hla.
  - destruct (proj1 (read_ids_Some _ _ _ _ Hla) Ha) as (a0 & Hla0 & Hle & Ha0).
    assert (length a = compatible_model_count e) as Hlena.
    { rewrite Ha0, length_take. lia. }
    apply wp_bind.
    apply (wp_for_loop (λ j m, m = Mem h σ ∧ Some model ∉ take j (v_models v))).
    + split; [done|]. rewrite take_0. set_solver.
    + intros j m [_ Hj] [-> Hnot]. simpl in Hj.
      destruct (lookup_lt_is_Some_2 a j) as [x Hx]; [lia|].
      assert (a0 !! j = Some x) as Hx0.
      { rewrite Ha0 in Hx. by apply lookup_take_Some in Hx as [? _]. }
      destruct (Forall2_lookup_l _ _ _ _ _ Hm Hx) as (r & Hr & Hrx).
      unfold match_element. apply wp_bind. eapply wp_arr_get; [done..|].
      destruct x as [l|].
      * apply read_str_Some in Hrx as (s & -> & Hl).
        apply wp_bind. apply wp_bind. eapply wp_load_str; [done|].
        apply wp_bind. eapply wp_load_str; [done|]. apply wp_ret, wp_ret.
        destruct (decide (s = model)) as [->|Hne].
        -- rewrite (bool_decide_true (model = model)) by done.
           apply wp_ret. rewrite bool_decide_true in HQ; [done|].
           by eapply list_elem_of_lookup_2.
        -- rewrite (bool_decide_false (s = model)) by done.
           split; [done|]. rewrite (take_S_r _ _ _ Hr).
           rewrite not_elem_of_app, list_elem_of_singleton. split; [done|congruence].
      * apply read_str_None in Hrx. subst r. apply wp_ret.
        split; [done|]. rewrite (take_S_r _ _ _ Hr).
        rewrite not_elem_of_app, list_elem_of_singleton. done.
    + intros m [-> Hnot]. simpl in Hnot. apply wp_ret.
      rewrite take_ge in Hnot by lia.
      by rewrite bool_decide_false in HQ.
  - apply wp_ret. apply (read_ids_None h e) in Ha; [|done]. subst a.
    apply Forall2_nil_inv_l in Hm.
    rewrite bool_decide_false in HQ; [done|].
    unfold view_matches. rewrite Hm. set_solver.
Qed.

Lemma collect_matches_spec h σ mid model L (Q : list loc → mem → Prop) :
  (∀ kc, kc ∈ L → ∃ e a v, rep h kc.2 e a v) → h !! mid = Some (BStr model) →
  Q (filter (λ kc, loc_matches h model kc.2) L).*2 (Mem h σ) →
  wp (collect_matches L mid) Q (Mem h σ).
Proof.
  intros Hall Hmid. revert Q. induction L as [|kc L IH]; intros Q HQ; simpl.
  - by apply wp_ret.
  - destruct (Hall kc) as (e & a & v & Hrep); [set_solver|].
    apply wp_bind. eapply entry_matches_spec; [done..|].
    apply wp_bind. apply IH; [intros; apply Hall; set_solver|].
    apply wp_ret. rewrite filter_cons in HQ.
    assert (loc_matches h model kc.2 ↔ view_matches model v) as Hiff.
    { unfold loc_matches. by rewrite (rep_read_entry _ _ _ _ _ Hrep). }
    case_bool_decide.
    + by rewrite decide_True in HQ by by apply Hiff.
    + by rewrite decide_False in HQ by by rewrite Hiff.
Qed.

Lemma Forall2_filter {A B} (P : A → B → Prop) (F : A → Prop) (G : B → Prop)
    `{!∀ x, Decision (F x), !∀ y, Decision (G y)} l k :
  Forall2 P l k → (∀ x y, P x y → F x ↔ G y) →
  Forall2 P (filter F l) (filter G k).
Proof.
  intros HF2 HFG. induction HF2 as [|x y l k HP _ IH]; [constructor|].
  rewrite !filter_cons. destruct (decide (F x)) as [HF|HF].
  - rewrite decide_True by by apply (HFG x y). by constructor.
  - rewrite decide_False; [done|]. by rewrite <- (HFG x y).
Qed.

Lemma blocks_app ces1 ces2 : blocks (ces1 ++ ces2) = blocks ces1 ++ blocks ces2.
Proof. apply bind_app. Qed.

Lemma blocks_lookup ces j x :
  NoDup (blocks ces) → ces !! j = Some x →
  NoDup (locs_of x.1 x.2.1 x.2.2) ∧
  (∀ l, l ∈ locs_of x.1 x.2.1 x.2.2 → l ∈ blocks ces ∧ l ∉ blocks (take j ces)) ∧
  blocks (take (S j) ces) = blocks (take j ces) ++ locs_of x.1 x.2.1 x.2.2.
Proof.
  intros Hnd Hj.
  assert (blocks ces = blocks (take j ces) ++ locs_of x.1 x.2.1 x.2.2
                         ++ blocks (drop (S j) ces)) as Hb.
  { rewrite <- (take_drop_middle _ _ _ Hj) at 1. unfold blocks.
    by rewrite bind_app, bind_cons. }
  rewrite Hb in Hnd |- *.
  apply NoDup_app in Hnd as (_ & Hdis & Hnd). apply NoDup_app in Hnd as (Hx & _ & _).
  split_and!; [done| |].
  - intros l Hl. split.
    + rewrite !elem_of_app. auto.
    + intros Hin. apply (Hdis l Hin). rewrite elem_of_app. by left.
  - rewrite (take_S_r _ _ _ Hj). unfold blocks. by rewrite bind_app, bind_singleton.
Qed.

(** The clean-up loop releases the copies made so far. *)
Lemma free_prefix_spec hj σ arr ces rest (Q : unit → mem → Prop) :
  hj !! arr = Some (BEntryArr ((Some <$> ces.*1) ++ rest)) →
  NoDup (arr :: blocks ces) →
  Forall (λ x, ∃ w, rep hj x.1 x.2.1 x.2.2 w) ces →
  Q tt (Mem (free_all (blocks ces) hj) σ) →
  wp (free_prefix arr (length ces)) Q (Mem hj σ).
Proof.
  intros Harr [Harrn Hnd]%NoDup_cons Hreps HQ. unfold free_prefix.
  apply wp_bind.
  apply (wp_for_loop (λ i m, m = Mem (free_all (blocks (take i ces)) hj) σ)).
  - done.
  - intros j m [_ Hj] ->. simpl in Hj.
    destruct (lookup_lt_is_Some_2 ces j) as [x Hx]; [done|].
    destruct (blocks_lookup _ _ _ Hnd Hx) as (Hndx & Hdis & Hnext).
    destruct (proj1 (Forall_lookup _ _) Hreps j x Hx) as [w Hrep].
    apply wp_bind. eapply wp_earr_get.
    { rewrite lookup_free_all_notin; [done|].
      intros Hin. apply Harrn. rewrite <- (take_drop j ces), blocks_app, elem_of_app.
      by left. }
    { apply lookup_app_l_Some. by rewrite !list_lookup_fmap, Hx. }
    apply wp_bind. eapply (free_lora_entry_spec _ _ _ _ _ w); [|done|].
    { eapply rep_agree; [done|]. intros l Hl.
      apply lookup_free_all_notin. by apply Hdis. }
    apply wp_ret. by rewrite Hnext, free_all_app.
  - intros m ->. apply wp_ret. simpl. by rewrite take_ge.
Qed.

Lemma elem_of_blocks ces l :
  l ∈ blocks ces ↔ ∃ x, x ∈ ces ∧ l ∈ locs_of x.1 x.2.1 x.2.2.
Proof. unfold blocks. rewrite list_elem_of_bind. naive_solver. Qed.

Lemma blocks_present hj ces ws l :
  Forall2 (λ x w, rep hj x.1 x.2.1 x.2.2 w) ces ws →
  l ∈ blocks ces → is_Some (hj !! l).
Proof.
  intros Hreps (x & Hx & Hl)%elem_of_blocks.
  apply list_elem_of_lookup_1 in Hx as [i Hi].
  destruct (Forall2_lookup_l _ _ _ _ _ Hreps Hi) as (w & _ & Hrep).
  by eapply rep_present.
Qed.

(** [copy_out] on any allocation schedule: it hands out copies of all the
    sources, or it reports out-of-memory and leaves the heap as it found
    it. *)
Lemma copy_out_spec_full h σ srcs ws (Q : rac_result_t * out_array → mem → Prop) :
  Forall2 (λ s w, read_entry h s = Some w) srcs ws →
  (∀ m' out,
     read_result (heap m') out = Some ws →
     out_count out = Some (length srcs) →
     (srcs = [] → out = OutArray (Some None) (Some 0) ∧ m' = Mem h σ) →
     (∀ l, is_Some (h !! l) → heap m' !! l = h !! l) →
     (∀ arr, out_entries out = Some (Some arr) →
        ∃ ces, length ces = length srcs ∧
          heap m' !! arr = Some (BEntryArr (Some <$> ces.*1)) ∧
          NoDup (arr :: blocks ces) ∧
          (∀ l, l ∈ arr :: blocks ces → h !! l = None) ∧
          (∀ l, l ∉ arr :: blocks ces → heap m' !! l = h !! l) ∧
          Forall2 (λ x w, rep (heap m') x.1 x.2.1 x.2.2 w) ces ws) →
     Q (RAC_SUCCESS, out) m') →
  (∀ m' out,
     ¬ alloc_ok σ → srcs ≠ [] → heap m' = h → out_entries out = Some None →
     Q (RAC_ERROR_OUT_OF_MEMORY, out) m') →
  wp (copy_out srcs) Q (Mem h σ).
Proof.
  intros Hsrc HQ HO. unfold copy_out.
  pose proof (Forall2_length _ _ _ Hsrc) as Hlen.
  cbv zeta. destruct (length srcs) as [|n'] eqn:Hn.
  { apply wp_ret. apply nil_length_inv in Hn as ->.
    apply Forall2_nil_inv_l in Hsrc as ->. by apply HQ. }
  assert (srcs ≠ []) as Hne by (by intros ->).
  set (n := S n') in *.
  apply wp_bind, wp_malloc.
  { intros σ' ->. apply wp_ret, HO; [apply alloc_ok_false|done..]. }
  intros arr Harr Hσt. apply wp_bind.
  apply (wp_for_loop (λ j m, ∃ hj σj ces,
     m = Mem hj σj ∧ (alloc_ok σ → alloc_ok σj) ∧ length ces = j ∧
     hj !! arr = Some (BEntryArr ((Some <$> ces.*1) ++ replicate (n - j) None)) ∧
     NoDup (arr :: blocks ces) ∧
     (∀ l, l ∈ arr :: blocks ces → h !! l = None) ∧
     (∀ l, l ∉ arr :: blocks ces → hj !! l = h !! l) ∧
     Forall2 (λ x w, rep hj x.1 x.2.1 x.2.2 w) ces (take j ws))).
  - exists (<[arr:=BEntryArr (replicate n None)]> h), (tail σ), [].
    split_and!; [done|done|done| | | | |by rewrite take_0].
    + by rewrite lookup_insert_eq, Nat.sub_0_r.
    + apply NoDup_singleton.
    + by intros l ->%list_elem_of_singleton.
    + intros l Hl%not_elem_of_cons. by rewrite lookup_insert_ne by naive_solver.
  - intros j m [_ Hj] (hj & σj & ces & -> & Hσj & Hces & Harrj & Hnd & Hfresh & Hframe & Hcopies).
    simpl in Hj.
    assert (∀ l, l ∈ arr :: blocks ces → is_Some (hj !! l)) as Hpres.
    { intros l [->|Hl]%elem_of_cons; [by rewrite Harrj|].
      by eapply blocks_present. }
    assert (∀ l, is_Some (h !! l) → hj !! l = h !! l) as Hold.
    { intros l [b Hb]. apply Hframe. intros ?%Hfresh. congruence. }
    destruct (lookup_lt_is_Some_2 srcs j) as [src Hsrcj]; [lia|].
    destruct (Forall2_lookup_l _ _ _ _ _ Hsrc Hsrcj) as (w & Hw & Hread).
    apply read_entry_rep in Hread as (se & sa & Hrep).
    assert (rep hj src se sa w) as Hrepj.
    { eapply rep_agree; [done|]. intros l Hl. apply Hold. by eapply rep_present. }
    assert (length ((Some <$> ces.*1) ++ replicate (n - j) (@None loc)) = n) as Hlenarr.
    { rewrite length_app, !length_fmap, length_replicate. lia. }
    unfold copy_into. rewrite Hsrcj.
    apply wp_bind. eapply deep_copy_spec; [done|].
    intros [c|] [h' σ'] [Hsched Hcopy]; simpl in *.
    + destruct Hcopy as (e & a & Hrepc & Hndc & Hfreshc & Hframec).
      assert (∀ l, is_Some (hj !! l) → h' !! l = hj !! l) as Holdj.
      { intros l [b Hb]. apply Hframec. intros ?%Hfreshc. congruence. }
      apply wp_bind. eapply wp_earr_set; [by rewrite Holdj|lia|].
      apply wp_bind. eapply wp_earr_get;
        [by rewrite lookup_insert_eq|by rewrite list_lookup_insert_eq by lia|].
      apply wp_ret. eexists. exists σ', (ces ++ [(c, (e, a))]).
      split_and!; [done| |rewrite length_app; simpl; lia| | | | |].
      * intros Hσ. by destruct (Hsched (Hσj Hσ)).
      * rewrite lookup_insert_eq. do 2 f_equal.
        rewrite insert_app_r_alt by (rewrite !length_fmap; lia).
        rewrite !length_fmap, Hces, Nat.sub_diag.
        replace (n - j) with (S (n - S j)) by lia. simpl.
        rewrite !fmap_app. by rewrite <- (assoc_L (++)).
      * rewrite blocks_app. unfold blocks at 2. rewrite bind_singleton. simpl.
        rewrite app_comm_cons. apply NoDup_app. split_and!; [done| |done].
        intros l Hl Hlc. apply Hfreshc in Hlc. destruct (Hpres l Hl). congruence.
      * intros l. rewrite blocks_app. unfold blocks at 2. rewrite bind_singleton. simpl.
        rewrite app_comm_cons, elem_of_app. intros [Hl|Hl]; [by apply Hfresh|].
        pose proof (Hfreshc l Hl) as Hnone. rewrite <- Hframe; [done|].
        intros Hin. destruct (Hpres l Hin). congruence.
      * intros l. rewrite blocks_app. unfold blocks at 2. rewrite bind_singleton. simpl.
        rewrite app_comm_cons, not_elem_of_app. intros [Hl1 Hl2].
        rewrite lookup_insert_ne by (intros <-; apply Hl1; left).
        rewrite Hframec by done. by apply Hframe.
      * rewrite (take_S_r _ _ _ Hw). apply Forall2_app.
        -- eapply Forall2_elem_impl; [exact Hcopies|].
           intros x w' Hx Hrep'. eapply rep_agree; [exact Hrep'|]. intros l Hl.
           assert (l ∈ blocks ces) as Hlb.
           { apply elem_of_blocks. by exists x. }
           rewrite lookup_insert_ne.
           ++ apply Holdj, Hpres. by right.
           ++ intros <-. apply NoDup_cons in Hnd as [Hnd _]. done.
        -- constructor; [|constructor]. simpl.
           eapply rep_agree; [done|]. intros l Hl.
           rewrite lookup_insert_ne; [done|]. intros <-.
           apply Hfreshc in Hl. congruence.
    + subst h'. apply wp_bind. eapply wp_earr_set; [done|lia|].
      assert (<[j:=None]> ((Some <$> ces.*1) ++ replicate (n - j) (@None loc))
              = (Some <$> ces.*1) ++ replicate (n - j) None) as ->.
      { apply list_insert_id. rewrite lookup_app_r by (rewrite !length_fmap; lia).
        rewrite !length_fmap, Hces, Nat.sub_diag.
        replace (n - j) with (S (n - S j)) by lia. done. }
      rewrite (insert_id hj) by done.
      apply wp_bind. eapply wp_earr_get; [done| |].
      { rewrite lookup_app_r by (rewrite !length_fmap; lia).
        rewrite !length_fmap, Hces, Nat.sub_diag.
        replace (n - j) with (S (n - S j)) by lia. done. }
      apply wp_bind. rewrite <- Hces.
      eapply free_prefix_spec; [done|done| |].
      { eapply Forall2_Forall_l; [exact Hcopies|]. apply Forall_true. eauto. }
      apply wp_bind, wp_free.
      { rewrite lookup_free_all_notin; [by rewrite Harrj|].
        by apply NoDup_cons in Hnd as [? _]. }
      apply wp_ret, wp_ret. apply HO; [|done| |done].
      * intros Hσ. by destruct (Hsched (Hσj Hσ)) as [_ [? ?]].
      * simpl. apply map_eq. intros l.
        destruct (decide (l = arr)) as [->|Hla].
        { rewrite lookup_delete_eq. symmetry. apply Hfresh. left. }
        rewrite lookup_delete_ne by done. rewrite lookup_free_all.
        destruct (decide (l ∈ blocks ces)) as [Hin|Hnin].
        { symmetry. apply Hfresh. by right. }
        apply Hframe. by intros [?|?]%elem_of_cons.
  - intros m (hj & σj & ces & -> & Hσj & Hces & Harrj & Hnd & Hfresh & Hframe & Hcopies).
    apply wp_ret. simpl in *. rewrite Nat.sub_diag, app_nil_r in Harrj.
    rewrite take_ge in Hcopies by lia.
    apply HQ; simpl; [|done| | |].
    + unfold read_result. simpl. rewrite Harrj.
      rewrite decide_True by (rewrite !length_fmap; lia).
      apply mapM_Some, Forall2_fmap_l, Forall2_fmap_l.
      eapply Forall2_impl; [exact Hcopies|].
      intros x w Hrep. exact (rep_read_entry _ _ _ _ _ Hrep).
    + intros ->. done.
    + intros l [b Hb]. apply Hframe. intros ?%Hfresh. congruence.
    + intros ? [= <-]. exists ces. split_and!; [lia|done..].
Qed.

Lemma copy_out_spec h σ srcs ws (Q : rac_result_t * out_array → mem → Prop) :
  Forall2 (λ s w, read_entry h s = Some w) srcs ws →
  (∀ m' out,
     read_result (heap m') out = Some ws →
     out_count out = Some (length srcs) →
     (srcs = [] → out = OutArray (Some None) (Some 0) ∧ m' = Mem h σ) →
     (∀ l, is_Some (h !! l) → heap m' !! l = h !! l) →
     Q (RAC_SUCCESS, out) m') →
  (∀ m' out,
     ¬ alloc_ok σ → srcs ≠ [] → heap m' = h → out_entries out = Some None →
     Q (RAC_ERROR_OUT_OF_MEMORY, out) m') →
  wp (copy_out srcs) Q (Mem h σ).
Proof.
  intros Hsrc HQ HO. apply (copy_out_spec_full h σ srcs ws); [done| |done].
  intros m' out ? ? ? ? _. by apply HQ.
Qed.

Lemma stored_views_agree h h' hd :
  reg_ok h hd → (∀ l, is_Some (h !! l) → h' !! l = h !! l) →
  stored_views h' hd = stored_views h hd.
Proof.
  intros Hok Hag. pose proof Hok as (entries & Hreg & _).
  destruct (reg_ok_agree h h' hd entries Hok Hreg) as (_ & Hreg' & Hsame).
  { intros l Hl. apply Hag. by eapply reg_owns_present. }
  unfold stored_views. rewrite Hreg, Hreg'. simpl.
  apply Forall_mapM_ext, Forall_forall. intros c (kc & -> & Hin)%list_elem_of_fmap.
  destruct kc as [k c]. apply elem_of_in_order in Hin. simpl.
  by destruct (Hsame _ _ Hin) as [_ ->].
Qed.

Lemma stored_views_NoDup h hd all :
  reg_ok h hd → stored_views h hd = Some all → NoDup all.
Proof.
  intros Hok Hall. pose proof Hok as (entries & Hreg & _).
  destruct (stored_views_ok _ _ _ Hok Hreg) as (ws & Hws & HF2).
  assert (ws = all) as -> by congruence.
  apply (NoDup_fmap_1 v_id).
  assert (v_id <$> all = Some <$> (in_order entries).*1) as ->.
  { clear Hws Hall. generalize dependent (in_order entries). intros L HF2.
    induction HF2 as [|kc w L ws [_ Hid] _ IH]; [done|].
    rewrite !fmap_cons. by rewrite Hid, IH. }
  apply (NoDup_fmap_2 _), NoDup_in_order_keys.
Qed.

(** C2: [get_for_model] hands out exactly the stored entries that list
    the model, each once however often its list repeats the model, and
    (null, 0) with success when there is none.  It succeeds whenever no
    allocation fails; when one fails it reports out-of-memory and leaves
    the heap as it found it. *)
Theorem C2_get_for_model_returns_matches h σ hd mid model :
  reg_ok h hd → h !! mid = Some (BStr model) →
  ∃ all, stored_views h hd = Some all ∧ NoDup all ∧
    NoDup (filter (view_matches model) all) ∧
    ∃ res out m',
      rac_lora_registry_get_for_model (Some hd) (Some mid) true true (Mem h σ)
        = Some ((res, out), m') ∧
      stored_views (heap m') hd = Some all ∧
      (alloc_ok σ ∨ filter (view_matches model) all = [] → res = RAC_SUCCESS) ∧
      match res with
      | RAC_SUCCESS =>
        read_result (heap m') out = Some (filter (view_matches model) all) ∧
        out_count out = Some (length (filter (view_matches model) all)) ∧
        (filter (view_matches model) all = [] → out = OutArray (Some None) (Some 0))
      | RAC_ERROR_OUT_OF_MEMORY => heap m' = h ∧ out_entries out = Some None
      | _ => False
      end.
Proof.
  intros Hok Hmid. pose proof Hok as (entries & Hreg & _).
  destruct (stored_views_ok _ _ _ Hok Hreg) as (all & Hall & HF2).
  pose proof (stored_views_NoDup _ _ _ Hok Hall) as Hnd.
  exists all. split_and!; [done|done|by apply NoDup_filter|].
  set (hits := filter (view_matches model) all) in *.
  set (matches := (filter (λ kc, loc_matches h model kc.2) (in_order entries)).*2).
  assert (Forall2 (λ s w, read_entry h s = Some w) matches hits) as Hm.
  { unfold matches, hits. apply Forall2_fmap_l.
    eapply (Forall2_impl (λ kc w, read_entry h kc.2 = Some w ∧ v_id w = Some kc.1));
      [|by intros ? ? [? _]].
    apply Forall2_filter; [done|].
    intros kc w [Hr _]. unfold loc_matches. by rewrite Hr. }
  assert (matches = [] ↔ hits = []) as Hnil.
  { pose proof (Forall2_length _ _ _ Hm) as Hlen.
    split; intros E; rewrite E in Hlen; simpl in Hlen.
    - by apply nil_length_inv.
    - by apply nil_length_inv. }
  assert (wp (rac_lora_registry_get_for_model (Some hd) (Some mid) true true)
            (λ x m',
               stored_views (heap m') hd = Some all ∧
               (alloc_ok σ ∨ hits = [] → x.1 = RAC_SUCCESS) ∧
               match x.1 with
               | RAC_SUCCESS =>
                 read_result (heap m') x.2 = Some hits ∧
                 out_count x.2 = Some (length hits) ∧
                 (hits = [] → x.2 = OutArray (Some None) (Some 0))
               | RAC_ERROR_OUT_OF_MEMORY => heap m' = h ∧ out_entries x.2 = Some None
               | _ => False
               end) (Mem h σ)) as Hwp.
  { unfold rac_lora_registry_get_for_model.
    apply wp_bind. eapply wp_load_registry; [by apply reg_entries_Some|].
    apply wp_bind. eapply collect_matches_spec; [|done|].
    { intros [k c] Hin%elem_of_in_order.
      destruct (reg_ok_entry _ _ _ _ _ Hok Hreg Hin) as (e & a & v & Hrep & _).
      eauto. }
    fold matches. eapply copy_out_spec; [exact Hm| |].
    - intros m' out Hres Hcount Hempty Hframe. simpl.
      rewrite (Forall2_length _ _ _ Hm) in Hcount.
      split_and!; [by rewrite (stored_views_agree h)|done..|].
      intros E. by apply Hempty, Hnil.
    - intros m' out Hσ Hne Hheap Hout. simpl. rewrite Hheap.
      split_and!; [done| |done..].
      intros [?|E%Hnil]; done. }
  apply wp_elim in Hwp as ([res out] & m' & Hrun & ? & ? & ?).
  by exists res, out, m'.
Qed.

Lemma entry_ids_rep h c e a v : rep h c e a v → entry_ids h c = Some a.
Proof. intros (Hc & Ha & _). unfold entry_ids. by rewrite Hc. Qed.

Lemma null_pattern h h' (a a' : list ptr) vm :
  mapM (read_str h) a = Some vm → mapM (read_str h') a' = Some vm →
  Forall2 (λ x y, x = None ↔ y = None) a a'.
Proof.
  intros H1%mapM_Some H2%mapM_Some. revert a' H2.
  induction H1 as [|x r a vm Hx _ IH]; intros a' H2.
  - apply Forall2_nil_inv_r in H2 as ->. constructor.
  - apply Forall2_cons_inv_r in H2 as (y & a'' & Hy & H2 & ->).
    constructor; [|by apply IH].
    destruct x, y; simpl in *; try done;
      repeat match goal with
             | H : context [match ?h !! ?l with _ => _ end] |- _ =>
               destruct (h !! l) as [[]|]; simplify_eq
             end; done.
Qed.

(** C1: a registration that runs out of memory changes nothing. *)
Theorem C1_register_out_of_memory_is_atomic h σ hd en v m' :
  read_entry h en = Some v →
  rac_lora_registry_register (Some hd) (Some en) (Mem h σ)
    = Some (RAC_ERROR_OUT_OF_MEMORY, m') →
  heap m' = h ∧
  stored_views (heap m') hd = stored_views h hd ∧
  ∀ kp σ', rac_lora_registry_get (Some hd) kp true (Mem (heap m') σ')
           = rac_lora_registry_get (Some hd) kp true (Mem h σ').
Proof.
  intros Hen Hrun%register_oom.
  destruct (deep_copy_null _ _ _ _ _ Hen Hrun) as [-> _]. done.
Qed.

(** C9: null elements of [compatible_model_ids] are handled by the copy,
    by the match and by the release. *)
Theorem C9_null_model_ids_are_tolerated h σ c a mid model :
  owned h c → entry_ids h c = Some a → h !! mid = Some (BStr model) →
  (∃ r m', deep_copy_lora_entry (Some c) (Mem h σ) = Some (r, m') ∧
           (alloc_ok σ → is_Some r) ∧
           ∀ c', r = Some c' →
                 ∃ a', entry_ids (heap m') c' = Some a' ∧
                       Forall2 (λ x y, x = None ↔ y = None) a a') ∧
  (∃ b, entry_matches c mid (Mem h σ) = Some (b, Mem h σ) ∧
        (b = true ↔ ∃ l, Some l ∈ a ∧ h !! l = Some (BStr model))) ∧
  (∃ m', free_lora_entry (Some c) (Mem h σ) = Some (tt, m') ∧
         heap m' = free_all (entry_locs h c) h).
Proof.
  intros (e & a0 & v & Hrep & Hnd)%owned_rep Hids Hmid.
  assert (a0 = a) as ->.
  { apply entry_ids_rep in Hrep. congruence. }
  pose proof Hrep as (_ & (_ & _ & Hm & _)%reads_iff).
  split_and!.
  - assert (wp (deep_copy_lora_entry (Some c)) (copied h σ v) (Mem h σ)) as Hwp.
    { eapply deep_copy_spec; [done|]. auto. }
    apply wp_elim in Hwp as (r & m' & Hrun & Hok & Hcopy).
    exists r, m'. split_and!; [done|by intros [_ ?]%Hok|].
    intros c' ->. destruct Hcopy as (e' & a' & Hrep' & _).
    exists a'. split; [by eapply entry_ids_rep|].
    pose proof Hrep' as (_ & (_ & _ & Hm' & _)%reads_iff).
    by eapply null_pattern.
  - assert (wp (entry_matches c mid)
              (λ b m', m' = Mem h σ ∧ b = bool_decide (view_matches model v))
              (Mem h σ)) as Hwp.
    { by eapply entry_matches_spec. }
    apply wp_elim in Hwp as (b & m' & Hrun & -> & ->).
    eexists. split; [done|]. rewrite bool_decide_eq_true. unfold view_matches.
    apply mapM_Some in Hm. split.
    + intros (i & Hi)%list_elem_of_lookup_1.
      destruct (Forall2_lookup_r _ _ _ _ _ Hm Hi) as ([l|] & Hl & Hr); [|done].
      apply read_str_Some in Hr as (s & [= <-] & Hs).
      exists l. split; [by eapply list_elem_of_lookup_2|done].
    + intros (l & (i & Hi)%list_elem_of_lookup_1 & Hl).
      destruct (Forall2_lookup_l _ _ _ _ _ Hm Hi) as (r & Hr & Hrl).
      simpl in Hrl. rewrite Hl in Hrl. injection Hrl as <-.
      by eapply list_elem_of_lookup_2.
  - assert (wp (free_lora_entry (Some c))
              (λ _ m', m' = Mem (free_all (locs_of c e a) h) σ) (Mem h σ)) as Hwp.
    { by eapply free_lora_entry_spec. }
    apply wp_elim in Hwp as ([] & m' & Hrun & ->).
    eexists. split; [done|]. simpl. by rewrite (entry_locs_rep _ _ _ _ _ Hrep).
Qed.

(** ** The invariant over the life of a registry *)

(** A created registry is empty and satisfies the invariant. *)
Lemma create_spec h σ (Q : rac_result_t * option ptr → mem → Prop) :
  (∀ σ', ¬ alloc_ok σ → Q (RAC_ERROR_OUT_OF_MEMORY, None) (Mem h σ')) →
  (∀ r m', h !! r = None → heap m' = <[r:=BRegistry ∅]> h → reg_ok (heap m') r →
           Q (RAC_SUCCESS, Some (Some r)) m') →
  wp (rac_lora_registry_create true) Q (Mem h σ).
Proof.
  intros Hoom Hok. unfold rac_lora_registry_create.
  apply wp_bind, wp_malloc.
  - intros σ' ->. apply wp_ret, Hoom, alloc_ok_false.
  - intros r Hr _. apply wp_ret, Hok; [done|done|]. simpl.
    exists ∅. split; [|split].
    + unfold reg_entries. by rewrite lookup_insert_eq.
    + intros k c Hk. by rewrite lookup_empty in Hk.
    + intros k1 k2 c1 c2 _ Hk. by rewrite lookup_empty in Hk.
Qed.

(** Removal releases the stored entry and keeps the invariant. *)
Lemma remove_spec h σ hd kp key entries (Q : rac_result_t → mem → Prop) :
  reg_ok h hd → reg_entries h hd = Some entries → h !! kp = Some (BStr key) →
  (entries !! key = None → Q RAC_ERROR_NOT_FOUND (Mem h σ)) →
  (∀ c h', entries !! key = Some c →
     reg_entries h' hd = Some (delete key entries) →
     reg_ok h' hd →
     (∀ l, l ∈ entry_locs h c → h' !! l = None) →
     (∀ l, l ∉ entry_locs h c → l ≠ hd → h' !! l = h !! l) →
     (∀ k' c', k' ≠ key → entries !! k' = Some c' →
               read_entry h' c' = read_entry h c') →
     Q RAC_SUCCESS (Mem h' σ)) →
  wp (rac_lora_registry_remove (Some hd) (Some kp)) Q (Mem h σ).
Proof.
  intros Hok Hreg Hkp Hnone Hsome. unfold rac_lora_registry_remove.
  apply wp_bind. eapply wp_load_str; [done|].
  apply wp_bind. eapply wp_load_registry; [by apply reg_entries_Some|].
  destruct (entries !! key) as [c|] eqn:Hc; [|by apply wp_ret, Hnone].
  destruct (reg_ok_entry _ _ _ _ _ Hok Hreg Hc) as (e & a & v & Hrep & Hnd & Hhd & _).
  pose proof (entry_locs_rep _ _ _ _ _ Hrep) as Hlocs.
  apply wp_bind. eapply free_lora_entry_spec; [done..|].
  apply wp_bind. eapply wp_load_registry.
  { rewrite lookup_free_all_notin by done. by apply reg_entries_Some. }
  apply wp_bind, wp_store.
  { rewrite lookup_free_all_notin by done. apply reg_entries_Some in Hreg. eauto. }
  apply wp_ret.
  set (h' := <[hd:=BRegistry (delete key entries)]> (free_all (locs_of c e a) h)).
  assert (∀ l, l ∉ locs_of c e a → l ≠ hd → h' !! l = h !! l) as Hh'.
  { intros l ? ?. unfold h'. by rewrite lookup_insert_ne, lookup_free_all_notin. }
  assert (∀ k' c', k' ≠ key → entries !! k' = Some c' →
            entry_locs h' c' = entry_locs h c' ∧ read_entry h' c' = read_entry h c')
    as Hother.
  { intros k' c' Hne Hk'.
    destruct (reg_ok_entry _ _ _ _ _ Hok Hreg Hk') as (e' & a' & v' & Hrep' & _ & Hhd' & _).
    destruct (rep_stable h h' _ _ _ _ Hrep') as (_ & -> & ->).
    - intros l Hl. apply Hh'; [|by intros ->].
      intros Hlc. eapply (reg_ok_disjoint h hd entries key k'); [done..| |].
      + rewrite Hlocs. exact Hlc.
      + by rewrite (entry_locs_rep _ _ _ _ _ Hrep').
    - by rewrite (entry_locs_rep _ _ _ _ _ Hrep'), (rep_read_entry _ _ _ _ _ Hrep'). }
  apply (Hsome c h' eq_refl).
  - apply reg_entries_Some. unfold h'. by rewrite lookup_insert_eq.
  - exists (delete key entries). split; [|split].
    + apply reg_entries_Some. unfold h'. by rewrite lookup_insert_eq.
    + intros k' c' [Hne Hk']%lookup_delete_Some.
      destruct (Hother _ _ (not_eq_sym Hne) Hk') as [Hl Hr].
      destruct Hok as (entries' & Hreg' & Hown & _).
      assert (entries' = entries) as -> by congruence.
      destruct (Hown _ _ Hk') as ([Hs Hnd'] & Hhd' & Hv).
      unfold owned. rewrite Hl, Hr. done.
    + intros k1 k2 c1 c2 Hne [Hn1 H1]%lookup_delete_Some [Hn2 H2]%lookup_delete_Some l.
      destruct (Hother _ _ (not_eq_sym Hn1) H1) as [-> _].
      destruct (Hother _ _ (not_eq_sym Hn2) H2) as [-> _].
      by apply (reg_ok_disjoint h hd entries k1 k2).
  - intros l Hl. rewrite Hlocs in Hl. unfold h'.
    rewrite lookup_insert_ne by (by intros <-).
    by rewrite lookup_free_all, decide_True.
  - intros l Hl ?. rewrite Hlocs in Hl. by apply Hh'.
  - intros k' c' Hne Hk'. by destruct (Hother _ _ Hne Hk') as [_ ?].
Qed.

(** A registration is defined on every allocation schedule: it succeeds,
    or it reports out-of-memory and leaves the heap as it found it. *)
Theorem register_total h σ hd en v k :
  reg_ok h hd → read_entry h en = Some v → v_id v = Some k →
  ∃ r m', rac_lora_registry_register (Some hd) (Some en) (Mem h σ) = Some (r, m') ∧
          (alloc_ok σ → r = RAC_SUCCESS) ∧
          match r with
          | RAC_SUCCESS => reg_ok (heap m') hd ∧
                           ∃ c, (reg_entries (heap m') hd ≫= (.!! k)) = Some c ∧
                                read_entry (heap m') c = Some v
          | RAC_ERROR_OUT_OF_MEMORY => heap m' = h
          | _ => False
          end.
Proof.
  intros Hok (e & a & Hrep)%read_entry_rep Hid.
  assert (wp (rac_lora_registry_register (Some hd) (Some en))
            (λ r m', (alloc_ok σ → r = RAC_SUCCESS) ∧
               match r with
               | RAC_SUCCESS => reg_ok (heap m') hd ∧
                                ∃ c, (reg_entries (heap m') hd ≫= (.!! k)) = Some c ∧
                                     read_entry (heap m') c = Some v
               | RAC_ERROR_OUT_OF_MEMORY => heap m' = h
               | _ => False
               end) (Mem h σ)) as Hwp.
  { eapply register_spec; [done..| |].
    - intros m' Hm Hσ. done.
    - intros m' entries c _ Hreg' Hok' Hread _ _ _. split_and!; [done..|].
      exists c. rewrite Hreg'. simpl. by rewrite lookup_insert_eq. }
  apply wp_elim in Hwp as (r & m' & Hrun & ?). eauto.
Qed.

(** ** The operations at work *)

Example demo_two_entries :
  stored_views (heap demo_m3) 9%positive = Some [demo_v1; demo_v3].
Proof. vm_compute. reflexivity. Qed.

Example demo_replaced :
  stored_views (heap demo_m2) 9%positive = Some [demo_v2].
Proof. vm_compute. reflexivity. Qed.

Example demo_get_for_model :
  ∃ out m',
    rac_lora_registry_get_for_model (Some 9%positive) (Some 10%positive) true true
      (Mem (heap demo_m3) []) = Some ((RAC_SUCCESS, out), m') ∧
    read_result (heap m') out = Some [demo_v1].
Proof. eexists _, _. split; vm_compute; reflexivity. Qed.

Example demo_register_oom :
  rac_lora_registry_register (Some 9%positive) (Some 7%positive)
    (Mem (heap demo_m1) [true; true; false])
  = Some (RAC_ERROR_OUT_OF_MEMORY, Mem (heap demo_m1) []).
Proof. vm_compute. reflexivity. Qed.

(** [get_all] with the allocation of the second copy failing: the first
    copy and the array are released again. *)
Example demo_get_all_oom :
  rac_lora_registry_get_all (Some 9%positive) true true
    (Mem (heap demo_m3) (replicate 7 true ++ [false]))
  = Some ((RAC_ERROR_OUT_OF_MEMORY, OutArray (Some None) (Some 0)),
          Mem (heap demo_m3) []).
Proof. vm_compute. reflexivity. Qed.

Example demo_remove :
  ∃ m', rac_lora_registry_remove (Some 9%positive) (Some 1%positive)
          (Mem (heap demo_m3) []) = Some (RAC_SUCCESS, m') ∧
        stored_views (heap m') 9%positive = Some [demo_v3].
Proof. eexists. split; vm_compute; reflexivity. Qed.

Lemma demo_heap_reg_ok : reg_ok demo_heap 9%positive.
Proof.
  exists ∅. split; [reflexivity|]. split.
  - intros k c Hk. by rewrite lookup_empty in Hk.
  - intros k1 k2 c1 c2 _ Hk. by rewrite lookup_empty in Hk.
Qed.

Lemma demo_heap_foreign : foreign demo_heap 9%positive 7%positive.
Proof.
  intros l Hl [->|(es & k & c & Hes & Hk & _)].
  - apply (bool_decide_pack _) in Hl. vm_compute in Hl. exact Hl.
  - change (Some (∅ : gmap string loc) = Some es) in Hes. injection Hes as <-.
    by rewrite lookup_empty in Hk.
Qed.

Lemma demo_m1_reg_ok : reg_ok (heap demo_m1) 9%positive.
Proof.
  destruct (register_success demo_heap [] 9%positive 5%positive demo_v1 "l1" demo_m1
              demo_heap_reg_ok) as (_ & _ & _ & _ & H & _);
    [vm_compute; reflexivity..|exact H].
Qed.

Lemma demo_m3_reg_ok : reg_ok (heap demo_m3) 9%positive.
Proof.
  destruct (register_success (heap demo_m1) [] 9%positive 13%positive demo_v3 "l2" demo_m3
              demo_m1_reg_ok) as (_ & _ & _ & _ & H & _);
    [vm_compute; reflexivity..|exact H].
Qed.

Lemma C1_register_out_of_memory_is_atomic_witness :
  heap demo_oom = heap demo_m1 ∧
  stored_views (heap demo_oom) 9%positive = stored_views (heap demo_m1) 9%positive ∧
  ∀ kp σ', rac_lora_registry_get (Some 9%positive) kp true (Mem (heap demo_oom) σ')
           = rac_lora_registry_get (Some 9%positive) kp true (Mem (heap demo_m1) σ').
Proof.
  apply (C1_register_out_of_memory_is_atomic (heap demo_m1) [true; true; false]
           9%positive 7%positive demo_v2 demo_oom).
  - vm_compute. reflexivity.
  - vm_compute. reflexivity.
Defined.

Lemma C2_get_for_model_returns_matches_witness :
  ∃ all, stored_views (heap demo_m3) 9%positive = Some all ∧ NoDup all ∧
    NoDup (filter (view_matches "mB") all) ∧
    ∃ res out m',
      rac_lora_registry_get_for_model (Some 9%positive) (Some 10%positive) true true
        (Mem (heap demo_m3) []) = Some ((res, out), m') ∧
      stored_views (heap m') 9%positive = Some all ∧
      (alloc_ok [] ∨ filter (view_matches "mB") all = [] → res = RAC_SUCCESS) ∧
      match res with
      | RAC_SUCCESS =>
        read_result (heap m') out = Some (filter (view_matches "mB") all) ∧
        out_count out = Some (length (filter (view_matches "mB") all)) ∧
        (filter (view_matches "mB") all = [] → out = OutArray (Some None) (Some 0))
      | RAC_ERROR_OUT_OF_MEMORY => heap m' = heap demo_m3 ∧ out_entries out = Some None
      | _ => False
      end.
Proof.
  apply (C2_get_for_model_returns_matches (heap demo_m3) [] 9%positive 10%positive "mB").
  - exact demo_m3_reg_ok.
  - vm_compute. reflexivity.
Defined.

Lemma C3_register_twice_keeps_last_witness :
  (∃ ws, stored_views (heap demo_m2) 9%positive = Some ws ∧
         length (filter (λ w, v_id w = Some "l1") ws) = 1) ∧
  ∃ res m3,
    rac_lora_registry_get (Some 9%positive) (Some 1%positive) true (Mem (heap demo_m2) [])
      = Some (res, m3) ∧
    match res with
    | (RAC_SUCCESS, Some (Some c)) => read_entry (heap m3) c = Some demo_v2
    | (RAC_ERROR_OUT_OF_MEMORY, Some None) => ¬ alloc_ok [] ∧ heap m3 = heap demo_m2
    | _ => False
    end.
Proof.
  apply (C3_register_twice_keeps_last demo_heap 9%positive 5%positive 7%positive
           demo_v1 demo_v2 "l1" 1%positive [] [] [] demo_m1 demo_m2).
  - exact demo_heap_reg_ok.
  - vm_compute. reflexivity.
  - vm_compute. reflexivity.
  - exact demo_heap_foreign.
  - reflexivity.
  - reflexivity.
  - vm_compute. reflexivity.
  - vm_compute. reflexivity.
  - vm_compute. reflexivity.
Defined.

Lemma C9_null_model_ids_are_tolerated_witness :
  (∃ r m', deep_copy_lora_entry (Some 5%positive) (Mem demo_heap []) = Some (r, m') ∧
           (alloc_ok [] → is_Some r) ∧
           ∀ c', r = Some c' →
                 ∃ a', entry_ids (heap m') c' = Some a' ∧
                       Forall2 (λ x y, x = None ↔ y = None)
                         [Some 2%positive; None; Some 3%positive; Some 11%positive] a') ∧
  (∃ b, entry_matches 5%positive 10%positive (Mem demo_heap []) = Some (b, Mem demo_heap []) ∧
        (b = true ↔ ∃ l, Some l ∈ [Some 2%positive; None; Some 3%positive; Some 11%positive]
                         ∧ demo_heap !! l = Some (BStr "mB"))) ∧
  (∃ m', free_lora_entry (Some 5%positive) (Mem demo_heap []) = Some (tt, m') ∧
         heap m' = free_all (entry_locs demo_heap 5%positive) demo_heap).
Proof.
  apply (C9_null_model_ids_are_tolerated demo_heap [] 5%positive
           [Some 2%positive; None; Some 3%positive; Some 11%positive] 10%positive "mB").
  - split.
    + exists demo_v1. vm_compute. reflexivity.
    + apply (bool_decide_unpack _). vm_compute. exact I.
  - vm_compute. reflexivity.
  - vm_compute. reflexivity.
Defined.

(** ** The registry as a finite map *)

Lemma view_map_agree h h' hd :
  reg_ok h hd → (∀ l, is_Some (h !! l) → h' !! l = h !! l) →
  view_map h' hd = view_map h hd.
Proof.
  intros Hok Hag. pose proof Hok as (entries & Hreg & _).
  destruct (reg_ok_agree h h' hd entries Hok Hreg) as (_ & Hreg' & Hsame).
  { intros l Hl. apply Hag. by eapply reg_owns_present. }
  unfold view_map. rewrite Hreg, Hreg'. f_equal.
  apply map_eq. intros k. rewrite !lookup_omap.
  destruct (entries !! k) as [c|] eqn:Hk; [simpl|done].
  by destruct (Hsame _ _ Hk) as [_ ->].
Qed.

Lemma view_map_lookup h hd entries vm k :
  reg_ok h hd → reg_entries h hd = Some entries → view_map h hd = Some vm →
  match entries !! k with
  | Some c => ∃ v, vm !! k = Some v ∧ read_entry h c = Some v ∧ v_id v = Some k
  | None => vm !! k = None
  end.
Proof.
  intros Hok Hreg Hvm. unfold view_map in Hvm. rewrite Hreg in Hvm.
  injection Hvm as <-. rewrite lookup_omap.
  destruct (entries !! k) as [c|] eqn:Hk; [simpl|done].
  destruct (reg_ok_entry _ _ _ _ _ Hok Hreg Hk) as (e & a & v & Hrep & _ & _ & Hid).
  apply rep_read_entry in Hrep. exists v. by rewrite Hrep.
Qed.

Lemma view_map_is_Some h hd : reg_ok h hd → is_Some (view_map h hd).
Proof. intros (entries & Hreg & _). unfold view_map. rewrite Hreg. by eexists. Qed.

(** X1: [rac_lora_registry_create] with a null out-pointer answers
    invalid-argument and does nothing.  Otherwise it reports out-of-memory
    with the heap as it was, or it hands out a new registry in memory that
    was unused: the registry is well formed, holds no entry, and [get_all]
    on it gives success with a null array and count 0. *)
Theorem create_gives_empty_registry h σ out_handle :
  ∃ res m', rac_lora_registry_create out_handle (Mem h σ) = Some (res, m') ∧
    match res with
    | (RAC_ERROR_INVALID_ARGUMENT, None) => out_handle = false ∧ m' = Mem h σ
    | (RAC_ERROR_OUT_OF_MEMORY, None) => out_handle = true ∧ heap m' = h ∧ ¬ alloc_ok σ
    | (RAC_SUCCESS, Some (Some r)) =>
      out_handle = true ∧ h !! r = None ∧ heap m' = <[r:=BRegistry ∅]> h ∧
      reg_ok (heap m') r ∧ view_map (heap m') r = Some ∅ ∧
      ∀ σ', rac_lora_registry_get_all (Some r) true true (Mem (heap m') σ')
            = Some ((RAC_SUCCESS, OutArray (Some None) (Some 0)), Mem (heap m') σ')
    | _ => False
    end.
Proof.
  destruct out_handle; [|by eexists _, _].
  assert (wp (rac_lora_registry_create true)
            (λ res m',
               match res with
               | (RAC_ERROR_OUT_OF_MEMORY, None) => heap m' = h ∧ ¬ alloc_ok σ
               | (RAC_SUCCESS, Some (Some r)) =>
                 h !! r = None ∧ heap m' = <[r:=BRegistry ∅]> h ∧ reg_ok (heap m') r
               | _ => False
               end) (Mem h σ)) as Hwp.
  { apply create_spec; [done|]. intros r m' ? ? ?. done. }
  apply wp_elim in Hwp as ([res out] & m' & Hrun & Hres).
  exists (res, out), m'. split; [done|].
  destruct res; try done; destruct out as [[r|]|]; try done.
  destruct Hres as (Hr & Hm & Hok). split_and!; [done..| |].
  - unfold view_map, reg_entries. rewrite Hm, lookup_insert_eq.
    by rewrite omap_empty.
  - intros σ'. unfold rac_lora_registry_get_all, bind, load_registry, bind, load.
    simpl. rewrite Hm, lookup_insert_eq. simpl. by rewrite <- Hm.
Qed.

(** With its memory granted, the C++ library changes nothing. *)
Lemma register_cxx_granted handle entry m :
  rac_lora_registry_register_cxx true true handle entry m
  = returning (rac_lora_registry_register handle entry) m.
Proof.
  unfold rac_lora_registry_register_cxx, rac_lora_registry_register, returning.
  destruct handle as [hd|], entry as [en|]; try done.
  unfold bind. destruct (load_entry en m) as [[e m1]|]; [|done].
  destruct (id e) as [idl|]; [|done].
  destruct (load_str idl m1) as [[k m2]|]; [|done].
  destruct (deep_copy_lora_entry (Some en) m2) as [[[c|] m3]|]; try done.
  destruct (load_registry hd m3) as [[entries m4]|]; [|done].
  destruct (entries !! k) as [old|].
  - destruct (free_lora_entry (Some old) m4) as [[[] m5]|]; [|done].
    destruct (load_registry hd m5) as [[entries' m6]|]; [|done].
    by destruct (store hd (BRegistry (<[k:=c]> entries')) m6) as [[[] m7]|].
  - unfold ret at 1 3. 
    destruct (load_registry hd m4) as [[entries' m6]|]; [|done].
    by destruct (store hd (BRegistry (<[k:=c]> entries')) m6) as [[[] m7]|].
Qed.

Lemma remove_cxx_granted handle key m :
  rac_lora_registry_remove_cxx true handle key m
  = returning (rac_lora_registry_remove handle key) m.
Proof.
  unfold rac_lora_registry_remove_cxx, rac_lora_registry_remove, returning.
  destruct handle as [hd|], key as [kp|]; try done.
  unfold bind. destruct (load_str kp m) as [[k m2]|]; [|done].
  destruct (load_registry hd m2) as [[entries m4]|]; [|done].
  destruct (entries !! k) as [old|]; [|done].
  destruct (free_lora_entry (Some old) m4) as [[[] m5]|]; [|done].
  destruct (load_registry hd m5) as [[entries' m6]|]; [|done].
  by destruct (store hd (BRegistry (delete k entries')) m6) as [[[] m7]|].
Qed.

(** The first steps of [register] on a readable entry with an id. *)
Lemma register_cxx_start h σ hd en e a v k so io :
  rep h en e a v → v_id v = Some k →
  rac_lora_registry_register_cxx so io (Some hd) (Some en) (Mem h σ)
  = if so then
      bind (deep_copy_lora_entry (Some en)) (λ copy,
        match copy with
        | None => ret (Return RAC_ERROR_OUT_OF_MEMORY)
        | Some c =>
          let* entries := load_registry hd in
          do (match entries !! k with
              | Some old => free_lora_entry (Some old)
              | None => ret tt
              end) then
          if match entries !! k with Some _ => true | None => io end
          then
            let* entries := load_registry hd in
            do store hd (BRegistry (<[k:=c]> entries)) then
            ret (Return RAC_SUCCESS)
          else ret (Throw bad_alloc)
        end) (Mem h σ)
    else Some (Throw bad_alloc, Mem h σ).
Proof.
  intros Hen Hid. pose proof Hen as (Henc & (Hf & _)%reads_iff).
  specialize (Hf Fid). simpl in Hf. rewrite Hid in Hf.
  unfold rac_lora_registry_register_cxx.
  unfold bind at 1, load_entry, bind at 1, load. cbn [heap]. rewrite Henc.
  unfold ret at 1. destruct (id e) as [idl|]; [|done].
  apply read_str_Some in Hf as (k' & [= <-] & Hidl).
  unfold bind at 1, load_str, bind at 1, load. cbn [heap]. rewrite Hidl.
  unfold ret at 1. by destruct so.
Qed.

(** After the copy, the registry object is as it was. *)
Lemma copied_registry h σ hd entries v c m1 :
  reg_entries h hd = Some entries → copied h σ v (Some c) m1 →
  load_registry hd m1 = Some (entries, m1).
Proof.
  intros Hreg%reg_entries_Some [_ (e & a & _ & _ & Hfresh & Hframe)].
  unfold load_registry, bind, load. rewrite Hframe, Hreg; [done|].
  intros ?%Hfresh. congruence.
Qed.

(** When the key is stored already, the map builds no node. *)
Lemma register_cxx_old_key h σ hd en e a v k entries io :
  rep h en e a v → v_id v = Some k →
  reg_entries h hd = Some entries → is_Some (entries !! k) →
  rac_lora_registry_register_cxx true io (Some hd) (Some en) (Mem h σ)
  = returning (rac_lora_registry_register (Some hd) (Some en)) (Mem h σ).
Proof.
  intros Hen Hid Hreg [old Hold]. rewrite <- register_cxx_granted.
  rewrite !(register_cxx_start _ _ _ _ _ _ _ _ _ _ Hen Hid).
  unfold bind.
  destruct (deep_copy_lora_entry (Some en) (Mem h σ)) as [[[c|] m1]|] eqn:Hrun;
    [|done..].
  assert (copied h σ v (Some c) m1) as Hc.
  { eapply (wp_run _ (copied h σ v)); [|exact Hrun]. eapply deep_copy_spec; [done|]. auto. }
  rewrite (copied_registry _ _ _ _ _ _ _ Hreg Hc).
  by rewrite Hold.
Qed.

(** When the key is new and the map does not get its node, the copy has
    been made and [std::bad_alloc] leaves the function. *)
Lemma register_cxx_new_key h σ hd en e a v k entries :
  rep h en e a v → v_id v = Some k →
  reg_entries h hd = Some entries → entries !! k = None →
  rac_lora_registry_register_cxx true false (Some hd) (Some en) (Mem h σ)
  = match deep_copy_lora_entry (Some en) (Mem h σ) with
    | Some (Some c, m1) => Some (Throw bad_alloc, m1)
    | Some (None, m1) => Some (Return RAC_ERROR_OUT_OF_MEMORY, m1)
    | None => None
    end.
Proof.
  intros Hen Hid Hreg Hnew.
  rewrite (register_cxx_start _ _ _ _ _ _ _ _ _ _ Hen Hid).
  unfold bind.
  destruct (deep_copy_lora_entry (Some en) (Mem h σ)) as [[[c|] m1]|] eqn:Hrun;
    [|done..].
  assert (copied h σ v (Some c) m1) as Hc.
  { eapply (wp_run _ (copied h σ v)); [|exact Hrun]. eapply deep_copy_spec; [done|]. auto. }
  rewrite (copied_registry _ _ _ _ _ _ _ Hreg Hc).
  by rewrite Hnew.
Qed.

(** X2: registration is insertion into a finite map, with the C++
    library's own allocations taken into account.  On a well-formed
    registry, for a readable entry with id [k], the call returns success
    whenever no allocation fails, the library can build the key string,
    and it can build a map node or needs none because [k] is stored
    already.  After a success the registry is well formed and maps [k] to
    the value of the entry and every other id to what it held before, and
    memory outside the registry is untouched.  It returns out-of-memory
    only when an allocation of the copy failed, with the heap as it was.
    Otherwise [std::bad_alloc] leaves the function: either the key string
    could not be built, and nothing has changed, or the node for a new key
    could not be built, and then the registry holds what it held, every
    earlier block is as it was, and the copy made for the registry stays
    allocated and belongs to nobody. *)
Theorem register_inserts h σ hd en v k vm string_ok insert_ok :
  reg_ok h hd → read_entry h en = Some v → v_id v = Some k →
  view_map h hd = Some vm →
  ∃ out m',
    rac_lora_registry_register_cxx string_ok insert_ok (Some hd) (Some en) (Mem h σ)
    = Some (out, m') ∧
    (alloc_ok σ → string_ok = true → insert_ok = true ∨ is_Some (vm !! k) →
     out = Return RAC_SUCCESS) ∧
    match out with
    | Return RAC_SUCCESS =>
      reg_ok (heap m') hd ∧ view_map (heap m') hd = Some (<[k:=v]> vm) ∧
      ∀ l, is_Some (h !! l) → ¬ reg_owns h hd l → heap m' !! l = h !! l
    | Return RAC_ERROR_OUT_OF_MEMORY => heap m' = h ∧ ¬ alloc_ok σ
    | Throw bad_alloc =>
      (string_ok = false ∧ m' = Mem h σ) ∨
      (string_ok = true ∧ insert_ok = false ∧ vm !! k = None ∧
       reg_ok (heap m') hd ∧ view_map (heap m') hd = Some vm ∧
       (∀ l, is_Some (h !! l) → heap m' !! l = h !! l) ∧
       ∃ c, h !! c = None ∧ owned (heap m') c ∧ read_entry (heap m') c = Some v ∧
            ¬ reg_owns (heap m') hd c)
    | _ => False
    end.
Proof.
  intros Hok Hread Hid Hvm. pose proof Hread as (e & a & Hrep)%read_entry_rep.
  pose proof Hok as (entries & Hreg & _).
  pose proof (view_map_lookup _ _ _ _ k Hok Hreg Hvm) as Hkey.
  destruct string_ok.
  2:{ rewrite (register_cxx_start _ _ _ _ _ _ _ _ _ _ Hrep Hid).
      eexists _, _. split; [done|]. split; [done|]. by left. }
  assert (insert_ok = true ∨ is_Some (entries !! k) ∨
          (insert_ok = false ∧ entries !! k = None)) as [Hio|[Hold|[Hio Hnew]]].
  { destruct insert_ok; [by left|]. destruct (entries !! k); [right; left; by eexists|].
    by do 2 right. }
  3:{ (* the key is new and the map gets no node *)
      rewrite Hnew in Hkey. subst insert_ok.
      rewrite (register_cxx_new_key _ _ _ _ _ _ _ _ _ Hrep Hid Hreg Hnew).
      assert (wp (deep_copy_lora_entry (Some en)) (copied h σ v) (Mem h σ)) as Hwp.
      { eapply deep_copy_spec; [done|]. auto. }
      apply wp_elim in Hwp as (r & [h1 σ1] & -> & Hsched & Hcopy).
      destruct r as [c|]; simpl in Hcopy.
      - destruct Hcopy as (e' & a' & Hrep' & Hnd & Hfresh & Hframe).
        assert (∀ l, is_Some (h !! l) → h1 !! l = h !! l) as Hold.
        { intros l [b Hb]. apply Hframe. intros ?%Hfresh. congruence. }
        destruct (reg_ok_agree h h1 hd entries Hok Hreg) as (Hok1 & Hreg1 & Hsame1).
        { intros l Hl. apply Hold. by eapply reg_owns_present. }
        eexists _, _. split; [done|]. split.
        { intros _ _ [?|[? ?]]; congruence. }
        right. simpl. split_and!; [done..| |done|].
        + by rewrite (view_map_agree h).
        + exists c. split_and!.
          * apply Hfresh, elem_of_locs_of. auto.
          * apply owned_rep. eauto.
          * by eapply rep_read_entry.
          * intros Hown.
            assert (reg_owns h hd c) as Hown0.
            { destruct Hown as [->|(es & k' & c' & Hes & Hk' & Hl)]; [by left|].
              assert (es = entries) as -> by congruence.
              destruct (Hsame1 _ _ Hk') as [Hl1 _]. rewrite Hl1 in Hl.
              right. eauto 10. }
            destruct (reg_owns_present _ _ _ _ Hok Hreg Hown0) as [b Hb].
            assert (h !! c = None) by (apply Hfresh, elem_of_locs_of; auto).
            congruence.
      - eexists _, _. split; [done|]. split.
        { intros [_ [? ?]]%Hsched. done. }
        simpl. split; [done|]. intros [_ [? ?]]%Hsched. done. }
  (* the library gets its memory, or asks for none *)
  all: assert (rac_lora_registry_register_cxx true insert_ok (Some hd) (Some en) (Mem h σ)
               = returning (rac_lora_registry_register (Some hd) (Some en)) (Mem h σ))
         as ->;
    [first [ subst insert_ok; apply register_cxx_granted
           | by eapply register_cxx_old_key ]|].
  all: assert (wp (rac_lora_registry_register (Some hd) (Some en))
            (λ r m', (alloc_ok σ → r = RAC_SUCCESS) ∧
               match r with
               | RAC_SUCCESS =>
                 reg_ok (heap m') hd ∧ view_map (heap m') hd = Some (<[k:=v]> vm) ∧
                 ∀ l, is_Some (h !! l) → ¬ reg_owns h hd l → heap m' !! l = h !! l
               | RAC_ERROR_OUT_OF_MEMORY => heap m' = h ∧ ¬ alloc_ok σ
               | _ => False
               end) (Mem h σ)) as Hwp;
    [eapply register_spec_full; [done..| |];
     [intros m' Hm Hσ; done
     |intros m' entries' c Hreg0 Hreg' Hok' Hread' Hother Hframe _ _;
      assert (entries' = entries) as -> by congruence;
      split_and!; [done..| |done];
      unfold view_map in *; rewrite Hreg in Hvm; rewrite Hreg';
      injection Hvm as <-; f_equal; apply map_eq; intros k';
      destruct (decide (k' = k)) as [->|Hne];
      [by rewrite lookup_omap, !lookup_insert_eq
      |rewrite lookup_omap, !lookup_insert_ne, lookup_omap by done;
       destruct (entries !! k') as [c'|] eqn:Hk'; [simpl|done];
       by apply (Hother k')]]|].
  all: apply wp_elim in Hwp as (r & m' & Hrun & Hsucc & Hres);
    exists (Return r), m'; unfold returning, bind; rewrite Hrun;
    split; [done|]; split; [by intros ->%Hsucc|];
    destruct r; done.
Qed.

Lemma remove_cxx_refused hd kp key m :
  heap m !! kp = Some (BStr key) →
  rac_lora_registry_remove_cxx false (Some hd) (Some kp) m = Some (Throw bad_alloc, m).
Proof.
  intros Hkp. unfold rac_lora_registry_remove_cxx, bind, load_str, bind, load.
  by rewrite Hkp.
Qed.

(** X3: removal is deletion from the finite map, with the C++ library's
    own allocation taken into account.  When the temporary key string of
    the lookup cannot be built, [std::bad_alloc] leaves the function and
    nothing has changed.  Otherwise, for a key that is not stored the
    answer is not-found and the heap is as it was; for a stored key the
    answer is success, the registry stays well formed and holds the old
    map without that key, and only blocks of the registry have changed. *)
Theorem remove_deletes h σ hd kp key vm key_ok :
  reg_ok h hd → h !! kp = Some (BStr key) → view_map h hd = Some vm →
  ∃ out m',
    rac_lora_registry_remove_cxx key_ok (Some hd) (Some kp) (Mem h σ) = Some (out, m') ∧
    match out with
    | Throw bad_alloc => key_ok = false ∧ m' = Mem h σ
    | Return RAC_ERROR_NOT_FOUND => key_ok = true ∧ vm !! key = None ∧ heap m' = h
    | Return RAC_SUCCESS =>
      key_ok = true ∧ is_Some (vm !! key) ∧
      reg_ok (heap m') hd ∧ view_map (heap m') hd = Some (delete key vm) ∧
      ∀ l, heap m' !! l ≠ h !! l → reg_owns h hd l
    | _ => False
    end.
Proof.
  intros Hok Hkp Hvm. pose proof Hok as (entries & Hreg & _).
  pose proof (view_map_lookup _ _ _ _ key Hok Hreg Hvm) as Hkey.
  destruct key_ok; [|rewrite (remove_cxx_refused _ _ key) by done; by eexists _, _].
  rewrite remove_cxx_granted.
  assert (wp (rac_lora_registry_remove (Some hd) (Some kp))
            (λ r m',
               match r with
               | RAC_ERROR_NOT_FOUND => vm !! key = None ∧ heap m' = h
               | RAC_SUCCESS =>
                 is_Some (vm !! key) ∧
                 reg_ok (heap m') hd ∧ view_map (heap m') hd = Some (delete key vm) ∧
                 ∀ l, heap m' !! l ≠ h !! l → reg_owns h hd l
               | _ => False
               end) (Mem h σ)) as Hwp.
  { eapply remove_spec; [done..| |].
    - intros Hnone. rewrite Hnone in Hkey. done.
    - intros c h' Hc Hreg' Hok' Hfreed Hframe Hother. rewrite Hc in Hkey.
      destruct Hkey as (v & Hv & _). simpl. split_and!; [by eexists|done| |].
      + unfold view_map in *. rewrite Hreg in Hvm. rewrite Hreg'.
        injection Hvm as <-. f_equal. apply map_eq. intros k'.
        destruct (decide (k' = key)) as [->|Hne].
        * by rewrite lookup_omap, !lookup_delete_eq.
        * rewrite lookup_omap, !lookup_delete_ne, lookup_omap by done.
          destruct (entries !! k') as [c'|] eqn:Hk'; [simpl|done].
          by apply (Hother k').
      + intros l Hl. destruct (decide (l = hd)) as [->|Hne]; [by left|].
        right. exists entries, key, c. split_and!; [done..|].
        destruct (decide (l ∈ entry_locs h c)) as [?|Hnin]; [done|].
        destruct Hl. by apply Hframe. }
  apply wp_elim in Hwp as (r & m' & Hrun & Hres).
  exists (Return r), m'. unfold returning, bind. rewrite Hrun. split; [done|].
  destruct r; try done; by split.
Qed.


(** X5: [get_all] hands out copies of all stored entries, in the order
    of enumeration, with their number as count; it succeeds whenever no
    allocation fails or the registry is empty (null array, count 0, state
    untouched), existing blocks are unchanged, and the only other outcome
    is out-of-memory with null written and the heap as it was. *)
Theorem get_all_returns_everything h σ hd :
  reg_ok h hd →
  ∃ all, stored_views h hd = Some all ∧
    ∃ res out m',
      rac_lora_registry_get_all (Some hd) true true (Mem h σ) = Some ((res, out), m') ∧
      (alloc_ok σ ∨ all = [] → res = RAC_SUCCESS) ∧
      match res with
      | RAC_SUCCESS =>
        read_result (heap m') out = Some all ∧ out_count out = Some (length all) ∧
        (all = [] → out = OutArray (Some None) (Some 0) ∧ m' = Mem h σ) ∧
        (∀ l, is_Some (h !! l) → heap m' !! l = h !! l)
      | RAC_ERROR_OUT_OF_MEMORY => heap m' = h ∧ out_entries out = Some None
      | _ => False
      end.
Proof.
  intros Hok. pose proof Hok as (entries & Hreg & _).
  destruct (stored_views_ok _ _ _ Hok Hreg) as (all & Hall & HF2).
  exists all. split; [done|].
  assert (Forall2 (λ s w, read_entry h s = Some w) (in_order entries).*2 all) as Hsrc.
  { apply Forall2_fmap_l. eapply Forall2_impl; [exact HF2|]. by intros ? ? [? _]. }
  pose proof (Forall2_length _ _ _ Hsrc) as Hlen.
  assert (wp (rac_lora_registry_get_all (Some hd) true true)
            (λ x m',
               (alloc_ok σ ∨ all = [] → x.1 = RAC_SUCCESS) ∧
               match x.1 with
               | RAC_SUCCESS =>
                 read_result (heap m') x.2 = Some all ∧
                 out_count x.2 = Some (length all) ∧
                 (all = [] → x.2 = OutArray (Some None) (Some 0) ∧ m' = Mem h σ) ∧
                 (∀ l, is_Some (h !! l) → heap m' !! l = h !! l)
               | RAC_ERROR_OUT_OF_MEMORY => heap m' = h ∧ out_entries x.2 = Some None
               | _ => False
               end) (Mem h σ)) as Hwp.
  { unfold rac_lora_registry_get_all.
    apply wp_bind. eapply wp_load_registry; [by apply reg_entries_Some|].
    eapply copy_out_spec; [exact Hsrc| |].
    - intros m' out Hres Hcount Hempty Hframe. simpl. rewrite Hlen in Hcount.
      split_and!; [done..| |done].
      intros ->. apply Hempty. apply nil_length_inv. by rewrite Hlen.
    - intros m' out Hσ Hne Hheap Hout. simpl. split_and!; [|done..].
      intros [?| ->]; [done|]. destruct Hne. by apply nil_length_inv. }
  apply wp_elim in Hwp as ([res out] & m' & Hrun & ? & ?).
  by exists res, out, m'.
Qed.

(** ** Copies and their release *)

(** X7: [rac_lora_entry_copy] followed by [rac_lora_entry_free] is the
    identity on the heap.  The copy of an owned entry is null only when an
    allocation failed, and then the heap is as it was; otherwise the copy
    reads as the source does, and releasing it gives back exactly the heap
    from before the copy. *)
Theorem copy_then_free_restores h σ s :
  owned h s →
  ∃ r m1, rac_lora_entry_copy (Some s) (Mem h σ) = Some (r, m1) ∧
    (alloc_ok σ → is_Some r) ∧
    match r with
    | None => heap m1 = h
    | Some c =>
      read_entry (heap m1) c = read_entry h s ∧
      ∃ m2, rac_lora_entry_free (Some c) m1 = Some (tt, m2) ∧ heap m2 = h
    end.
Proof.
  intros (e & a & v & Hrep & Hnd)%owned_rep.
  assert (wp (rac_lora_entry_copy (Some s)) (copied h σ v) (Mem h σ)) as Hwp.
  { eapply deep_copy_spec; [done|]. auto. }
  apply wp_elim in Hwp as (r & [h1 σ1] & Hrun & Hok & Hcopy).
  exists r, (Mem h1 σ1). split_and!; [done|by intros [_ ?]%Hok|].
  destruct r as [c|]; [|done]. simpl in Hcopy.
  destruct Hcopy as (e' & a' & Hrep' & Hnd' & Hfresh & Hframe).
  split.
  - simpl. by rewrite (rep_read_entry _ _ _ _ _ Hrep'), (rep_read_entry _ _ _ _ _ Hrep).
  - assert (wp (rac_lora_entry_free (Some c))
              (λ _ m2, m2 = Mem (free_all (locs_of c e' a') h1) σ1) (Mem h1 σ1)) as Hwp.
    { by eapply free_lora_entry_spec. }
    apply wp_elim in Hwp as ([] & m2 & Hrun2 & ->).
    eexists. split; [done|]. simpl. apply map_eq. intros l.
    rewrite lookup_free_all. destruct (decide (l ∈ locs_of c e' a')) as [Hin|Hnin].
    + symmetry. by apply Hfresh.
    + by apply Hframe.
Qed.

(** X8: a copy shares no block with its source: after the source is
    released, the copy still reads as the value the source had and can
    still be released. *)
Theorem copy_survives_its_source h σ s v c m1 :
  owned h s → read_entry h s = Some v →
  rac_lora_entry_copy (Some s) (Mem h σ) = Some (Some c, m1) →
  (∀ l, l ∈ entry_locs (heap m1) c → l ∉ entry_locs h s) ∧
  ∃ m2, rac_lora_entry_free (Some s) m1 = Some (tt, m2) ∧
        read_entry (heap m2) c = Some v ∧ owned (heap m2) c.
Proof.
  intros (e & a & v' & Hrep & Hnd)%owned_rep Hv Hrun.
  assert (v' = v) as -> by (apply rep_read_entry in Hrep; congruence).
  assert (wp (rac_lora_entry_copy (Some s)) (copied h σ v) (Mem h σ)) as Hwp.
  { eapply deep_copy_spec; [done|]. auto. }
  pose proof (wp_run _ _ _ _ _ Hwp Hrun) as [_ Hcopy]. simpl in Hcopy.
  destruct m1 as [h1 σ1]. simpl in *.
  destruct Hcopy as (e' & a' & Hrep' & Hnd' & Hfresh & Hframe).
  assert (∀ l, l ∈ locs_of c e' a' → l ∉ locs_of s e a) as Hdis.
  { intros l Hl%Hfresh Hls. destruct (rep_present _ _ _ _ _ l Hrep Hls). congruence. }
  split.
  { rewrite (entry_locs_rep _ _ _ _ _ Hrep'), (entry_locs_rep _ _ _ _ _ Hrep). done. }
  assert (rep h1 s e a v) as Hrep1.
  { eapply rep_agree; [done|]. intros l Hl. apply Hframe.
    intros Hlc. by apply (Hdis l). }
  assert (wp (rac_lora_entry_free (Some s))
            (λ _ m2, m2 = Mem (free_all (locs_of s e a) h1) σ1) (Mem h1 σ1)) as Hwp2.
  { by eapply free_lora_entry_spec. }
  apply wp_elim in Hwp2 as ([] & m2 & Hrun2 & ->).
  eexists. split; [done|]. simpl.
  destruct (rep_stable h1 (free_all (locs_of s e a) h1) _ _ _ _ Hrep') as (Hr & Hl & Hread).
  { intros l Hl. apply lookup_free_all_notin. by apply Hdis. }
  split; [done|]. apply owned_rep. eauto.
Qed.

(** The release of a result array gives back all that [copy_out] added. *)
Lemma array_free_spec h h1 σ1 arr ces (Q : unit → mem → Prop) :
  h1 !! arr = Some (BEntryArr (Some <$> ces.*1)) →
  NoDup (arr :: blocks ces) →
  (∀ l, l ∈ arr :: blocks ces → h !! l = None) →
  (∀ l, l ∉ arr :: blocks ces → h1 !! l = h !! l) →
  Forall (λ x, ∃ w, rep h1 x.1 x.2.1 x.2.2 w) ces →
  Q tt (Mem h σ1) →
  wp (rac_lora_entry_array_free (Some arr) (length ces)) Q (Mem h1 σ1).
Proof.
  intros Harr Hnd Hfresh Hframe Hreps HQ. unfold rac_lora_entry_array_free.
  apply wp_bind. eapply (free_prefix_spec _ _ _ _ []); [by rewrite app_nil_r|done..|].
  apply wp_free.
  { rewrite lookup_free_all_notin; [by rewrite Harr|].
    by apply NoDup_cons in Hnd as [? _]. }
  assert (delete arr (free_all (blocks ces) h1) = h) as ->; [|done].
  apply map_eq. intros l.
  destruct (decide (l = arr)) as [->|Hla].
  { rewrite lookup_delete_eq. symmetry. apply Hfresh. left. }
  rewrite lookup_delete_ne by done. rewrite lookup_free_all.
  destruct (decide (l ∈ blocks ces)) as [Hin|Hnin].
  { symmetry. apply Hfresh. by right. }
  apply Hframe. by intros [?|?]%elem_of_cons.
Qed.

Lemma copy_out_release h σ srcs ws :
  Forall2 (λ s w, read_entry h s = Some w) srcs ws →
  wp (copy_out srcs)
     (λ x m1, x.1 = RAC_SUCCESS →
        ∃ arr n, out_entries x.2 = Some arr ∧ out_count x.2 = Some n ∧
          ∀ σ', wp (rac_lora_entry_array_free arr n) (λ _ m2, heap m2 = h)
                   (Mem (heap m1) σ'))
     (Mem h σ).
Proof.
  intros Hsrc. eapply copy_out_spec_full; [done| |done].
  intros m1 [[[arr|]|] [n|]] Hres Hcount Hempty Hframe Hrel _; simpl in *;
    try discriminate.
  - destruct (Hrel arr eq_refl) as (ces & Hlen & Harr & Hnd & Hfresh & Hfr & Hreps).
    exists (Some arr), n. split_and!; [done..|]. intros σ'.
    injection Hcount as ->. rewrite <- Hlen.
    eapply array_free_spec; [done..| |done].
    eapply Forall2_Forall_l; [exact Hreps|]. apply Forall_true. eauto.
  - exists None, n. split_and!; [done..|]. intros σ'. apply wp_ret. simpl.
    destruct srcs as [|s srcs].
    + by destruct (Hempty eq_refl) as [_ ->].
    + injection Hcount as ->. unfold read_result in Hres. simpl in Hres.
      discriminate.
Qed.

(** X9: [rac_lora_entry_array_free], called with the array and the
    count that a successful [get_all] or [get_for_model] wrote, is defined
    and gives back exactly the heap from before the query. *)
Theorem result_array_release h σ σ' hd mid model :
  reg_ok h hd → h !! mid = Some (BStr model) →
  ∀ call, call = rac_lora_registry_get_all (Some hd) true true ∨
          call = rac_lora_registry_get_for_model (Some hd) (Some mid) true true →
  ∀ out m1, call (Mem h σ) = Some ((RAC_SUCCESS, out), m1) →
  ∃ arr n, out_entries out = Some arr ∧ out_count out = Some n ∧
    ∃ m2, rac_lora_entry_array_free arr n (Mem (heap m1) σ') = Some (tt, m2) ∧
          heap m2 = h.
Proof.
  intros Hok Hmid call Hcall out m1 Hrun. pose proof Hok as (entries & Hreg & _).
  destruct (stored_views_ok _ _ _ Hok Hreg) as (all & Hall & HF2).
  assert (wp call
     (λ x m1, x.1 = RAC_SUCCESS →
        ∃ arr n, out_entries x.2 = Some arr ∧ out_count x.2 = Some n ∧
          ∀ σ', wp (rac_lora_entry_array_free arr n) (λ _ m2, heap m2 = h)
                   (Mem (heap m1) σ'))
     (Mem h σ)) as Hwp.
  { destruct Hcall as [-> | ->].
    - unfold rac_lora_registry_get_all.
      apply wp_bind. eapply wp_load_registry; [by apply reg_entries_Some|].
      apply (copy_out_release _ _ _ all).
      apply Forall2_fmap_l. eapply Forall2_impl; [exact HF2|]. by intros ? ? [? _].
    - unfold rac_lora_registry_get_for_model.
      apply wp_bind. eapply wp_load_registry; [by apply reg_entries_Some|].
      apply wp_bind. eapply collect_matches_spec; [|done|].
      { intros [k c] Hin%elem_of_in_order.
        destruct (reg_ok_entry _ _ _ _ _ Hok Hreg Hin) as (e & a & v & Hrep & _).
        eauto. }
      apply (copy_out_release _ _ _ (filter (view_matches model) all)).
      apply Forall2_fmap_l.
      eapply (Forall2_impl (λ kc w, read_entry h kc.2 = Some w ∧ v_id w = Some kc.1));
        [|by intros ? ? [? _]].
      apply Forall2_filter; [done|].
      intros kc w [Hr _]. unfold loc_matches. by rewrite Hr. }
  destruct (wp_run _ _ _ _ _ Hwp Hrun eq_refl) as (arr & n & Ha & Hn & Hfree).
  exists arr, n. split_and!; [done..|].
  specialize (Hfree σ'). apply wp_elim in Hfree as ([] & m2 & Hrun2 & ?). eauto.
Qed.

(** ** Destruction *)

Lemma free_entries_spec L h σ (Q : unit → mem → Prop) :
  (∀ kc, kc ∈ L → ∃ e a w, rep h kc.2 e a w) →
  NoDup (L ≫= λ kc, entry_locs h kc.2) →
  Q tt (Mem (free_all (L ≫= λ kc, entry_locs h kc.2) h) σ) →
  wp (free_entries L) Q (Mem h σ).
Proof.
  revert h. induction L as [|kc L IH]; intros h Hreps Hnd HQ; simpl.
  - by apply wp_ret.
  - destruct (Hreps kc) as (e & a & w & Hrep); [left|].
    pose proof (entry_locs_rep _ _ _ _ _ Hrep) as Hlocs.
    rewrite bind_cons in Hnd, HQ. rewrite Hlocs in Hnd, HQ.
    apply NoDup_app in Hnd as (Hnd1 & Hdis & Hnd2).
    apply wp_bind. eapply free_lora_entry_spec; [done..|].
    set (h1 := free_all (locs_of kc.2 e a) h).
    assert (∀ kc', kc' ∈ L → ∃ e' a' w', rep h1 kc'.2 e' a' w' ∧
                                         entry_locs h1 kc'.2 = entry_locs h kc'.2)
      as Hrest.
    { intros kc' Hin. destruct (Hreps kc') as (e' & a' & w' & Hrep'); [by right|].
      destruct (rep_stable h h1 _ _ _ _ Hrep') as (Hr & Hl & _).
      - intros l Hl. apply lookup_free_all_notin. intros Hlk.
        apply (Hdis l Hlk). apply list_elem_of_bind. exists kc'.
        by rewrite (entry_locs_rep _ _ _ _ _ Hrep').
      - exists e', a', w'. by rewrite Hl, (entry_locs_rep _ _ _ _ _ Hrep'). }
    assert (L ≫= (λ kc', entry_locs h1 kc'.2) = L ≫= (λ kc', entry_locs h kc'.2))
      as Hsame.
    { apply Forall_bind_ext, Forall_forall. intros kc' Hin.
      by destruct (Hrest kc' Hin) as (? & ? & ? & _ & ?). }
    apply IH.
    + intros kc' Hin. destruct (Hrest kc' Hin) as (? & ? & ? & ? & _). eauto.
    + by rewrite Hsame.
    + rewrite Hsame. unfold h1. by rewrite <- free_all_app.
Qed.

Lemma reg_blocks_NoDup h hd entries :
  reg_ok h hd → reg_entries h hd = Some entries →
  NoDup (hd :: reg_blocks h entries) ∧
  ∀ l, l ∈ hd :: reg_blocks h entries ↔ reg_owns h hd l.
Proof.
  intros Hok Hreg. split.
  - apply NoDup_cons. split.
    + intros (kc & Hl & Hin)%list_elem_of_bind. destruct kc as [k c].
      apply elem_of_in_order in Hin.
      destruct (reg_ok_entry _ _ _ _ _ Hok Hreg Hin) as (e & a & v & Hrep & _ & Hhd & _).
      simpl in Hl. by rewrite (entry_locs_rep _ _ _ _ _ Hrep) in Hl.
    + apply NoDup_bind.
      * intros [k1 c1] [k2 c2] l Hin1%elem_of_in_order Hin2%elem_of_in_order Hl1 Hl2.
        simpl in *. destruct (decide (k1 = k2)) as [->|Hne]; [congruence|].
        by destruct (reg_ok_disjoint _ _ _ _ _ _ _ l Hok Hreg Hne Hin1 Hin2).
      * intros [k c] Hin%elem_of_in_order.
        destruct (reg_ok_entry _ _ _ _ _ Hok Hreg Hin) as (e & a & v & Hrep & Hnd & _).
        simpl. by rewrite (entry_locs_rep _ _ _ _ _ Hrep).
      * eapply NoDup_fmap_1, NoDup_in_order_keys.
  - intros l. rewrite elem_of_cons. unfold reg_blocks. rewrite list_elem_of_bind.
    unfold reg_owns. split.
    + intros [->|([k c] & Hl & Hin%elem_of_in_order)]; [by left|].
      right. exists entries, k, c. done.
    + intros [->|(entries' & k & c & Hreg' & Hk & Hl)]; [by left|].
      assert (entries' = entries) as -> by congruence.
      right. exists (k, c). split; [done|]. by apply elem_of_in_order.
Qed.

(** X10: [rac_lora_registry_destroy] on a well-formed registry is
    defined, asks for no memory, releases the registry object and every
    block of every stored entry, and leaves all other memory as it
    was. *)
Theorem destroy_releases_everything h σ hd :
  reg_ok h hd →
  ∃ m', rac_lora_registry_destroy (Some hd) (Mem h σ) = Some (tt, m') ∧
    sched m' = σ ∧
    (∀ l, reg_owns h hd l → heap m' !! l = None) ∧
    (∀ l, ¬ reg_owns h hd l → heap m' !! l = h !! l).
Proof.
  intros Hok. pose proof Hok as (entries & Hreg & _).
  destruct (reg_blocks_NoDup _ _ _ Hok Hreg) as [Hnd Hown].
  apply NoDup_cons in Hnd as [Hhd Hnd].
  assert (wp (rac_lora_registry_destroy (Some hd))
            (λ _ m', m' = Mem (delete hd (free_all (reg_blocks h entries) h)) σ)
            (Mem h σ)) as Hwp.
  { unfold rac_lora_registry_destroy.
    apply wp_bind. eapply wp_load_registry; [by apply reg_entries_Some|].
    apply wp_bind. eapply free_entries_spec; [|exact Hnd|].
    { intros [k c] Hin%elem_of_in_order.
      destruct (reg_ok_entry _ _ _ _ _ Hok Hreg Hin) as (e & a & v & Hrep & _).
      eauto. }
    fold (reg_blocks h entries).
    apply wp_bind, wp_store.
    { rewrite lookup_free_all_notin by done. apply reg_entries_Some in Hreg. eauto. }
    apply wp_free; [by rewrite lookup_insert_eq|].
    by rewrite delete_insert_eq. }
  apply wp_elim in Hwp as ([] & m' & Hrun & ->).
  eexists. split_and!; [done|done| |]; simpl.
  - intros l [->|Hl]%Hown%elem_of_cons; [by rewrite lookup_delete_eq|].
    rewrite lookup_delete_ne by (by intros <-).
    by rewrite lookup_free_all, decide_True.
  - intros l Hl. assert (l ∉ hd :: reg_blocks h entries) as Hnin by (by rewrite Hown).
    apply not_elem_of_cons in Hnin as [? ?].
    by rewrite lookup_delete_ne, lookup_free_all_notin.
Qed.



Lemma demo_m3_view_map : view_map (heap demo_m3) 9%positive = Some demo_vm.
Proof. vm_compute. reflexivity. Qed.

Lemma demo_heap_owned_5 : owned demo_heap 5%positive.
Proof.
  split.
  - exists demo_v1. vm_compute. reflexivity.
  - apply (bool_decide_unpack _). vm_compute. exact I.
Qed.

Lemma register_inserts_witness :
  ∃ out m',
    rac_lora_registry_register_cxx true false (Some 9%positive) (Some 5%positive)
      (Mem demo_heap []) = Some (out, m') ∧
    (alloc_ok [] → true = true → false = true ∨ is_Some ((∅ : gmap string lora_view) !! "l1") →
     out = Return RAC_SUCCESS) ∧
    match out with
    | Return RAC_SUCCESS =>
      reg_ok (heap m') 9%positive ∧
      view_map (heap m') 9%positive = Some (<["l1":=demo_v1]> ∅) ∧
      ∀ l, is_Some (demo_heap !! l) → ¬ reg_owns demo_heap 9%positive l →
           heap m' !! l = demo_heap !! l
    | Return RAC_ERROR_OUT_OF_MEMORY => heap m' = demo_heap ∧ ¬ alloc_ok []
    | Throw bad_alloc =>
      (true = false ∧ m' = Mem demo_heap []) ∨
      (true = true ∧ false = false ∧ (∅ : gmap string lora_view) !! "l1" = None ∧
       reg_ok (heap m') 9%positive ∧ view_map (heap m') 9%positive = Some ∅ ∧
       (∀ l, is_Some (demo_heap !! l) → heap m' !! l = demo_heap !! l) ∧
       ∃ c, demo_heap !! c = None ∧ owned (heap m') c ∧
            read_entry (heap m') c = Some demo_v1 ∧ ¬ reg_owns (heap m') 9%positive c)
    | _ => False
    end.
Proof.
  apply (register_inserts demo_heap [] 9%positive 5%positive demo_v1 "l1" ∅ true false).
  - exact demo_heap_reg_ok.
  - vm_compute. reflexivity.
  - reflexivity.
  - vm_compute. reflexivity.
Defined.

Lemma remove_deletes_witness :
  ∃ out m',
    rac_lora_registry_remove_cxx true (Some 9%positive) (Some 1%positive)
      (Mem (heap demo_m3) []) = Some (out, m') ∧
    match out with
    | Throw bad_alloc => true = false ∧ m' = Mem (heap demo_m3) []
    | Return RAC_ERROR_NOT_FOUND =>
      true = true ∧ demo_vm !! "l1" = None ∧ heap m' = heap demo_m3
    | Return RAC_SUCCESS =>
      true = true ∧ is_Some (demo_vm !! "l1") ∧
      reg_ok (heap m') 9%positive ∧
      view_map (heap m') 9%positive = Some (delete "l1" demo_vm) ∧
      ∀ l, heap m' !! l ≠ heap demo_m3 !! l → reg_owns (heap demo_m3) 9%positive l
    | _ => False
    end.
Proof.
  apply (remove_deletes (heap demo_m3) [] 9%positive 1%positive "l1" demo_vm true).
  - exact demo_m3_reg_ok.
  - vm_compute. reflexivity.
  - exact demo_m3_view_map.
Defined.


Lemma get_all_returns_everything_witness :
  ∃ all, stored_views (heap demo_m3) 9%positive = Some all ∧
    ∃ res out m',
      rac_lora_registry_get_all (Some 9%positive) true true (Mem (heap demo_m3) [])
        = Some ((res, out), m') ∧
      (alloc_ok [] ∨ all = [] → res = RAC_SUCCESS) ∧
      match res with
      | RAC_SUCCESS =>
        read_result (heap m') out = Some all ∧ out_count out = Some (length all) ∧
        (all = [] → out = OutArray (Some None) (Some 0) ∧ m' = Mem (heap demo_m3) []) ∧
        (∀ l, is_Some (heap demo_m3 !! l) → heap m' !! l = heap demo_m3 !! l)
      | RAC_ERROR_OUT_OF_MEMORY => heap m' = heap demo_m3 ∧ out_entries out = Some None
      | _ => False
      end.
Proof.
  apply (get_all_returns_everything (heap demo_m3) [] 9%positive).
  exact demo_m3_reg_ok.
Defined.

Lemma copy_then_free_restores_witness :
  ∃ r m1, rac_lora_entry_copy (Some 5%positive) (Mem demo_heap [true; false]) = Some (r, m1) ∧
    (alloc_ok [true; false] → is_Some r) ∧
    match r with
    | None => heap m1 = demo_heap
    | Some c =>
      read_entry (heap m1) c = read_entry demo_heap 5%positive ∧
      ∃ m2, rac_lora_entry_free (Some c) m1 = Some (tt, m2) ∧ heap m2 = demo_heap
    end.
Proof.
  apply (copy_then_free_restores demo_heap [true; false] 5%positive).
  exact demo_heap_owned_5.
Defined.

Lemma copy_survives_its_source_witness :
  (∀ l, l ∈ entry_locs (heap demo_copy_mem) demo_copy → l ∉ entry_locs demo_heap 5%positive) ∧
  ∃ m2, rac_lora_entry_free (Some 5%positive) demo_copy_mem = Some (tt, m2) ∧
        read_entry (heap m2) demo_copy = Some demo_v1 ∧ owned (heap m2) demo_copy.
Proof.
  apply (copy_survives_its_source demo_heap [] 5%positive demo_v1 demo_copy demo_copy_mem).
  - exact demo_heap_owned_5.
  - vm_compute. reflexivity.
  - vm_compute. reflexivity.
Defined.

Lemma result_array_release_witness :
  ∃ arr n, out_entries demo_all_out = Some arr ∧ out_count demo_all_out = Some n ∧
    ∃ m2, rac_lora_entry_array_free arr n (Mem (heap demo_all_mem) []) = Some (tt, m2) ∧
          heap m2 = heap demo_m3.
Proof.
  apply (result_array_release (heap demo_m3) [] [] 9%positive 10%positive "mB"
           demo_m3_reg_ok eq_refl
           (rac_lora_registry_get_all (Some 9%positive) true true) (or_introl eq_refl)
           demo_all_out demo_all_mem).
  vm_compute. reflexivity.
Defined.

Lemma destroy_releases_everything_witness :
  ∃ m', rac_lora_registry_destroy (Some 9%positive) (Mem (heap demo_m3) []) = Some (tt, m') ∧
    sched m' = [] ∧
    (∀ l, reg_owns (heap demo_m3) 9%positive l → heap m' !! l = None) ∧
    (∀ l, ¬ reg_owns (heap demo_m3) 9%positive l → heap m' !! l = heap demo_m3 !! l).
Proof.
  apply (destroy_releases_everything (heap demo_m3) [] 9%positive).
  exact demo_m3_reg_ok.
Defined.

(** The registry at work from creation to destruction: what is left is
    the caller's heap. *)
Example demo_destroy :
  rac_lora_registry_destroy (Some 9%positive) (Mem (heap demo_m3) [])
  = Some (tt, Mem (delete 9%positive demo_heap) []).
Proof. vm_compute. reflexivity. Qed.

(** ** Argument checks *)

(** X11: [register] answers invalid-argument exactly when the handle
    is null, the entry is null, or the entry has a null id; in that case
    memory and allocator are as they were. *)
Theorem register_checks_its_arguments h σ handle entry :
  (∀ hd, handle = Some hd → reg_ok h hd) →
  (∀ en, entry = Some en → is_Some (read_entry h en)) →
  ∃ r m', rac_lora_registry_register handle entry (Mem h σ) = Some (r, m') ∧
    (r = RAC_ERROR_INVALID_ARGUMENT ↔
     handle = None ∨ entry = None ∨
     ∃ en v, entry = Some en ∧ read_entry h en = Some v ∧ v_id v = None) ∧
    (r = RAC_ERROR_INVALID_ARGUMENT → m' = Mem h σ).
Proof.
  intros Hh He.
  destruct handle as [hd|]; [|eexists _, _; split; [done|]; split; [|done]; split; auto].
  destruct entry as [en|]; [|eexists _, _; split; [done|]; split; [|done]; split; auto].
  destruct (He en eq_refl) as [v Hv]. pose proof (Hh hd eq_refl) as Hok.
  pose proof Hv as (e & a & Hrep)%read_entry_rep.
  pose proof Hrep as (Hen & (Hf & _)%reads_iff).
  specialize (Hf Fid). simpl in Hf.
  destruct (v_id v) as [k|] eqn:Hid.
  - assert (wp (rac_lora_registry_register (Some hd) (Some en))
              (λ r _, r ≠ RAC_ERROR_INVALID_ARGUMENT) (Mem h σ)) as Hwp.
    { eapply register_spec_full; [done..| |]; intros; discriminate. }
    apply wp_elim in Hwp as (r & m' & Hrun & Hr).
    exists r, m'. split; [done|]. split; [|done]. split; [done|].
    intros [?|[?|(en' & v' & [= <-] & Hv' & Hid')]]; try done.
    rewrite Hv in Hv'. injection Hv' as <-. congruence.
  - assert (id e = None) as Hnull.
    { destruct (id e) as [l|]; [|done]. simpl in Hf.
      destruct (h !! l) as [[]|]; done. }
    exists RAC_ERROR_INVALID_ARGUMENT, (Mem h σ). split.
    + unfold rac_lora_registry_register, bind, load_entry, bind, load. simpl.
      rewrite Hen. simpl. by rewrite Hnull.
    + split; [|done]. split; [|done]. intros _. do 2 right. by exists en, v.
Qed.

Lemma register_checks_its_arguments_witness :
  ∃ r m', rac_lora_registry_register (Some 9%positive) (Some 7%positive)
            (Mem (heap demo_m3) []) = Some (r, m') ∧
    (r = RAC_ERROR_INVALID_ARGUMENT ↔
     Some 9%positive = None ∨ Some 7%positive = None ∨
     ∃ en v, Some 7%positive = Some en ∧ read_entry (heap demo_m3) en = Some v ∧
             v_id v = None) ∧
    (r = RAC_ERROR_INVALID_ARGUMENT → m' = Mem (heap demo_m3) []).
Proof.
  apply (register_checks_its_arguments (heap demo_m3) [] (Some 9%positive)
           (Some 7%positive)).
  - intros hd [= <-]. exact demo_m3_reg_ok.
  - intros en [= <-]. exists demo_v2. vm_compute. reflexivity.
Defined.

(** X12: [remove], [get], [get_for_model] and [get_all] answer
    invalid-argument exactly when the handle, the key they take, or one of
    their out-pointers is null; in that case nothing is written to the
    out-parameters and memory and allocator are as they were. *)
Theorem lookups_check_their_arguments h σ handle key out out_e out_c :
  (∀ hd, handle = Some hd → reg_ok h hd) →
  (∀ kp, key = Some kp → ∃ s, h !! kp = Some (BStr s)) →
  (∃ r m', rac_lora_registry_remove handle key (Mem h σ) = Some (r, m') ∧
     (r = RAC_ERROR_INVALID_ARGUMENT ↔ handle = None ∨ key = None) ∧
     (r = RAC_ERROR_INVALID_ARGUMENT → m' = Mem h σ)) ∧
  (∃ r o m', rac_lora_registry_get handle key out (Mem h σ) = Some ((r, o), m') ∧
     (r = RAC_ERROR_INVALID_ARGUMENT ↔ handle = None ∨ key = None ∨ out = false) ∧
     (r = RAC_ERROR_INVALID_ARGUMENT → o = None ∧ m' = Mem h σ)) ∧
  (∃ r o m', rac_lora_registry_get_for_model handle key out_e out_c (Mem h σ)
             = Some ((r, o), m') ∧
     (r = RAC_ERROR_INVALID_ARGUMENT ↔
      handle = None ∨ key = None ∨ out_e = false ∨ out_c = false) ∧
     (r = RAC_ERROR_INVALID_ARGUMENT → o = not_written ∧ m' = Mem h σ)) ∧
  (∃ r o m', rac_lora_registry_get_all handle out_e out_c (Mem h σ)
             = Some ((r, o), m') ∧
     (r = RAC_ERROR_INVALID_ARGUMENT ↔ handle = None ∨ out_e = false ∨ out_c = false) ∧
     (r = RAC_ERROR_INVALID_ARGUMENT → o = not_written ∧ m' = Mem h σ)).
Proof.
  intros Hh Hk.
  assert (∀ hd, handle = Some hd →
            ∃ entries all, reg_ok h hd ∧ reg_entries h hd = Some entries ∧
              Forall2 (λ kc w, read_entry h kc.2 = Some w ∧ v_id w = Some kc.1)
                      (in_order entries) all) as Hreg.
  { intros hd Hhd. pose proof (Hh hd Hhd) as Hok. pose proof Hok as (entries & Hreg & _).
    destruct (stored_views_ok _ _ _ Hok Hreg) as (all & _ & HF2). eauto. }
  split_and!.
  - destruct handle as [hd|]; [|eexists _, _; split; [done|]; split; [|done]; split; auto].
    destruct key as [kp|]; [|eexists _, _; split; [done|]; split; [|done]; split; auto].
    destruct (Hreg hd eq_refl) as (entries & all & Hok & Hre & _).
    destruct (Hk kp eq_refl) as [s Hs].
    assert (wp (rac_lora_registry_remove (Some hd) (Some kp))
              (λ r _, r ≠ RAC_ERROR_INVALID_ARGUMENT) (Mem h σ)) as Hwp.
    { eapply remove_spec; [done..| |]; intros; discriminate. }
    apply wp_elim in Hwp as (r & m' & Hrun & Hr).
    exists r, m'. split; [done|]. split; [|done]. split; [done|]. by intros [?|?].
  - destruct handle as [hd|];
      [|eexists _, _, _; split; [done|]; split; [|done]; split; auto].
    destruct key as [kp|];
      [|eexists _, _, _; split; [done|]; split; [|done]; split; auto].
    destruct out;
      [|eexists _, _, _; split; [done|]; split; [|done]; split; auto].
    destruct (Hreg hd eq_refl) as (entries & all & Hok & Hre & _).
    destruct (Hk kp eq_refl) as [s Hs].
    assert (wp (rac_lora_registry_get (Some hd) (Some kp) true)
              (λ x _, x.1 ≠ RAC_ERROR_INVALID_ARGUMENT) (Mem h σ)) as Hwp.
    { eapply get_spec; [done..| |]; [by intros|]. intros it v [c|] m' _ _ _; by simpl. }
    apply wp_elim in Hwp as ([r o] & m' & Hrun & Hr).
    exists r, o, m'. split; [done|]. split; [|done]. split; [done|].
    by intros [?|[?|?]].
  - destruct handle as [hd|];
      [|eexists _, _, _; split; [done|]; split; [|done]; split; auto].
    destruct key as [kp|];
      [|eexists _, _, _; split; [done|]; split; [|done]; split; auto].
    destruct out_e;
      [|eexists _, _, _; split; [done|]; split; [|done]; split; auto].
    destruct out_c;
      [|eexists _, _, _; split; [done|]; split; [|done]; split; auto].
    destruct (Hreg hd eq_refl) as (entries & all & Hok & Hre & HF2).
    destruct (Hk kp eq_refl) as [s Hs].
    assert (wp (rac_lora_registry_get_for_model (Some hd) (Some kp) true true)
              (λ x _, x.1 ≠ RAC_ERROR_INVALID_ARGUMENT) (Mem h σ)) as Hwp.
    { unfold rac_lora_registry_get_for_model.
      apply wp_bind. eapply wp_load_registry; [by apply reg_entries_Some|].
      apply wp_bind. eapply collect_matches_spec; [|done|].
      { intros [k c] Hin%elem_of_in_order.
        destruct (reg_ok_entry _ _ _ _ _ Hok Hre Hin) as (e & a & v & Hrep & _).
        eauto. }
      eapply (copy_out_spec_full _ _ _ (filter (view_matches s) all));
        [|by intros|by intros].
      apply Forall2_fmap_l.
      eapply (Forall2_impl (λ kc w, read_entry h kc.2 = Some w ∧ v_id w = Some kc.1));
        [|by intros ? ? [? _]].
      apply Forall2_filter; [done|].
      intros kc w [Hr _]. unfold loc_matches. by rewrite Hr. }
    apply wp_elim in Hwp as ([r o] & m' & Hrun & Hr).
    exists r, o, m'. split; [done|]. split; [|done]. split; [done|].
    by intros [?|[?|[?|?]]].
  - destruct handle as [hd|];
      [|eexists _, _, _; split; [done|]; split; [|done]; split; auto].
    destruct out_e;
      [|eexists _, _, _; split; [done|]; split; [|done]; split; auto].
    destruct out_c;
      [|eexists _, _, _; split; [done|]; split; [|done]; split; auto].
    destruct (Hreg hd eq_refl) as (entries & all & Hok & Hre & HF2).
    assert (wp (rac_lora_registry_get_all (Some hd) true true)
              (λ x _, x.1 ≠ RAC_ERROR_INVALID_ARGUMENT) (Mem h σ)) as Hwp.
    { unfold rac_lora_registry_get_all.
      apply wp_bind. eapply wp_load_registry; [by apply reg_entries_Some|].
      eapply (copy_out_spec_full _ _ _ all); [|by intros|by intros].
      apply Forall2_fmap_l. eapply Forall2_impl; [exact HF2|]. by intros ? ? [? _]. }
    apply wp_elim in Hwp as ([r o] & m' & Hrun & Hr).
    exists r, o, m'. split; [done|]. split; [|done]. split; [done|].
    by intros [?|[?|?]].
Qed.

Lemma lookups_check_their_arguments_witness :
  (∃ r m', rac_lora_registry_remove (Some 9%positive) (Some 1%positive)
             (Mem (heap demo_m3) []) = Some (r, m') ∧
     (r = RAC_ERROR_INVALID_ARGUMENT ↔ Some 9%positive = None ∨ Some 1%positive = None) ∧
     (r = RAC_ERROR_INVALID_ARGUMENT → m' = Mem (heap demo_m3) [])) ∧
  (∃ r o m', rac_lora_registry_get (Some 9%positive) (Some 1%positive) true
               (Mem (heap demo_m3) []) = Some ((r, o), m') ∧
     (r = RAC_ERROR_INVALID_ARGUMENT ↔
      Some 9%positive = None ∨ Some 1%positive = None ∨ true = false) ∧
     (r = RAC_ERROR_INVALID_ARGUMENT → o = None ∧ m' = Mem (heap demo_m3) [])) ∧
  (∃ r o m', rac_lora_registry_get_for_model (Some 9%positive) (Some 1%positive) true false
               (Mem (heap demo_m3) []) = Some ((r, o), m') ∧
     (r = RAC_ERROR_INVALID_ARGUMENT ↔
      Some 9%positive = None ∨ Some 1%positive = None ∨ true = false ∨ false = false) ∧
     (r = RAC_ERROR_INVALID_ARGUMENT → o = not_written ∧ m' = Mem (heap demo_m3) [])) ∧
  (∃ r o m', rac_lora_registry_get_all (Some 9%positive) true false
               (Mem (heap demo_m3) []) = Some ((r, o), m') ∧
     (r = RAC_ERROR_INVALID_ARGUMENT ↔
      Some 9%positive = None ∨ true = false ∨ false = false) ∧
     (r = RAC_ERROR_INVALID_ARGUMENT → o = not_written ∧ m' = Mem (heap demo_m3) [])).
Proof.
  apply (lookups_check_their_arguments (heap demo_m3) [] (Some 9%positive)
           (Some 1%positive) true true false).
  - intros hd [= <-]. exact demo_m3_reg_ok.
  - intros kp [= <-]. exists "l1". vm_compute. reflexivity.
Defined.

(** ** Registration and removal together *)

(** X23: registration followed by removal leaks nothing.  On a
    well-formed registry that does not hold the id yet, after [register]
    of an entry has returned success, [remove] of its id either returns
    success and gives back exactly the heap from before the registration,
    or, when the temporary key string of its lookup cannot be built, lets
    [std::bad_alloc] through and changes nothing. *)
Theorem register_then_remove_restores h σ hd en v k kp vm m1
    string_ok insert_ok key_ok :
  reg_ok h hd → read_entry h en = Some v → v_id v = Some k →
  view_map h hd = Some vm → vm !! k = None → h !! kp = Some (BStr k) →
  rac_lora_registry_register_cxx string_ok insert_ok (Some hd) (Some en) (Mem h σ)
  = Some (Return RAC_SUCCESS, m1) →
  ∃ out m2,
    rac_lora_registry_remove_cxx key_ok (Some hd) (Some kp) m1 = Some (out, m2) ∧
    match out with
    | Return RAC_SUCCESS => key_ok = true ∧ heap m2 = h
    | Throw bad_alloc => key_ok = false ∧ m2 = m1
    | _ => False
    end.
Proof.
  intros Hok (e & a & Hrep)%read_entry_rep Hid Hvm Hfreshk Hkp Hrun.
  pose proof Hok as (entries & Hreg & _).
  pose proof (view_map_lookup _ _ _ _ k Hok Hreg Hvm) as Hk.
  destruct (entries !! k) as [old|] eqn:Hek.
  { destruct Hk as (? & ? & _). congruence. }
  assert (rac_lora_registry_register (Some hd) (Some en) (Mem h σ)
          = Some (RAC_SUCCESS, m1)) as Hrun0.
  { destruct string_ok.
    2:{ by rewrite (register_cxx_start _ _ _ _ _ _ _ _ _ _ Hrep Hid) in Hrun. }
    destruct insert_ok.
    2:{ rewrite (register_cxx_new_key _ _ _ _ _ _ _ _ _ Hrep Hid Hreg Hek) in Hrun.
        by destruct (deep_copy_lora_entry (Some en) (Mem h σ)) as [[[c|] ?]|]. }
    rewrite register_cxx_granted in Hrun. unfold returning, bind in Hrun.
    destruct (rac_lora_registry_register (Some hd) (Some en) (Mem h σ)) as [[r m]|];
      [|done].
    by injection Hrun as -> ->. }
  assert (wp (rac_lora_registry_register (Some hd) (Some en))
            (λ r m', r = RAC_SUCCESS →
               ∃ c, reg_entries (heap m') hd = Some (<[k:=c]> entries) ∧
                 reg_ok (heap m') hd ∧
                 (∀ l, l ∈ entry_locs (heap m') c → h !! l = None) ∧
                 (∀ l, l ≠ hd → l ∉ entry_locs (heap m') c → heap m' !! l = h !! l))
            (Mem h σ)) as Hwp.
  { eapply register_spec_exact; [done..| |]; [by intros|].
    intros m' entries' c Hreg0 Hreg' Hok' _ _ _ _ _ Hnew Hframe _.
    assert (entries' = entries) as -> by congruence.
    exists c. split_and!; [done..|].
    intros l ? ?. apply Hframe; [done..|]. intros old. by rewrite Hek. }
  destruct (wp_run _ _ _ _ _ Hwp Hrun0 eq_refl) as (c & Hreg1 & Hok1 & Hnew & Hframe).
  destruct m1 as [h1 σ1]. cbn [heap sched] in *.
  assert (h1 !! kp = Some (BStr k)) as Hkp1.
  { rewrite Hframe; [done| |].
    - intros ->. apply reg_entries_Some in Hreg. congruence.
    - intros ?%Hnew. congruence. }
  destruct key_ok; [|rewrite (remove_cxx_refused _ _ k) by done; by eexists _, _].
  rewrite remove_cxx_granted.
  assert (wp (rac_lora_registry_remove (Some hd) (Some kp))
            (λ r m2, r = RAC_SUCCESS ∧ heap m2 = h) (Mem h1 σ1)) as Hwp2.
  { eapply remove_spec; [done..| |].
    - by rewrite lookup_insert_eq.
    - intros c' h2 Hc' Hreg2 Hok2 Hgone Hkeep _. rewrite lookup_insert_eq in Hc'.
      injection Hc' as <-. split; [done|]. simpl.
      rewrite delete_insert_eq, delete_id in Hreg2 by done.
      apply map_eq. intros l.
      destruct (decide (l = hd)) as [->|Hne].
      { apply reg_entries_Some in Hreg2, Hreg. congruence. }
      destruct (decide (l ∈ entry_locs h1 c)) as [Hin|Hnin].
      + rewrite Hgone by done. symmetry. by apply Hnew.
      + rewrite Hkeep by done. by apply Hframe. }
  apply wp_elim in Hwp2 as (r & m2 & Hrun2 & -> & ?).
  exists (Return RAC_SUCCESS), m2. unfold returning, bind. rewrite Hrun2. done.
Qed.

Lemma register_then_remove_restores_witness :
  ∃ out m2,
    rac_lora_registry_remove_cxx true (Some 9%positive) (Some 1%positive) demo_m1
    = Some (out, m2) ∧
    match out with
    | Return RAC_SUCCESS => true = true ∧ heap m2 = demo_heap
    | Throw bad_alloc => true = false ∧ m2 = demo_m1
    | _ => False
    end.
Proof.
  apply (register_then_remove_restores demo_heap [] 9%positive 5%positive demo_v1 "l1"
           1%positive ∅ demo_m1 true true true).
  - exact demo_heap_reg_ok.
  - vm_compute. reflexivity.
  - reflexivity.
  - vm_compute. reflexivity.
  - reflexivity.
  - vm_compute. reflexivity.
  - vm_compute. reflexivity.
Defined.

(** The map gets no node for the new key [l1]: [std::bad_alloc] leaves
    [register], the registry is still empty, and the six blocks of the
    copy stay behind. *)
Example demo_register_throws :
  ∃ m', rac_lora_registry_register_cxx true false (Some 9%positive) (Some 5%positive)
          (Mem demo_heap []) = Some (Throw bad_alloc, m') ∧
        stored_views (heap m') 9%positive = Some [] ∧
        size (heap m') = (size demo_heap + 6)%nat.
Proof. eexists. split_and!; vm_compute; reflexivity. Qed.

(** The same key is stored already: the map needs no node, and the entry
    is replaced whether or not the library could get one. *)
Example demo_register_replaces :
  ∃ m', rac_lora_registry_register_cxx true false (Some 9%positive) (Some 7%positive)
          (Mem (heap demo_m1) []) = Some (Return RAC_SUCCESS, m') ∧
        stored_views (heap m') 9%positive = Some [demo_v2].
Proof. eexists. split; vm_compute; reflexivity. Qed.

(** The key of the lookup cannot be built: [remove] lets [std::bad_alloc]
    through and the entry stays. *)
Example demo_remove_throws :
  rac_lora_registry_remove_cxx false (Some 9%positive) (Some 1%positive)
    (Mem (heap demo_m3) [])
  = Some (Throw bad_alloc, Mem (heap demo_m3) []).
Proof. vm_compute. reflexivity. Qed.

End LoraRegistryProofs.

(** * Proofs: the JNI bridge *)

Module JniProofs.

Import LoraRegistry Jni.
Local Open Scope string_scope.

(** ** Token callbacks *)

(** C4, as stated, fails on the LLM callback: a throwing sink makes it
    answer "continue". *)
Lemma C4_llm_token_callback_continues_after_exception :
  onToken throwing_sink "tok" = Throws true ∧
  (llm_stream_callback_token (Some "tok") (Some throwing_ctx) jni_start).1.1 = RAC_TRUE ∧
  ¬ (∀ tok ctx st vm cb junk,
       jvm ctx = Some vm → callback ctx = Some cb → onTokenMethod ctx = true →
       env_available vm → onToken cb tok = Throws junk →
       (llm_stream_callback_token (Some tok) (Some ctx) st).1.1 = RAC_FALSE).
Proof.
  split_and!; [done..|]. intros H.
  specialize (H "tok" throwing_ctx jni_start attached_vm throwing_sink true
                eq_refl eq_refl eq_refl (or_introl eq_refl) eq_refl).
  discriminate H.
Qed.

(** C4, amended: the exception is described and cleared by both
    callbacks; the VLM callback then answers "stop", the LLM callback
    "continue". *)
Theorem C4_exception_in_token_callback tok vm cb junk :
  env_available vm → onToken cb tok = Throws junk →
  (∀ ctx st, jvm ctx = Some vm → callback ctx = Some cb → onTokenMethod ctx = true →
     ∃ ctx' st',
       llm_stream_callback_token (Some tok) (Some ctx) st = (RAC_TRUE, Some ctx', st') ∧
       exception_pending st' = false ∧ exception_described st' = true) ∧
  (∀ ctx st, v_jvm ctx = Some vm → v_callback ctx = Some cb → v_onTokenMethod ctx = true →
     ∃ ctx' st',
       vlm_stream_callback_token (Some tok) (Some ctx) st = (RAC_FALSE, Some ctx', st') ∧
       exception_pending st' = false ∧ exception_described st' = true).
Proof.
  intros Henv Hthrow. split.
  - intros ctx st Hvm Hcb Hm. unfold llm_stream_callback_token. simpl.
    rewrite Hvm, Hcb, Hm. unfold call_on_token. rewrite Hthrow.
    destruct Henv as [->|[-> ->]]; simpl; eauto.
  - intros ctx st Hvm Hcb Hm. unfold vlm_stream_callback_token. simpl.
    rewrite Hvm, Hcb, Hm. unfold call_on_token. rewrite Hthrow.
    destruct Henv as [->|[-> ->]]; simpl; eauto.
Qed.

Lemma C4_exception_in_token_callback_witness :
  (∃ ctx' st',
     llm_stream_callback_token (Some "tok") (Some throwing_ctx) jni_start
       = (RAC_TRUE, Some ctx', st') ∧
     exception_pending st' = false ∧ exception_described st' = true) ∧
  (∃ ctx' st',
     vlm_stream_callback_token (Some "tok") (Some throwing_vctx) jni_start
       = (RAC_FALSE, Some ctx', st') ∧
     exception_pending st' = false ∧ exception_described st' = true).
Proof.
  destruct (C4_exception_in_token_callback "tok" attached_vm throwing_sink true
              (or_introl eq_refl) eq_refl) as [Hllm Hvlm].
  split.
  - apply Hllm; reflexivity.
  - apply Hvlm; reflexivity.
Defined.

(** ** Platform adapter *)

Lemma no_adapter_falls_back g :
  g_platform_adapter g = None → callbacks_fall_back g.
Proof.
  intros Hg. unfold callbacks_fall_back, jni_log_callback, jni_file_exists_callback,
    jni_file_read_callback, jni_file_write_callback, jni_file_delete_callback,
    jni_secure_get_callback, jni_secure_set_callback,
    jni_secure_delete_callback, jni_now_ms_callback.
  rewrite Hg. split_and!; intros; by destruct env.
Qed.

(** C5, as stated, fails: with [nowMs] unresolved the install still
    succeeds and fills the native table. *)
Lemma C5_install_succeeds_with_unresolved_method :
  all_resolved partial_adapter = false ∧
  (racSetPlatformAdapter (Some partial_adapter) globals_start jni_start).1.1 = RAC_SUCCESS ∧
  g_c_adapter (racSetPlatformAdapter (Some partial_adapter) globals_start jni_start).1.2
    = installed_adapter ∧
  ¬ (∀ a g st, all_resolved a = false →
       (racSetPlatformAdapter (Some a) g st).1.1 = RAC_ERROR_INVALID_ARGUMENT ∧
       g_c_adapter (racSetPlatformAdapter (Some a) g st).1.2 = g_c_adapter g).
Proof.
  split_and!; [done..|]. intros H.
  destruct (H partial_adapter globals_start jni_start eq_refl) as [H1 _]. discriminate H1.
Qed.

(** C5, amended: an install with a non-null adapter always succeeds and
    always fills the native table, whatever the method lookups gave; each
    cached method id is what its lookup gave, and a callback whose id is
    null takes its fallback path when it is called. *)
Theorem C5_install_does_not_check_method_ids a g st :
  let g' := (racSetPlatformAdapter (Some a) g st).1.2 in
  (racSetPlatformAdapter (Some a) g st).1.1 = RAC_SUCCESS ∧
  (all_resolved a = false →
     exception_pending (racSetPlatformAdapter (Some a) g st).2 = true) ∧
  g_c_adapter g' = installed_adapter ∧
  g_platform_adapter g' = Some a ∧
  (g_method_log g' = log a ∧ g_method_file_exists g' = fileExists a ∧
   g_method_file_read g' = fileRead a ∧ g_method_file_write g' = fileWrite a ∧
   g_method_file_delete g' = fileDelete a ∧ g_method_secure_get g' = secureGet a ∧
   g_method_secure_set g' = secureSet a ∧ g_method_secure_delete g' = secureDelete a ∧
   g_method_now_ms g' = nowMs a) ∧
  (∀ env level tag message, log a = None →
     jni_log_callback g' env level tag message
       = NativeLog (default "RAC" tag) (default "" message)) ∧
  (∀ env path, fileExists a = None → jni_file_exists_callback g' env path = RAC_FALSE) ∧
  (∀ env path, fileRead a = None →
     jni_file_read_callback g' env path = (RAC_ERROR_ADAPTER_NOT_SET, None)) ∧
  (∀ env path data, fileWrite a = None →
     jni_file_write_callback g' env path data = RAC_ERROR_ADAPTER_NOT_SET) ∧
  (∀ env path, fileDelete a = None →
     jni_file_delete_callback g' env path = RAC_ERROR_ADAPTER_NOT_SET) ∧
  (∀ env key, secureGet a = None →
     jni_secure_get_callback g' env key = (RAC_ERROR_ADAPTER_NOT_SET, None)) ∧
  (∀ env key value, secureSet a = None →
     jni_secure_set_callback g' env key value = RAC_ERROR_ADAPTER_NOT_SET) ∧
  (∀ env key, secureDelete a = None →
     jni_secure_delete_callback g' env key = RAC_ERROR_ADAPTER_NOT_SET) ∧
  (∀ env system_time, nowMs a = None →
     jni_now_ms_callback g' env system_time = (system_time * 1000)%Z).
Proof.
  cbv zeta. unfold jni_log_callback, jni_file_exists_callback, jni_file_read_callback,
    jni_file_write_callback, jni_file_delete_callback, jni_secure_get_callback,
    jni_secure_set_callback, jni_secure_delete_callback, jni_now_ms_callback.
  simpl. split_and!; try done; try (intros; rewrite ?H; by destruct env).
  unfold after_lookups. by intros ->.
Qed.

Lemma C5_install_does_not_check_method_ids_witness :
  (racSetPlatformAdapter (Some partial_adapter) globals_start jni_start).1.1 = RAC_SUCCESS ∧
  jni_now_ms_callback
    (racSetPlatformAdapter (Some partial_adapter) globals_start jni_start).1.2 true 7
    = 7000%Z.
Proof.
  pose proof (C5_install_does_not_check_method_ids partial_adapter globals_start
                jni_start) as H.
  cbv zeta in H. destruct H as (H1 & _ & _ & _ & _ & _ & _ & _ & _ & _ & _ & _ & _ & H9).
  split; [exact H1|]. exact (H9 true 7%Z eq_refl).
Defined.

(** C10: a null install is rejected with invalid-argument, and by then it
    has released the reference to the adapter installed before and left
    none installed, so every adapter callback takes its fallback path;
    when an adapter was installed, the globals have changed. *)
Theorem C10_null_install_uninstalls g st :
  let g' := (racSetPlatformAdapter None g st).1.2 in
  (racSetPlatformAdapter None g st).1.1 = RAC_ERROR_INVALID_ARGUMENT ∧
  g_platform_adapter g' = None ∧
  callbacks_fall_back g' ∧
  g_c_adapter g' = g_c_adapter g ∧
  (is_Some (g_platform_adapter g) →
     g' ≠ g ∧ global_refs g' = pred (global_refs g)) ∧
  (g_platform_adapter g = None → g' = g).
Proof.
  cbv zeta. split_and!; try done.
  - by apply no_adapter_falls_back.
  - intros [a Ha]. simpl. rewrite Ha. split; [|done].
    intros E. apply (f_equal g_platform_adapter) in E. simpl in E. congruence.
  - intros Hg. destruct g; simpl in *. by rewrite Hg.
Qed.

Lemma C10_null_install_uninstalls_witness :
  g_platform_adapter globals_installed = Some full_adapter ∧
  jni_now_ms_callback globals_installed true 7 = 1234%Z ∧
  (racSetPlatformAdapter None globals_installed jni_start).1.1 = RAC_ERROR_INVALID_ARGUMENT ∧
  jni_now_ms_callback (racSetPlatformAdapter None globals_installed jni_start).1.2 true 7 = 7000%Z ∧
  global_refs (racSetPlatformAdapter None globals_installed jni_start).1.2 = 0.
Proof.
  pose proof (C10_null_install_uninstalls globals_installed jni_start) as H.
  cbv zeta in H. destruct H as (H1 & _ & Hfb & _ & Hrel & _).
  destruct Hfb as (_ & _ & _ & _ & _ & _ & _ & _ & Hnow).
  destruct (Hrel (ex_intro _ full_adapter eq_refl)) as [_ Hrefs].
  split_and!; [reflexivity | reflexivity | exact H1 | exact (Hnow true 7%Z) | exact Hrefs].
Defined.

(** ** JSON documents *)

(** C6, as stated, fails: an absent [name] of a LoRA entry, and of a
    model, is written as the empty string. *)
Lemma C6_absent_name_is_empty_string :
  v_name bare_entry = None ∧
  json_get "name" (loraEntryToJson (Some bare_entry)) = Some (JString "") ∧
  mi_name bare_model = None ∧
  json_get "name" (modelInfoToJson (Some bare_model)) = Some (JString "") ∧
  ¬ (∀ e, v_name e = None → json_get "name" (loraEntryToJson (Some e)) = Some JNull).
Proof.
  split_and!; [done..|]. intros H. specialize (H bare_entry eq_refl). discriminate H.
Qed.

(** C6, amended: the three places that write a model or a LoRA entry as
    JSON.  [modelInfoToJson] writes [download_url], [local_path] and
    [description] as JSON null when absent, [model_id] and [name] as the
    empty string; [loraEntryToJson] writes all five strings of a LoRA
    entry as the empty string when absent; [racModelAssignmentFetch]
    writes one object for each model, with [id], [name] and [downloadUrl]
    as the empty string when absent. *)
Theorem C6_absent_strings_in_json :
  (∀ m : rac_model_info_t,
     let j := modelInfoToJson (Some m) in
     json_get "download_url" j
       = Some (match mi_download_url m with Some s => JString s | None => JNull end) ∧
     json_get "local_path" j
       = Some (match mi_local_path m with Some s => JString s | None => JNull end) ∧
     json_get "description" j
       = Some (match mi_description m with Some s => JString s | None => JNull end) ∧
     json_get "model_id" j
       = Some (match mi_id m with Some s => JString s | None => JString "" end) ∧
     json_get "name" j
       = Some (match mi_name m with Some s => JString s | None => JString "" end)) ∧
  (∀ e : lora_view,
     let j := loraEntryToJson (Some e) in
     json_get "id" j
       = Some (match v_id e with Some s => JString s | None => JString "" end) ∧
     json_get "name" j
       = Some (match v_name e with Some s => JString s | None => JString "" end) ∧
     json_get "description" j
       = Some (match v_description e with Some s => JString s | None => JString "" end) ∧
     json_get "download_url" j
       = Some (match v_download_url e with Some s => JString s | None => JString "" end) ∧
     json_get "filename" j
       = Some (match v_filename e with Some s => JString s | None => JString "" end)) ∧
  (∀ models : list rac_model_info_t,
     racModelAssignmentFetch RAC_SUCCESS models = JArray (assignment_obj <$> models)) ∧
  (∀ m : rac_model_info_t,
     let j := assignment_obj m in
     json_get "id" j
       = Some (match mi_id m with Some s => JString s | None => JString "" end) ∧
     json_get "name" j
       = Some (match mi_name m with Some s => JString s | None => JString "" end) ∧
     json_get "downloadUrl" j
       = Some (match mi_download_url m with Some s => JString s | None => JString "" end)).
Proof.
  split_and!.
  - intros [[?|] [?|] ? ? ? [?|] [?|] ? ? ? ? [?|]]; vm_compute; done.
  - intros [[?|] [?|] [?|] [?|] [?|] ? ? ?]; vm_compute; done.
  - done.
  - intros [[?|] [?|] ? ? ? [?|] ? ? ? [] ? ?]; vm_compute; done.
Qed.

(** ** Waiting for the end of a stream *)

Lemma wait_for_bounded {C} timeout pred step evs (ctx : C) now :
  (now ≤ timeout)%N →
  ((wait_for timeout pred step evs ctx now).2 ≤ timeout)%N.
Proof.
  revert ctx now. induction evs as [|[t ev] evs IH]; intros ctx now Hnow; simpl.
  - destruct (pred ctx); simpl; lia.
  - destruct (pred ctx); simpl; [lia|].
    destruct (N.leb_spec (N.max now t) timeout); simpl; [|lia]. by apply IH.
Qed.

Lemma wait_for_times_out {C} timeout pred step evs (ctx : C) now :
  pred ctx = false →
  (∀ t ev c, (t, ev) ∈ evs → (t ≤ timeout)%N → pred c = false → pred (step ev c) = false) →
  ∃ ctx', wait_for timeout pred step evs ctx now = (false, ctx', timeout) ∧
          pred ctx' = false.
Proof.
  revert ctx now. induction evs as [|[t ev] evs IH]; intros ctx now Hp Hevs; simpl.
  - rewrite Hp. eauto.
  - rewrite Hp. destruct (N.leb_spec (N.max now t) timeout); [|eauto].
    apply IH.
    + apply (Hevs t); [left | lia | done].
    + intros t' ev' c Hin. apply Hevs. by right.
Qed.

Lemma llm_stream_callback_token_is_complete tok ctx st :
  match (llm_stream_callback_token tok (Some ctx) st).1.2 with
  | Some ctx' => is_complete ctx' = is_complete ctx
  | None => False
  end.
Proof.
  unfold llm_stream_callback_token. destruct tok as [tok|]; [|done].
  simpl. destruct (jvm ctx) as [vm|]; [|done].
  destruct (callback ctx) as [cb|]; [|done].
  destruct (onTokenMethod ctx); [|done].
  destruct (get_env vm); [| destruct (attach_ok vm) |]; try done;
    destruct (call_on_token cb tok st) as [[] []]; done.
Qed.

(** C7, as stated, fails on the VLM streaming entry point: it does not
    wait, and with neither completion callback fired it reports
    success. *)
Lemma C7_vlm_stream_entry_point_does_not_wait :
  v_is_complete incomplete_vctx = false ∧ v_has_error incomplete_vctx = false ∧
  racVlmComponentProcessStream RAC_SUCCESS incomplete_vctx
    = Some (buildVlmResultJson "partial" zero_vlm_result) ∧
  ¬ (∀ ctx, v_is_complete ctx = false →
       racVlmComponentProcessStream RAC_SUCCESS ctx = None).
Proof.
  split_and!; [done..|]. intros H. specialize (H incomplete_vctx eq_refl). discriminate H.
Qed.

(** C7, amended: each of the two LLM streaming entry points, once the
    engine call has returned success, waits for at most ten minutes; when
    neither completion callback fires within that time the context is
    marked errored with the timeout message, and the entry point hands
    back null. *)
Theorem C7_llm_stream_wait_times_out evs :
  kStreamWaitTimeout = 600000%N ∧
  (∀ ctx,
     let r := racLlmComponentGenerateStream RAC_SUCCESS ctx evs in
     (r.2 ≤ kStreamWaitTimeout)%N ∧
     (s_is_complete ctx = false → no_completion_within kStreamWaitTimeout evs →
      r.1.1 = None ∧ s_has_error r.1.2 = true ∧ s_is_complete r.1.2 = true ∧
      s_error_message r.1.2 = timeout_message)) ∧
  (∀ ctx,
     let r := racLlmComponentGenerateStreamWithCallback RAC_SUCCESS ctx evs in
     (r.2 ≤ kStreamWaitTimeout)%N ∧
     (is_complete ctx = false → no_completion_within kStreamWaitTimeout evs →
      r.1.1 = None ∧ has_error r.1.2 = true ∧ is_complete r.1.2 = true ∧
      error_message r.1.2 = timeout_message)).
Proof.
  split; [done|]. split; intros ctx; cbv zeta.
  - unfold racLlmComponentGenerateStream. simpl. split.
    + pose proof (wait_for_bounded kStreamWaitTimeout s_is_complete llm_stream_step
                    evs ctx 0 ltac:(done)) as Hb.
      destruct (wait_for _ _ _ _ _ _) as [[done ctx'] waited]. simpl in Hb.
      by destruct done, (s_has_error ctx'); simpl.
    + intros Hc Hevs.
      destruct (wait_for_times_out kStreamWaitTimeout s_is_complete llm_stream_step
                  evs ctx 0 Hc) as (ctx' & -> & _); [|done].
      intros t ev c Hin Ht Hcc. destruct (Hevs t ev Hin Ht) as [tok ->].
      simpl. by destruct tok.
  - unfold racLlmComponentGenerateStreamWithCallback. simpl. split.
    + pose proof (wait_for_bounded kStreamWaitTimeout is_complete
                    llm_stream_callback_step evs ctx 0 ltac:(done)) as Hb.
      destruct (wait_for _ _ _ _ _ _) as [[done ctx'] waited]. simpl in Hb.
      by destruct done, (has_error ctx'); simpl.
    + intros Hc Hevs.
      destruct (wait_for_times_out kStreamWaitTimeout is_complete
                  llm_stream_callback_step evs ctx 0 Hc) as (ctx' & -> & _); [|done].
      intros t ev c Hin Ht Hcc. destruct (Hevs t ev Hin Ht) as [tok ->].
      unfold llm_stream_callback_step.
      pose proof (llm_stream_callback_token_is_complete tok c jni_start) as Hk.
      destruct ((llm_stream_callback_token tok (Some c) jni_start).1.2); [|done].
      congruence.
Qed.

Lemma late_engine_no_completion : no_completion_within kStreamWaitTimeout late_engine.
Proof.
  intros t ev Hin Ht. unfold late_engine in Hin.
  apply elem_of_cons in Hin as [Hin|Hin].
  - injection Hin as -> ->. eauto.
  - apply list_elem_of_singleton in Hin. injection Hin as -> ->.
    unfold kStreamWaitTimeout in Ht. lia.
Defined.

Lemma C7_llm_stream_wait_times_out_witness :
  (racLlmComponentGenerateStream RAC_SUCCESS fresh_stream_ctx late_engine).1.1 = None ∧
  s_error_message (racLlmComponentGenerateStream RAC_SUCCESS fresh_stream_ctx late_engine).1.2
    = timeout_message ∧
  (racLlmComponentGenerateStreamWithCallback RAC_SUCCESS fresh_callback_ctx late_engine).1.1
    = None.
Proof.
  destruct (C7_llm_stream_wait_times_out late_engine) as (_ & H1 & H2).
  destruct (H1 fresh_stream_ctx) as [_ H1'].
  destruct (H1' eq_refl late_engine_no_completion) as (Ha & _ & _ & Hb).
  destruct (H2 fresh_callback_ctx) as [_ H2'].
  destruct (H2' eq_refl late_engine_no_completion) as (Hc & _).
  split_and!; [exact Ha | exact Hb | exact Hc].
Defined.

(** ** Tool calls *)

Lemma append_assoc (s1 s2 s3 : string) : (s1 ++ s2) ++ s3 = s1 ++ s2 ++ s3.
Proof.
  induction s1 as [|c s1 IH]; [done|].
  change (String c ((s1 ++ s2) ++ s3) = String c (s1 ++ s2 ++ s3)). by rewrite IH.
Qed.

Lemma is_blank_blanks c : is_blank c = bool_decide (c ∈ blanks).
Proof.
  unfold is_blank, blanks. apply bool_decide_ext.
  rewrite !elem_of_cons, elem_of_nil. tauto.
Qed.

(** [find_first_not_of] gives the position of the first byte that
    stripping leaves. *)
Lemma find_first_not_of_strip s pos :
  match find_first_not_of blanks s pos with
  | Some start =>
    ∃ k c rest, start = pos + k ∧ String.get k s = Some c ∧
                strip_leading_blanks s = String c rest
  | None => strip_leading_blanks s = EmptyString
  end.
Proof.
  revert pos. induction s as [|c s IH]; intros pos; simpl; [done|].
  rewrite is_blank_blanks. destruct (bool_decide (c ∈ blanks)).
  - specialize (IH (S pos)). destruct (find_first_not_of blanks s (S pos)); [|done].
    destruct IH as (k & c' & rest & -> & Hget & Hstrip).
    exists (S k), c', rest. split_and!; [lia|done..].
  - exists 0, c, s. split_and!; [lia|done..].
Qed.

(** The code's rule is the specification's. *)
Lemma arguments_text_refines arguments :
  arguments_text arguments = spec_arguments_text arguments.
Proof.
  destruct arguments as [args|]; [|done]. unfold arguments_text, spec_arguments_text.
  pose proof (find_first_not_of_strip args 0) as H.
  destruct (find_first_not_of blanks args 0) as [start|].
  - destruct H as (k & c & rest & Hs & Hget & Hstrip). simpl in Hs. subst start.
    by rewrite Hget, Hstrip.
  - by rewrite H.
Qed.

(** C8: when the parse reports a tool call, the document carries, after
    the [argumentsJson] key, the arguments unchanged when the first byte
    left by stripping leading whitespace is an opening brace or bracket,
    and the literal [{}] otherwise (null and whitespace-only included);
    the document is produced in every case. *)
Theorem C8_arguments_json_is_validated result :
  has_tool_call result = RAC_TRUE →
  racToolCallParse result
    = before_arguments result ++ spec_arguments_text (arguments_json result)
        ++ after_arguments result ∧
  spec_arguments_text (arguments_json result)
    = match arguments_json result with
      | None => "{}"
      | Some args =>
        match strip_leading_blanks args with
        | String "{"%char _ | String "["%char _ => args
        | _ => "{}"
        end
      end.
Proof.
  intros Hcall. split.
  - unfold racToolCallParse, before_arguments, after_arguments.
    rewrite Hcall, arguments_text_refines.
    destruct (decide (RAC_TRUE = RAC_TRUE)) as [_|]; [|done].
    cbv zeta. rewrite !append_assoc. reflexivity.
  - unfold spec_arguments_text. destruct (arguments_json result) as [args|]; [|done].
    destruct (strip_leading_blanks args) as [|c rest]; [done|].
    destruct (decide (c = "{"%char)) as [->|]; [done|].
    destruct (decide (c = "["%char)) as [->|]; [done|].
    rewrite bool_decide_false by tauto.
    destruct c as [[] [] [] [] [] [] [] []]; done.
Qed.

Lemma C8_arguments_json_is_validated_witness :
  racToolCallParse demo_call
    = before_arguments demo_call ++ "  [1]" ++ after_arguments demo_call ∧
  racToolCallParse demo_bad_call
    = before_arguments demo_bad_call ++ "{}" ++ after_arguments demo_bad_call.
Proof.
  split.
  - exact (proj1 (C8_arguments_json_is_validated demo_call eq_refl)).
  - exact (proj1 (C8_arguments_json_is_validated demo_bad_call eq_refl)).
Defined.


(** ** Escaped text *)

Lemma append_String c s t : String c s ++ t = String c (s ++ t).
Proof. done. Qed.

Lemma append_empty s : "" ++ s = s.
Proof. done. Qed.

Lemma escape_char_cases c :
  (c = dquote ∧ escape_char c = String backslash (String dquote "")) ∨
  (c = backslash ∧ escape_char c = String backslash (String backslash "")) ∨
  (c = newline ∧ escape_char c = String backslash (String "n"%char "")) ∨
  (c = carriage ∧ escape_char c = String backslash (String "r"%char "")) ∨
  (c = tab ∧ escape_char c = String backslash (String "t"%char "")) ∨
  (c ≠ dquote ∧ c ≠ backslash ∧ c ≠ newline ∧ c ≠ carriage ∧ c ≠ tab ∧
   escape_char c = String c "").
Proof.
  unfold escape_char.
  destruct (decide (c = dquote)) as [->|?]; [by left|].
  destruct (decide (c = backslash)) as [->|?]; [right; by left|].
  destruct (decide (c = newline)) as [->|?]; [do 2 right; by left|].
  destruct (decide (c = carriage)) as [->|?]; [do 3 right; by left|].
  destruct (decide (c = tab)) as [->|?]; [do 4 right; by left|].
  do 5 right. done.
Qed.

(** X13: the escaping that [racToolCallParse] applies to the clean text
    loses nothing: reading the escaped text back, with a backslash and the
    next character standing for one character, gives the original text,
    and the escaped text holds no quote without a backslash before it and
    no backslash at its very end, so that it cannot end the quoted JSON
    string early. *)
Theorem escape_text_decodable s :
  unescape_text (escape_text s) = s ∧ closes_early (escape_text s) = false.
Proof.
  induction s as [|c s [IH1 IH2]]; [done|].
  change (escape_text (String c s)) with (escape_char c ++ escape_text s).
  destruct (escape_char_cases c)
    as [[-> ->]|[[-> ->]|[[-> ->]|[[-> ->]|[[-> ->]|(?&?&?&?&?& ->)]]]]];
    rewrite !append_String, append_empty; simpl;
    rewrite ?decide_True by done; rewrite ?decide_False by done;
    rewrite ?IH1, ?IH2; done.
Qed.

(** ** What a stream adds up to *)

Lemma wait_for_cons {C} timeout pred step t ev rest (ctx : C) now :
  wait_for timeout pred step ((t, ev) :: rest) ctx now
  = if pred ctx then (true, ctx, now)
    else if (N.max now t <=? timeout)%N
         then wait_for timeout pred step rest (step ev ctx) (N.max now t)
         else (false, ctx, timeout).
Proof. done. Qed.

Lemma wrap_int_small z : is_int z → wrap_int z = z.
Proof. unfold is_int, wrap_int. intros ?. rewrite Z.mod_small; lia. Qed.

Lemma wrap_int_add z n : wrap_int (wrap_int z + n) = wrap_int (z + n).
Proof.
  unfold wrap_int. f_equal.
  replace ((z + 2147483648) `mod` 4294967296 - 2147483648 + n + 2147483648)%Z
    with ((z + 2147483648) `mod` 4294967296 + n)%Z by lia.
  rewrite Zplus_mod_idemp_l. f_equal. lia.
Qed.

Lemma wait_for_tokens toks rest ctx now :
  s_is_complete ctx = false → (now ≤ kStreamWaitTimeout)%N →
  Forall (λ x, (x.1 ≤ kStreamWaitTimeout)%N) toks →
  ∃ ctx' now',
    wait_for kStreamWaitTimeout s_is_complete llm_stream_step
      (token_events toks ++ rest) ctx now
    = wait_for kStreamWaitTimeout s_is_complete llm_stream_step rest ctx' now' ∧
    (now' ≤ kStreamWaitTimeout)%N ∧
    s_accumulated_text ctx' = s_accumulated_text ctx ++ concat_tokens toks.*2 ∧
    s_token_count ctx'
      = (if decide (count_tokens toks.*2 = 0%Z) then s_token_count ctx
         else wrap_int (s_token_count ctx + count_tokens toks.*2)) ∧
    s_is_complete ctx' = false ∧ s_has_error ctx' = s_has_error ctx ∧
    s_error_code ctx' = s_error_code ctx ∧ s_error_message ctx' = s_error_message ctx ∧
    s_final_result ctx' = s_final_result ctx.
Proof.
  intros Hc Hnow Htoks. revert ctx now Hc Hnow.
  induction Htoks as [|[t tok] toks Ht _ IH]; intros ctx now Hc Hnow.
  - exists ctx, now. split_and!; try done.
    clear. induction (s_accumulated_text ctx) as [|c s IHs]; [done|].
    rewrite append_String. by rewrite <- IHs.
  - simpl in Ht.
    change (token_events ((t, tok) :: toks) ++ rest)%list
      with ((t, OnToken tok) :: (token_events toks ++ rest)%list).
    rewrite wait_for_cons, Hc.
    destruct (N.leb_spec (N.max now t) kStreamWaitTimeout) as [_|?]; [|lia].
    destruct (IH (llm_stream_step (OnToken tok) ctx) (N.max now t))
      as (ctx' & now' & Heq & Hn' & Htext & Hcount & Hc' & He & Hcode & Hmsg & Hfin).
    { by destruct tok. }
    { lia. }
    exists ctx', now'. rewrite Heq. split_and!; try done.
    + rewrite Htext. destruct tok as [s|]; simpl; [|done].
      by rewrite append_assoc.
    + rewrite Hcount. unfold count_tokens. rewrite fmap_cons.
      destruct tok as [s|]; cbn [omap list_omap fst snd llm_stream_step
        llm_stream_token_callback s_token_count length]; [|done].
      rewrite Nat2Z.inj_succ.
      set (n := Z.of_nat (length (omap (λ t0 : option string, t0) toks.*2))).
      assert (0 ≤ n)%Z by (unfold n; lia). clearbody n.
      destruct (decide (Z.succ n = 0%Z)) as [?|_]; [lia|].
      destruct (decide (n = 0%Z)) as [->|_]; [by f_equal|].
      rewrite wrap_int_add. f_equal. lia.
    + rewrite He. by destruct tok.
    + rewrite Hcode. by destruct tok.
    + rewrite Hmsg. by destruct tok.
    + rewrite Hfin. by destruct tok.
Qed.

(** X14: when the engine delivers tokens and then completes within the
    wait, [racLlmComponentGenerateStream] builds the result document whose
    text is the text of the context followed by all non-null tokens in
    order, and whose metrics are those that the completion callback
    stores at a token count grown by the number of non-null tokens, in
    [int] arithmetic, which wraps beyond [INT_MAX]; callbacks after the
    completion are not waited for.  It hands back the dump of that
    document when [dump] gives one, and otherwise the exception of [dump]
    leaves the entry point. *)
Theorem stream_result_adds_up dump ctx toks tc r rest :
  s_is_complete ctx = false → s_has_error ctx = false → is_int (s_token_count ctx) →
  Forall (λ x, (x.1 ≤ kStreamWaitTimeout)%N) toks → (tc ≤ kStreamWaitTimeout)%N →
  let json_obj :=
    llm_result_json
      (s_accumulated_text ctx ++ concat_tokens toks.*2)
      (completed_result r (wrap_int (s_token_count ctx + count_tokens toks.*2))
         (s_final_result ctx)) in
  let built :=
    (racLlmComponentGenerateStream RAC_SUCCESS ctx
       (token_events toks ++ (tc, OnComplete r) :: rest)).1.1 in
  built = Some json_obj ∧
  handed_back dump built
  = match dump json_obj with
    | Return text => Return (Some text)
    | Throw e => Throw e
    end.
Proof.
  intros Hc He Hint Htoks Htc. cbv zeta.
  assert ((racLlmComponentGenerateStream RAC_SUCCESS ctx
             (token_events toks ++ (tc, OnComplete r) :: rest)).1.1
          = Some (llm_result_json
                    (s_accumulated_text ctx ++ concat_tokens toks.*2)
                    (completed_result r
                       (wrap_int (s_token_count ctx + count_tokens toks.*2))
                       (s_final_result ctx)))) as ->; [|done].
  unfold racLlmComponentGenerateStream. simpl.
  destruct (wait_for_tokens toks ((tc, OnComplete r) :: rest) ctx 0 Hc ltac:(done) Htoks)
    as (ctx' & now' & -> & Hn' & Htext & Hcount & Hc' & He' & _ & _ & Hfin).
  assert (s_token_count ctx' = wrap_int (s_token_count ctx + count_tokens toks.*2))
    as Hcount'.
  { rewrite Hcount. case_decide as Hz; [|done].
    rewrite Hz, Z.add_0_r. by rewrite wrap_int_small. }
  rewrite wait_for_cons, Hc'.
  destruct (N.leb_spec (N.max now' tc) kStreamWaitTimeout) as [_|?]; [|lia].
  destruct rest as [|[t ev] rest]; simpl; rewrite He', He; simpl;
    by rewrite Htext, Hcount', Hfin.
Qed.

(** X15: when the engine delivers tokens and then reports an error
    within the wait, [racLlmComponentGenerateStream] returns null, and the
    context holds the engine's code, its message (or "Unknown error" for a
    null message) and the text of the tokens that came before. *)
Theorem stream_error_is_reported ctx toks te code msg rest :
  s_is_complete ctx = false →
  Forall (λ x, (x.1 ≤ kStreamWaitTimeout)%N) toks → (te ≤ kStreamWaitTimeout)%N →
  let r := racLlmComponentGenerateStream RAC_SUCCESS ctx
             (token_events toks ++ (te, OnError code msg) :: rest) in
  r.1.1 = None ∧ s_has_error r.1.2 = true ∧ s_error_code r.1.2 = code ∧
  s_error_message r.1.2 = default "Unknown error" msg ∧
  s_accumulated_text r.1.2 = s_accumulated_text ctx ++ concat_tokens toks.*2.
Proof.
  intros Hc Htoks Hte. cbv zeta. unfold racLlmComponentGenerateStream. simpl.
  destruct (wait_for_tokens toks ((te, OnError code msg) :: rest) ctx 0 Hc
              ltac:(done) Htoks)
    as (ctx' & now' & -> & Hn' & Htext & _ & Hc' & _).
  rewrite wait_for_cons, Hc'.
  destruct (N.leb_spec (N.max now' te) kStreamWaitTimeout) as [_|?]; [|lia].
  destruct rest as [|[t ev] rest]; simpl; by rewrite Htext.
Qed.

Lemma demo_tokens_in_time : Forall (λ x, (x.1 ≤ kStreamWaitTimeout)%N) demo_tokens.
Proof. repeat constructor; simpl; unfold kStreamWaitTimeout; lia. Qed.

Lemma stream_result_adds_up_witness :
  let json_obj :=
    llm_result_json
      (s_accumulated_text fresh_stream_ctx ++ concat_tokens demo_tokens.*2)
      (completed_result None
         (wrap_int (s_token_count fresh_stream_ctx + count_tokens demo_tokens.*2))
         (s_final_result fresh_stream_ctx)) in
  let built :=
    (racLlmComponentGenerateStream RAC_SUCCESS fresh_stream_ctx
       (token_events demo_tokens ++
        (4000%N, OnComplete None) :: [(5000%N, OnToken (Some "late"))])).1.1 in
  built = Some json_obj ∧
  handed_back demo_dump built
  = match demo_dump json_obj with
    | Return text => Return (Some text)
    | Throw e => Throw e
    end.
Proof.
  apply (stream_result_adds_up demo_dump fresh_stream_ctx demo_tokens 4000%N None
           [(5000%N, OnToken (Some "late"))] eq_refl eq_refl).
  - unfold is_int. simpl. lia.
  - exact demo_tokens_in_time.
  - unfold kStreamWaitTimeout. lia.
Defined.

Lemma stream_error_is_reported_witness :
  let r := racLlmComponentGenerateStream RAC_SUCCESS fresh_stream_ctx
             (token_events demo_tokens ++
              (4000%N, OnError RAC_ERROR_OUT_OF_MEMORY None) :: []) in
  r.1.1 = None ∧ s_has_error r.1.2 = true ∧ s_error_code r.1.2 = RAC_ERROR_OUT_OF_MEMORY ∧
  s_error_message r.1.2 = default "Unknown error" None ∧
  s_accumulated_text r.1.2
    = s_accumulated_text fresh_stream_ctx ++ concat_tokens demo_tokens.*2.
Proof.
  apply (stream_error_is_reported fresh_stream_ctx demo_tokens 4000%N
           RAC_ERROR_OUT_OF_MEMORY None [] eq_refl demo_tokens_in_time).
  unfold kStreamWaitTimeout. lia.
Defined.

Example demo_stream_text :
  json_get "text"
    (default JNull
       (racLlmComponentGenerateStream RAC_SUCCESS fresh_stream_ctx
          (token_events demo_tokens ++ [(4000%N, OnComplete None)])).1.1)
  = Some (JString "Hello").
Proof. vm_compute. reflexivity. Qed.

(** At [INT_MAX] the count of tokens wraps, and the document reports the
    wrapped count. *)
Example demo_stream_count_wraps :
  let ctx := Build_LLMStreamContext "" 2147483647 false false RAC_SUCCESS "" zero_result in
  s_token_count (llm_stream_token_callback (Some "a") ctx).2 = (-2147483648)%Z ∧
  json_get "tokens_generated"
    (default JNull
       (racLlmComponentGenerateStream RAC_SUCCESS ctx
          [(1000%N, OnToken (Some "a")); (2000%N, OnComplete None)]).1.1)
  = Some (JInt (-2147483648)).
Proof. vm_compute. done. Qed.

(** A token that is not UTF-8 text: the document is built, and the
    exception of [dump] leaves the entry point. *)
Example demo_stream_dump_throws :
  let built :=
    (racLlmComponentGenerateStream RAC_SUCCESS fresh_stream_ctx
       [(1000%N, OnToken (Some (String "255"%char ""))); (2000%N, OnComplete None)]).1.1 in
  is_Some built ∧ handed_back demo_dump built = Throw type_error.
Proof. vm_compute. split; [by eexists|done]. Qed.

(** ** Load, unload and initialisation *)

(** X16: the platform adapter's global reference.  If one global
    reference is alive exactly when an adapter is stored, this stays so
    after every [racSetPlatformAdapter], null or not.  [JNI_OnUnload]
    always ends with no adapter and no virtual machine, so that
    [getJNIEnv] gives null and the native callbacks fall back; it releases
    the reference when the unloading thread has an environment, and leaves
    the count as it was otherwise. *)
Theorem adapter_reference_is_balanced g :
  refs_balanced g →
  (∀ a st, refs_balanced (racSetPlatformAdapter a g st).1.2) ∧
  (∀ vm j,
     let p' := JNI_OnUnload vm {| p_globals := g; g_jvm := j |} in
     g_platform_adapter (p_globals p') = None ∧ g_jvm p' = None ∧
     getJNIEnv p' = false ∧ callbacks_fall_back (p_globals p') ∧
     (get_env vm = JNI_OK → refs_balanced (p_globals p')) ∧
     (get_env vm ≠ JNI_OK → global_refs (p_globals p') = global_refs g)).
Proof.
  unfold refs_balanced. intros Hb. split.
  - intros [a|] st; simpl; destruct (g_platform_adapter g); simpl; lia.
  - intros vm j. cbv zeta. unfold JNI_OnUnload. simpl.
    destruct (g_platform_adapter g) as [a|] eqn:Ha; simpl.
    + split_and!; [done..|by apply no_adapter_falls_back| |].
      * intros ->. simpl. lia.
      * by destruct (get_env vm).
    + rewrite ?Ha. split_and!; [done..|by apply no_adapter_falls_back| |done].
      intros _. rewrite ?Ha. done.
Qed.

Lemma adapter_reference_is_balanced_witness :
  (∀ a st, refs_balanced (racSetPlatformAdapter a globals_installed st).1.2) ∧
  (∀ vm j,
     let p' := JNI_OnUnload vm {| p_globals := globals_installed; g_jvm := j |} in
     g_platform_adapter (p_globals p') = None ∧ g_jvm p' = None ∧
     getJNIEnv p' = false ∧ callbacks_fall_back (p_globals p') ∧
     (get_env vm = JNI_OK → refs_balanced (p_globals p')) ∧
     (get_env vm ≠ JNI_OK → global_refs (p_globals p') = global_refs globals_installed)).
Proof.
  apply (adapter_reference_is_balanced globals_installed). reflexivity.
Defined.

(** X17: [racInit] answers adapter-not-set without reaching the engine
    whenever no adapter is stored, in particular after a null install and
    after [JNI_OnUnload]; after an install of a non-null adapter it
    answers what the engine's [rac_init] answers for the filled table of
    native callbacks. *)
Theorem init_needs_an_adapter rac_init g st :
  (g_platform_adapter g = None → racInit rac_init g = RAC_ERROR_ADAPTER_NOT_SET) ∧
  racInit rac_init (racSetPlatformAdapter None g st).1.2 = RAC_ERROR_ADAPTER_NOT_SET ∧
  (∀ a, racInit rac_init (racSetPlatformAdapter (Some a) g st).1.2
        = rac_init installed_adapter) ∧
  (∀ vm j, racInit rac_init (p_globals (JNI_OnUnload vm {| p_globals := g; g_jvm := j |}))
           = RAC_ERROR_ADAPTER_NOT_SET).
Proof.
  unfold racInit. split_and!.
  - by intros ->.
  - done.
  - done.
  - intros vm j. unfold JNI_OnUnload. simpl.
    destruct (g_platform_adapter g) eqn:Ha; simpl; [done|]. by rewrite ?Ha.
Qed.

(** ** Device manager callbacks *)

(** X18: [racDeviceManagerSetCallbacks] keeps one global reference
    alive exactly when a callback object is stored, and never touches the
    cached device id.  With [getDeviceId] and [isRegistered] both resolved
    the object is stored with its method ids, whether or not the other
    three methods resolve, and the answer is the engine's, also when the
    engine refuses.  With a null object or one of the two methods
    unresolved the answer is invalid-argument, no object is stored, and
    the device callbacks reach no managed code. *)
Theorem device_install_is_all_or_nothing callbacks engine s st :
  device_balanced s →
  let r := (racDeviceManagerSetCallbacks callbacks engine s st).1.1 in
  let s' := (racDeviceManagerSetCallbacks callbacks engine s st).1.2 in
  device_balanced s' ∧ g_cached_device_id s' = g_cached_device_id s ∧
  match callbacks with
  | Some cb =>
    if bool_decide (is_Some (getDeviceId cb) ∧ is_Some (isRegistered cb))
    then r = engine ∧ callback_obj s' = Some cb ∧
         get_device_id_method s' = getDeviceId cb ∧
         is_registered_method s' = isRegistered cb ∧
         set_registered_method s' = setRegistered cb
    else r = RAC_ERROR_INVALID_ARGUMENT ∧ callback_obj s' = None ∧
         device_callbacks_off s'
  | None => r = RAC_ERROR_INVALID_ARGUMENT ∧ callback_obj s' = None ∧
            device_callbacks_off s'
  end.
Proof.
  unfold device_balanced. intros Hb. cbv zeta.
  assert (∀ s0, callback_obj s0 = None → device_callbacks_off s0) as Hoff.
  { intros s0 H0 env st0 b.
    unfold jni_device_get_id, jni_device_is_registered, jni_device_set_registered.
    rewrite H0. by destruct env. }
  destruct callbacks as [cb|]; simpl.
  - case_bool_decide as Hd.
    + destruct Hd as [[gid Hgid] [isr Hisr]]. rewrite Hgid, Hisr. simpl.
      split_and!; try done. destruct (callback_obj s); lia.
    + destruct (getDeviceId cb) as [gid|] eqn:Hgid, (isRegistered cb) as [isr|] eqn:Hisr;
        simpl; try (split_and!; try done; [destruct (callback_obj s); lia|by apply Hoff]).
      destruct Hd. split; by eexists.
  - split_and!; try done; [destruct (callback_obj s); lia|by apply Hoff].
Qed.

Lemma device_install_is_all_or_nothing_witness :
  let r := (racDeviceManagerSetCallbacks (Some demo_device) RAC_ERROR_NOT_FOUND
              device_start jni_start).1.1 in
  let s' := (racDeviceManagerSetCallbacks (Some demo_device) RAC_ERROR_NOT_FOUND
               device_start jni_start).1.2 in
  device_balanced s' ∧ g_cached_device_id s' = g_cached_device_id device_start ∧
  r = RAC_ERROR_NOT_FOUND ∧ callback_obj s' = Some demo_device ∧
  get_device_id_method s' = getDeviceId demo_device ∧
  is_registered_method s' = isRegistered demo_device ∧
  set_registered_method s' = setRegistered demo_device.
Proof.
  apply (device_install_is_all_or_nothing (Some demo_device) RAC_ERROR_NOT_FOUND
           device_start jni_start).
  reflexivity.
Defined.

(** X19: the native device callbacks leave no exception pending.
    When [getDeviceId] throws, the id is the empty string and the cached
    id is kept; when [isRegistered] throws, the answer is false.  A
    non-empty id is always what managed code returned, and is cached; the
    answer true is always what managed code returned; [setRegistered] is
    called, if at all, with the truth value of its argument. *)
Theorem device_callbacks_absorb_exceptions s env st b :
  exception_pending st = false →
  let '(id, s1, st1) := jni_device_get_id s env st in
  let '(reg, st2) := jni_device_is_registered s env st in
  let '(arg, st3) := jni_device_set_registered b s env st in
  exception_pending st1 = false ∧ exception_pending st2 = false ∧
  exception_pending st3 = false ∧
  (∀ junk, get_device_id_method s = Some (Throws junk) →
     id = "" ∧ s1 = s) ∧
  (∀ junk, is_registered_method s = Some (Throws junk) → reg = RAC_FALSE) ∧
  (id ≠ "" → g_cached_device_id s1 = id ∧
             get_device_id_method s = Some (Returns (Some id)) ∧
             env = true ∧ is_Some (callback_obj s)) ∧
  (reg = RAC_TRUE → is_registered_method s = Some (Returns true) ∧
                    env = true ∧ is_Some (callback_obj s)) ∧
  (∀ x, arg = Some x → x = bool_decide (b = RAC_TRUE)).
Proof.
  intros Hp.
  unfold jni_device_get_id, jni_device_is_registered, jni_device_set_registered, call_java.
  destruct env, (callback_obj s) as [cb|]; simpl;
    try (split_and!; (done || by intros)).
  destruct (get_device_id_method s) as [[[id|]|junk]|],
           (is_registered_method s) as [[[]|junk']|],
           (set_registered_method s) as [m|]; simpl; rewrite ?Hp; simpl;
    try destruct (m (bool_decide (b = RAC_TRUE))) as [[]|[]]; simpl; rewrite ?Hp; simpl;
    split_and!; try done; try (by intros); try (intros; split_and!; (done || by eexists));
    try (intros ? [= <-]; done).
Qed.

Lemma device_callbacks_absorb_exceptions_witness :
  let '(id, s1, st1) := jni_device_get_id demo_device_state true jni_start in
  let '(reg, st2) := jni_device_is_registered demo_device_state true jni_start in
  let '(arg, st3) := jni_device_set_registered RAC_TRUE demo_device_state true jni_start in
  exception_pending st1 = false ∧ exception_pending st2 = false ∧
  exception_pending st3 = false ∧
  (∀ junk, get_device_id_method demo_device_state = Some (Throws junk) →
     id = "" ∧ s1 = demo_device_state) ∧
  (∀ junk, is_registered_method demo_device_state = Some (Throws junk) →
     reg = RAC_FALSE) ∧
  (id ≠ "" → g_cached_device_id s1 = id ∧
             get_device_id_method demo_device_state = Some (Returns (Some id)) ∧
             true = true ∧ is_Some (callback_obj demo_device_state)) ∧
  (reg = RAC_TRUE → is_registered_method demo_device_state = Some (Returns true) ∧
                    true = true ∧ is_Some (callback_obj demo_device_state)) ∧
  (∀ x, arg = Some x → x = bool_decide (RAC_TRUE = RAC_TRUE)).
Proof.
  apply (device_callbacks_absorb_exceptions demo_device_state true jni_start RAC_TRUE).
  reflexivity.
Defined.

Example demo_device_calls :
  (jni_device_get_id demo_device_state true jni_start).1.1 = "device-1" ∧
  g_cached_device_id (jni_device_get_id demo_device_state true jni_start).1.2 = "device-1" ∧
  jni_device_is_registered demo_device_state true jni_start
    = (RAC_FALSE, Build_jni_state false true false) ∧
  jni_device_set_registered RAC_TRUE demo_device_state true jni_start = (None, jni_start).
Proof. by vm_compute. Qed.

(** ** Model assignment callbacks *)

(** X20: [racModelAssignmentSetCallbacks] keeps one global reference
    alive exactly when a callback object is stored, and a stored object
    always comes with the registered flag, a virtual machine and the
    [httpGet] method id.  On success the stored object is the argument (none
    for a null argument, which also clears the flag); on failure, which
    needs a non-null argument, no object is stored and the registered flag
    is left as it was.  With no object stored, the HTTP callback answers
    invalid-state and calls no managed code. *)
Theorem assignment_install_outcome callback autoFetch vm engine s st :
  can_release s → assignment_balanced s →
  let r := (racModelAssignmentSetCallbacks callback autoFetch vm engine s st).1.1 in
  let s' := (racModelAssignmentSetCallbacks callback autoFetch vm engine s st).1.2 in
  assignment_balanced s' ∧ assignment_ok s' ∧
  (r = RAC_SUCCESS → ma_callback_obj s' = callback ∧
                     ma_callbacks_registered s' = bool_decide (is_Some callback)) ∧
  (r ≠ RAC_SUCCESS →
     is_Some callback ∧ ma_callback_obj s' = None ∧
     ma_callbacks_registered s' = ma_callbacks_registered s) ∧
  (ma_callback_obj s' = None →
     ∀ endpoint auth out c1 c2 st2,
       model_assignment_http_get_callback s' endpoint auth out c1 c2 st2
       = Some (inr RAC_ERROR_INVALID_STATE,
               set_result (inr RAC_ERROR_INVALID_STATE) <$> out, None, st2)).
Proof.
  unfold can_release, assignment_balanced, assignment_ok. intros Hrel Hb. cbv zeta.
  assert (match ma_callback_obj s with
          | Some _ => match ma_jvm s with
                      | Some vm0 => match get_env vm0 with
                                    | JNI_OK => pred (assignment_refs s)
                                    | _ => assignment_refs s
                                    end
                      | None => assignment_refs s
                      end
          | None => assignment_refs s
          end = 0) as Hrefs.
  { destruct (ma_callback_obj s) as [cb0|]; [|done].
    destruct Hrel as (vm0 & -> & ->); [by eexists|]. lia. }
  assert (∀ s0, ma_callback_obj s0 = None →
     ∀ endpoint auth out c1 c2 st2,
       model_assignment_http_get_callback s0 endpoint auth out c1 c2 st2
       = Some (inr RAC_ERROR_INVALID_STATE,
               set_result (inr RAC_ERROR_INVALID_STATE) <$> out, None, st2)) as Hoff.
  { intros s0 H0 *. unfold model_assignment_http_get_callback. rewrite H0.
    by destruct (ma_jvm s0). }
  unfold racModelAssignmentSetCallbacks. rewrite Hrefs.
  destruct callback as [cb|]; simpl;
    [destruct (httpGet cb) as [m|] eqn:Hm; simpl;
     [destruct (decide (engine (if autoFetch then RAC_TRUE else RAC_FALSE) = RAC_SUCCESS))
        as [He|He]; simpl|]|];
    split_and!;
    first [ done | by intros [? ?] | by (intros _; apply Hoff)
          | by (intros; split_and!;
                first [ by eexists | done
                      | by rewrite bool_decide_true by (by eexists) ]) ].
Qed.

Lemma assignment_install_outcome_witness :
  let r := (racModelAssignmentSetCallbacks (Some demo_assignment) true attached_vm
              (λ _, RAC_ERROR_NOT_FOUND) demo_assignment_state jni_start).1.1 in
  let s' := (racModelAssignmentSetCallbacks (Some demo_assignment) true attached_vm
               (λ _, RAC_ERROR_NOT_FOUND) demo_assignment_state jni_start).1.2 in
  assignment_balanced s' ∧ assignment_ok s' ∧
  (r = RAC_SUCCESS → ma_callback_obj s' = Some demo_assignment ∧
                     ma_callbacks_registered s'
                     = bool_decide (is_Some (Some demo_assignment))) ∧
  (r ≠ RAC_SUCCESS →
     is_Some (Some demo_assignment) ∧ ma_callback_obj s' = None ∧
     ma_callbacks_registered s' = ma_callbacks_registered demo_assignment_state) ∧
  (ma_callback_obj s' = None →
     ∀ endpoint auth out c1 c2 st2,
       model_assignment_http_get_callback s' endpoint auth out c1 c2 st2
       = Some (inr RAC_ERROR_INVALID_STATE,
               set_result (inr RAC_ERROR_INVALID_STATE) <$> out, None, st2)).
Proof.
  apply (assignment_install_outcome (Some demo_assignment) true attached_vm
           (λ _, RAC_ERROR_NOT_FOUND) demo_assignment_state jni_start).
  - intros _. exists attached_vm. split; reflexivity.
  - reflexivity.
Defined.

Lemma prefix_error msg : String.prefix "ERROR:" ("ERROR:" ++ msg) = true.
Proof. by destruct msg. Qed.

(** X21: how [model_assignment_http_get_callback] reads the answer of
    [httpGet].  An answer ["ERROR:" ++ msg] gives request-failed, with a
    copy of [msg] as error message and status and body untouched; an
    answer without that prefix gives success with status 200, a copy of
    the answer as body and its length.  With a null response record the
    callback answers success for every non-null answer, also one that
    starts with ["ERROR:"].  No exception is left pending. *)
Theorem assignment_response_protocol s vm m endpoint auth o (strdup_ok : bool) st
    (response : string) :
  ma_jvm s = Some vm → env_available vm → is_Some (ma_callback_obj s) →
  ma_http_get_method s = Some m → exception_pending st = false →
  m (default "" endpoint) (bool_decide (auth = RAC_TRUE)) = Returns (Some response) →
  let strdup (x : string) := if strdup_ok then Some x else None in
  ∃ code out st',
    model_assignment_http_get_callback s endpoint auth (Some o) true strdup_ok st
    = Some (code, Some out, Some (default "" endpoint, bool_decide (auth = RAC_TRUE)), st') ∧
    exception_pending st' = false ∧
    (∀ msg, response = "ERROR:" ++ msg →
       code = inr RAC_ERROR_HTTP_REQUEST_FAILED ∧
       r_result out = inr RAC_ERROR_HTTP_REQUEST_FAILED ∧
       r_error_message out = strdup msg ∧
       r_response_body out = r_response_body o ∧ r_status_code out = r_status_code o) ∧
    (String.prefix "ERROR:" response = false →
       code = inl RAC_SUCCESS ∧ r_result out = inl RAC_SUCCESS ∧
       r_status_code out = 200%Z ∧ r_response_body out = strdup response ∧
       r_response_length out = String.length response ∧
       r_error_message out = r_error_message o) ∧
    (∀ chars_ok,
       model_assignment_http_get_callback s endpoint auth None chars_ok strdup_ok st
       = Some (inl RAC_SUCCESS, None,
               Some (default "" endpoint, bool_decide (auth = RAC_TRUE)), st')).
Proof.
  intros Hvm Henv [cb Hcb] Hm Hp Hcall. cbv zeta.
  unfold model_assignment_http_get_callback. rewrite Hvm, Hcb, Hm.
  assert (∃ did, match get_env vm with
                 | JNI_OK => Some (Some false)
                 | JNI_EDETACHED => if attach_ok vm then Some (Some true) else Some None
                 | JNI_EVERSION => None
                 end = Some (Some did)) as [did ->].
  { destruct Henv as [->|[-> ->]]; by eexists. }
  unfold call_java. rewrite Hcall, Hp. simpl.
  destruct (String.prefix "ERROR:" response) eqn:Hpre.
  - eexists _, _, _. split; [done|]. simpl.
    split_and!; try done; try (by intros []).
    intros msg ->. by split_and!.
  - eexists _, _, _. split; [done|]. simpl.
    split_and!; try done; try (by intros []).
    intros msg ->. by rewrite prefix_error in Hpre.
Qed.

Lemma assignment_response_protocol_witness :
  let strdup (x : string) := Some x in
  ∃ code out st',
    model_assignment_http_get_callback demo_assignment_state (Some "models") RAC_TRUE
      (Some empty_response) true true jni_start
    = Some (code, Some out, Some ("models", true), st') ∧
    exception_pending st' = false ∧
    (∀ msg, "ERROR:models" = "ERROR:" ++ msg →
       code = inr RAC_ERROR_HTTP_REQUEST_FAILED ∧
       r_result out = inr RAC_ERROR_HTTP_REQUEST_FAILED ∧
       r_error_message out = strdup msg ∧
       r_response_body out = r_response_body empty_response ∧
       r_status_code out = r_status_code empty_response) ∧
    (String.prefix "ERROR:" "ERROR:models" = false →
       code = inl RAC_SUCCESS ∧ r_result out = inl RAC_SUCCESS ∧
       r_status_code out = 200%Z ∧ r_response_body out = strdup "ERROR:models" ∧
       r_response_length out = String.length "ERROR:models" ∧
       r_error_message out = r_error_message empty_response) ∧
    (∀ chars_ok,
       model_assignment_http_get_callback demo_assignment_state (Some "models") RAC_TRUE
         None chars_ok true jni_start
       = Some (inl RAC_SUCCESS, None, Some ("models", true), st')).
Proof.
  apply (assignment_response_protocol demo_assignment_state attached_vm demo_http_get
           (Some "models") RAC_TRUE empty_response true jni_start "ERROR:models").
  - reflexivity.
  - left. reflexivity.
  - exists demo_assignment. reflexivity.
  - reflexivity.
  - reflexivity.
  - reflexivity.
Defined.

Example demo_assignment_error :
  model_assignment_http_get_callback demo_assignment_state (Some "models") RAC_TRUE
    (Some empty_response) true true jni_start
  = Some (inr RAC_ERROR_HTTP_REQUEST_FAILED,
          Some (Build_rac_assignment_http_response_t (inr RAC_ERROR_HTTP_REQUEST_FAILED)
                  0 None 0 (Some "models")),
          Some ("models", true), jni_start).
Proof. by vm_compute. Qed.

(** ** The registry through JNI *)

Import LoraRegistryProofs.

Lemma append_empty_r (s : string) : s ++ "" = s.
Proof.
  induction s as [|c s IH]; [done|].
  change (String c (s ++ "") = String c s). by rewrite IH.
Qed.

Lemma string_concat_cons (t : string) ts :
  String.concat "," (t :: ts) = t ++ foldr (λ x r, "," ++ x ++ r) "" ts.
Proof.
  revert t. induction ts as [|t' ts IH]; intros t.
  - simpl. by rewrite append_empty_r.
  - change (t ++ "," ++ String.concat "," (t' :: ts)
            = t ++ "," ++ t' ++ foldr (λ x r, "," ++ x ++ r) "" ts).
    by rewrite IH.
Qed.

Lemma joined_cons i acc text texts :
  joined (S i) ((if (0 <? i)%nat then acc ++ "," else acc) ++ text) texts
  = joined i acc (text :: texts).
Proof.
  unfold joined. change (0 <? S i)%nat with true. cbv iota.
  destruct (0 <? i)%nat.
  - simpl. by rewrite !append_assoc.
  - rewrite string_concat_cons. by rewrite !append_assoc.
Qed.

Lemma entries_json_spec dump grow h σ arr (pre post : list loc) ws acc :
  h !! arr = Some (BEntryArr (Some <$> (pre ++ post)%list)) →
  Forall2 (λ c w, read_entry h c = Some w) post ws →
  wp (entries_json dump grow arr (length post) (length pre) acc)
     (λ out m',
        m' = Mem h σ ∧
        match out with
        | Return s =>
          ∃ texts, texts_of dump ws = Return texts ∧ s = joined (length pre) acc texts
        | Throw e => e = bad_alloc ∨ texts_of dump ws = Throw e
        end ∧
        ((∀ s, grow s = true) →
         out = match texts_of dump ws with
               | Return texts => Return (joined (length pre) acc texts)
               | Throw e => Throw e
               end))
     (Mem h σ).
Proof.
  intros Harr HF. revert pre acc Harr.
  induction HF as [|c w post ws Hc HF IH]; intros pre acc Harr.
  - simpl. apply wp_ret. split; [done|].
    assert (joined (length pre) acc [] = acc) as Hj.
    { unfold joined. simpl. rewrite append_empty_r. by destruct (0 <? length pre)%nat. }
    split; [exists []|intros _]; by rewrite Hj.
  - cbn [entries_json length texts_of].
    set (acc1 := if (0 <? length pre)%nat then acc ++ "," else acc).
    assert ((if (0 <? length pre)%nat then append_text grow acc "," else Return acc)
            = if grow acc1 then Return acc1
              else if (0 <? length pre)%nat then Throw bad_alloc else Return acc1) as ->.
    { unfold acc1, append_text. destruct (0 <? length pre)%nat; [done|].
      by destruct (grow acc). }
    assert (∀ Q : cxx_outcome string → mem → Prop,
              Q (Throw bad_alloc) (Mem h σ) → wp (ret (Throw bad_alloc)) Q (Mem h σ))
      as Hthrow by (intros Q HQ; by apply wp_ret).
    assert (wp (let* p := earr_get arr (length pre) in
                let* v := read_view p in
                match entry_text dump v with
                | Return text =>
                  match append_text grow acc1 text with
                  | Return json => entries_json dump grow arr (length post) (S (length pre)) json
                  | Throw e => ret (Throw e)
                  end
                | Throw e => ret (Throw e)
                end)
              (λ out m',
                 m' = Mem h σ ∧
                 match out with
                 | Return s =>
                   ∃ texts,
                     match dump (loraEntryToJson (Some w)) with
                     | Return text =>
                       match texts_of dump ws with
                       | Return texts => Return (text :: texts)
                       | Throw e => Throw e
                       end
                     | Throw e => Throw e
                     end = Return texts ∧ s = joined (length pre) acc texts
                 | Throw e =>
                   e = bad_alloc ∨
                   match dump (loraEntryToJson (Some w)) with
                   | Return text =>
                     match texts_of dump ws with
                     | Return texts => Return (text :: texts)
                     | Throw e => Throw e
                     end
                   | Throw e => Throw e
                   end = Throw e
                 end ∧
                 ((∀ s, grow s = true) →
                  out = match
                          match dump (loraEntryToJson (Some w)) with
                          | Return text =>
                            match texts_of dump ws with
                            | Return texts => Return (text :: texts)
                            | Throw e => Throw e
                            end
                          | Throw e => Throw e
                          end
                        with
                        | Return texts => Return (joined (length pre) acc texts)
                        | Throw e => Throw e
                        end))
              (Mem h σ)) as Hrest.
    { apply wp_bind. eapply wp_earr_get; [done| |].
      { rewrite list_lookup_fmap, lookup_app_r, Nat.sub_diag by done. done. }
      apply wp_bind. unfold wp at 1, read_view. cbn [heap]. rewrite Hc.
      cbn [entry_text].
      destruct (dump (loraEntryToJson (Some w))) as [text|e].
      2:{ apply wp_ret. split; [done|]. split; [by right|done]. }
      unfold append_text. destruct (grow (acc1 ++ text)) eqn:Hg.
      2:{ apply wp_ret. split; [done|]. split; [by left|].
          intros Hall. by rewrite Hall in Hg. }
      replace (S (length pre)) with (length (pre ++ [c])%list)
        by (rewrite length_app; simpl; lia).
      eapply wp_mono; [apply IH; by rewrite <- app_assoc|].
      intros out m' [-> [Hout Hall]]. split; [done|].
      assert (∀ texts, joined (length (pre ++ [c])%list) (acc1 ++ text) texts
                       = joined (length pre) acc (text :: texts)) as Hj.
      { intros texts. rewrite length_app. simpl. rewrite Nat.add_1_r.
        apply joined_cons. }
      split.
      - destruct out as [s|e].
        + destruct Hout as (texts & -> & ->). exists (text :: texts). by rewrite Hj.
        + destruct Hout as [-> | ->]; [by left|by right].
      - intros Hg'. rewrite (Hall Hg'). destruct (texts_of dump ws); [|done].
        by rewrite Hj. }
    destruct (grow acc1) eqn:Hg1; [exact Hrest|].
    destruct (0 <? length pre)%nat; [|exact Hrest].
    apply wp_ret. split; [done|]. split; [by left|].
    intros Hall. by rewrite Hall in Hg1.
Qed.

(** X22: [racLoraRegistryGetAll] on a well-formed registry.  When it
    returns, native memory is exactly as it found it, and the text it
    hands to [NewStringUTF] is the JSON array of the dumped documents of
    all stored entries, in the order of enumeration, or the text of the
    empty array.  When an
    exception leaves it, that is [std::bad_alloc] or the first exception
    of [dump] on the stored entries, and the copies that [get_all] made
    are not released: all earlier blocks are as they were, and the result
    array is still allocated.  With no failing allocation and a string
    that always gets its memory, the outcome is the array of all texts if
    [dump] gives them all, and the first exception of [dump] otherwise. *)
Theorem lora_get_all_json dump grow h σ hd all :
  reg_ok h hd → stored_views h hd = Some all →
  ∃ out m', racLoraRegistryGetAll dump grow (Some hd) (Mem h σ) = Some (out, m') ∧
    match out with
    | Return s =>
      heap m' = h ∧
      (s = "[]" ∨ ∃ texts, texts_of dump all = Return texts ∧ s = json_array texts)
    | Throw e =>
      (e = bad_alloc ∨ texts_of dump all = Throw e) ∧
      (∀ l, is_Some (h !! l) → heap m' !! l = h !! l) ∧
      ∃ arr, h !! arr = None ∧ is_Some (heap m' !! arr)
    end ∧
    (alloc_ok σ → (∀ s, grow s = true) →
     out = match texts_of dump all with
           | Return texts => Return (json_array texts)
           | Throw e => Throw e
           end).
Proof.
  intros Hok Hall. pose proof Hok as (entries & Hreg & _).
  destruct (stored_views_ok _ _ _ Hok Hreg) as (all' & Hall' & HF2).
  assert (all' = all) as -> by congruence.
  assert (Forall2 (λ s w, read_entry h s = Some w) (in_order entries).*2 all) as Hsrc.
  { apply Forall2_fmap_l. eapply Forall2_impl; [exact HF2|]. by intros ? ? [? _]. }
  pose proof (Forall2_length _ _ _ Hsrc) as Hlen.
  assert (wp (racLoraRegistryGetAll dump grow (Some hd))
            (λ out m',
               match out with
               | Return s =>
                 heap m' = h ∧
                 (s = "[]" ∨
                  ∃ texts, texts_of dump all = Return texts ∧ s = json_array texts)
               | Throw e =>
                 (e = bad_alloc ∨ texts_of dump all = Throw e) ∧
                 (∀ l, is_Some (h !! l) → heap m' !! l = h !! l) ∧
                 ∃ arr, h !! arr = None ∧ is_Some (heap m' !! arr)
               end ∧
               (alloc_ok σ → (∀ s, grow s = true) →
                out = match texts_of dump all with
                      | Return texts => Return (json_array texts)
                      | Throw e => Throw e
                      end))
            (Mem h σ)) as Hwp.
  { unfold racLoraRegistryGetAll, rac_lora_registry_get_all.
    apply wp_bind, wp_bind. eapply wp_load_registry; [by apply reg_entries_Some|].
    eapply copy_out_spec_full; [exact Hsrc| |].
    - intros m' [[[arr|]|] [n|]] Hres Hcount Hempty Hframe Hrel;
        cbn [fst snd out_entries out_count] in *; try discriminate.
      + injection Hcount as ->.
        destruct (Hrel arr eq_refl) as (ces & Hces & Harr & Hnd & Hfresh & Hfr & Hreps).
        destruct (length (in_order entries).*2) as [|n] eqn:Hn.
        { apply nil_length_inv in Hn. by destruct (Hempty Hn) as [[=] _]. }
        destruct m' as [h1 σ1]. cbn [heap] in *.
        apply wp_bind.
        replace (S n) with (length ces.*1) by (by rewrite length_fmap).
        eapply wp_mono.
        { apply (entries_json_spec dump grow h1 σ1 arr [] ces.*1 all "[").
          - done.
          - apply Forall2_fmap_l. eapply Forall2_impl; [exact Hreps|].
            intros x w Hrep. exact (rep_read_entry _ _ _ _ _ Hrep). }
        intros out m' [-> [Hout Hgrow]]. cbn [length] in *.
        assert (∃ arr, h !! arr = None ∧ is_Some (h1 !! arr)) as Hleak.
        { exists arr. split; [apply Hfresh; left|by rewrite Harr]. }
        destruct out as [s|e].
        2:{ apply wp_ret. cbn [heap]. split; [done|].
            intros _ Hg. specialize (Hgrow Hg). by destruct (texts_of dump all). }
        destruct Hout as (texts & Htexts & ->).
        unfold append_text. destruct (grow (joined 0 "[" texts ++ "]")) eqn:Hg.
        2:{ apply wp_ret. cbn [heap]. split; [split_and!; [by left|done..]|].
            intros _ Hgr. by rewrite Hgr in Hg. }
        apply wp_bind. rewrite length_fmap.
        eapply array_free_spec; [done..| |].
        { eapply Forall2_Forall_l; [exact Hreps|]. apply Forall_true. eauto. }
        apply wp_ret. cbn [heap]. unfold json_array, joined. simpl.
        rewrite Htexts. split; [split; [done|]; right; by exists texts|done].
      + destruct n as [|n]; [|discriminate].
        apply wp_ret. unfold read_result in Hres. simpl in Hres.
        injection Hres as <-. simpl in Hlen. apply nil_length_inv in Hlen.
        destruct (Hempty Hlen) as [_ ->]. simpl. split_and!; auto.
    - intros m' out Hσ Hne Hheap Hout. simpl. apply wp_ret. split_and!; auto.
      by intros ?. }
  apply wp_elim in Hwp as (out & m' & Hrun & ?). eauto.
Qed.

Lemma lora_get_all_json_witness :
  ∃ out m', racLoraRegistryGetAll demo_dump grows (Some 9%positive) (Mem (heap demo_m3) [])
            = Some (out, m') ∧
    match out with
    | Return s =>
      heap m' = heap demo_m3 ∧
      (s = "[]" ∨
       ∃ texts, texts_of demo_dump [demo_v1; demo_v3] = Return texts ∧
                s = json_array texts)
    | Throw e =>
      (e = bad_alloc ∨ texts_of demo_dump [demo_v1; demo_v3] = Throw e) ∧
      (∀ l, is_Some (heap demo_m3 !! l) → heap m' !! l = heap demo_m3 !! l) ∧
      ∃ arr, heap demo_m3 !! arr = None ∧ is_Some (heap m' !! arr)
    end ∧
    (alloc_ok [] → (∀ s, grows s = true) →
     out = match texts_of demo_dump [demo_v1; demo_v3] with
           | Return texts => Return (json_array texts)
           | Throw e => Throw e
           end).
Proof.
  apply (lora_get_all_json demo_dump grows (heap demo_m3) [] 9%positive [demo_v1; demo_v3]).
  - exact demo_m3_reg_ok.
  - vm_compute. reflexivity.
Defined.

(** With an id that [dump] refuses, the exception leaves the function, and
    the nine blocks of the result stay allocated. *)
Example demo_get_all_throws :
  outcome (racLoraRegistryGetAll demo_dump grows (Some 9%positive))
          (Mem (heap demo_bad_mem) []) (Return "")
  = Throw type_error ∧
  size (heap demo_bad_mem) = 23 ∧
  size (heap (after (racLoraRegistryGetAll demo_dump grows (Some 9%positive))
                    (Mem (heap demo_bad_mem) []))) = 32.
Proof. by vm_compute. Qed.

(** With a string that gets no memory beyond eight bytes, the append of
    the second entry fails: [std::bad_alloc] leaves the function, and the
    nine blocks of the result stay allocated. *)
Example demo_get_all_no_memory :
  let grow := λ s : string, (String.length s <=? 8)%nat in
  outcome (racLoraRegistryGetAll demo_dump grow (Some 9%positive))
          (Mem (heap demo_m3) []) (Return "")
  = Throw bad_alloc ∧
  size (heap (after (racLoraRegistryGetAll demo_dump grow (Some 9%positive))
                    (Mem (heap demo_m3) [])))
  = (size (heap demo_m3) + 9)%nat.
Proof. by vm_compute. Qed.

Example demo_get_all_json :
  outcome (racLoraRegistryGetAll demo_dump grows (Some 9%positive)) (Mem (heap demo_m3) [])
          (Return "")
  = Return "[{l1},{l2}]" ∧
  outcome (racLoraRegistryGetAll demo_dump grows (Some 9%positive))
          (Mem (heap demo_m3) [true; true; false]) (Return "") = Return "[]".
Proof. by vm_compute. Qed.

(** ** The two streaming entry points side by side *)

Lemma llm_stream_callback_token_adds tok d st :
  (llm_stream_callback_token (Some tok) (Some d) st).1.2 = Some (add_token tok d).
Proof.
  unfold llm_stream_callback_token.
  destruct (jvm (add_token tok d)) as [vm|]; [|done].
  destruct (callback (add_token tok d)) as [cb|]; [|done].
  destruct (onTokenMethod (add_token tok d)); [|done].
  destruct (get_env vm); [|destruct (attach_ok vm)|]; try done;
    destruct (call_on_token cb tok st) as [[] []]; done.
Qed.

Lemma same_stream_step ev c d :
  same_stream c d → same_stream (llm_stream_step ev c) (llm_stream_callback_step ev d).
Proof.
  intros (Ht & Hn & Hc & He & Hcode & Hmsg & Hfin).
  destruct ev as [[tok|]|r|code msg]; unfold llm_stream_step, llm_stream_callback_step.
  - rewrite llm_stream_callback_token_adds. unfold same_stream. simpl.
    by rewrite Ht, Hn.
  - done.
  - unfold same_stream. simpl. by rewrite Hn, Hfin.
  - done.
Qed.

Lemma same_stream_wait evs c d now :
  same_stream c d →
  let r := wait_for kStreamWaitTimeout s_is_complete llm_stream_step evs c now in
  let r' := wait_for kStreamWaitTimeout is_complete llm_stream_callback_step evs d now in
  r'.1.1 = r.1.1 ∧ r'.2 = r.2 ∧ same_stream r.1.2 r'.1.2.
Proof.
  revert c d now. induction evs as [|[t ev] evs IH]; intros c d now Hs; cbv zeta.
  - simpl. pose proof Hs as (? & ? & Hc & ?). rewrite Hc.
    destruct (is_complete d) eqn:Hd; simpl; split_and!; done.
  - rewrite !wait_for_cons. pose proof Hs as (? & ? & Hc & ?). rewrite Hc.
    destruct (is_complete d) eqn:Hd; [simpl; split_and!; done|].
    destruct (N.max now t <=? kStreamWaitTimeout)%N; [|simpl; split_and!; done].
    apply IH. by apply same_stream_step.
Qed.

(** X24: the two LLM streaming entry points agree.  Started on contexts
    that hold the same stream and given the same callbacks of the engine,
    [racLlmComponentGenerateStreamWithCallback] returns the same document
    (or null) after the same wait as [racLlmComponentGenerateStream], and
    leaves the same stream in its context, whatever the managed token
    callback does: answer, throw, or be out of reach. *)
Theorem callback_variant_returns_same_document status c d evs :
  same_stream c d →
  let r := racLlmComponentGenerateStream status c evs in
  let r' := racLlmComponentGenerateStreamWithCallback status d evs in
  r'.1.1 = r.1.1 ∧ r'.2 = r.2 ∧ same_stream r.1.2 r'.1.2.
Proof.
  intros Hs. cbv zeta.
  unfold racLlmComponentGenerateStream, racLlmComponentGenerateStreamWithCallback.
  destruct (decide (status = RAC_SUCCESS)); [|done].
  pose proof (same_stream_wait evs c d 0 Hs) as H. cbv zeta in H.
  destruct (wait_for kStreamWaitTimeout s_is_complete llm_stream_step evs c 0)
    as [[done1 c1] w1].
  destruct (wait_for kStreamWaitTimeout is_complete llm_stream_callback_step evs d 0)
    as [[done2 d1] w2].
  simpl in H. destruct H as (-> & -> & (Ht & Hn & Hc & He & Hcode & Hmsg & Hfin)).
  destruct done1; simpl.
  - rewrite He. destruct (has_error d1) eqn:Hd; simpl.
    + unfold same_stream. by rewrite Hd.
    + rewrite Ht, Hfin. unfold same_stream. by rewrite Hd.
  - unfold same_stream. simpl. done.
Qed.

Lemma callback_variant_returns_same_document_witness :
  let r := racLlmComponentGenerateStream RAC_SUCCESS fresh_stream_ctx
             (token_events demo_tokens ++ [(4000%N, OnComplete None)]) in
  let r' := racLlmComponentGenerateStreamWithCallback RAC_SUCCESS throwing_ctx
              (token_events demo_tokens ++ [(4000%N, OnComplete None)]) in
  r'.1.1 = r.1.1 ∧ r'.2 = r.2 ∧ same_stream r.1.2 r'.1.2.
Proof.
  apply (callback_variant_returns_same_document RAC_SUCCESS fresh_stream_ctx throwing_ctx
           (token_events demo_tokens ++ [(4000%N, OnComplete None)])).
  repeat split.
Defined.

End JniProofs.
